(** * analyze-sgf: the record/engine bridge, embedded and verified

    A shallow embedding of [src/sgfconv.js], [src/katagoconv.js] and
    [src/game-report.js].  JavaScript strings are sequences of UTF-16 code
    units, integer-valued numbers are [Z] with [None] for NaN, fractional
    numbers are IEEE binary64 values ([spec_float]), and a call that may
    throw returns a [completion]. *)

From Stdlib Require Import ZArith NArith List Bool Ascii Lia Sorted.
From Stdlib Require String Decimal DecimalString DecimalPos.
From Stdlib Require Import SpecFloat.
Import ListNotations String.StringSyntax.

Set Warnings "-register-all".

Open Scope string_scope.
Open Scope list_scope.
Open Scope Z_scope.

(** ** The host language fragment *)

Module JS.

(** A string is the list of its UTF-16 code units. *)
Definition jsstring := list N.

(** Literals: an ASCII text as its code units. *)
Definition js (s : String.string) : jsstring :=
  map N_of_ascii (String.list_ascii_of_string s).

(** Integer-valued numbers; [None] is NaN. *)
Definition jsint := option Z.

Inductive error := TypeError | RangeError | SyntaxError.

Inductive completion (A : Type) :=
| Normal (a : A)
| Throw (e : error).

Arguments Normal {A} a.
Arguments Throw {A} e.

Definition bind {A B} (c : completion A) (k : A -> completion B) : completion B :=
  match c with
  | Normal a => k a
  | Throw e => Throw e
  end.

(** [String.fromCharCode(n)]: ToUint16 of the argument, NaN giving 0. *)
Definition fromCharCode (n : jsint) : jsstring :=
  match n with
  | Some z => [Z.to_N (z mod 65536)]
  | None => [0%N]
  end.

(** [s.charCodeAt(i)]: NaN out of range. *)
Definition charCodeAt (s : jsstring) (i : nat) : jsint :=
  option_map Z.of_N (nth_error s i).

Definition int_add (a : jsint) (k : Z) : jsint := option_map (fun z => z + k) a.
Definition int_rsub (k : Z) (a : jsint) : jsint := option_map (fun z => k - z) a.

(** [n.toString()] for an integer-valued number. *)
Definition number_toString (n : jsint) : jsstring :=
  match n with
  | Some z => js (DecimalString.NilZero.string_of_int (Z.to_int z))
  | None => js "NaN"
  end.

(** [toUpperCase] and [toLowerCase] on one code unit.  Only the ASCII range
    is modelled: a code unit from 128 on is left as it is, where the host
    maps the letters beyond ASCII as well (and may change the length).  The
    model is exact on texts of code units below 128. *)
Definition upper1 (c : N) : N :=
  if ((97 <=? c) && (c <=? 122))%N then (c - 32)%N else c.

Definition lower1 (c : N) : N :=
  if ((65 <=? c) && (c <=? 90))%N then (c + 32)%N else c.

Definition toUpperCase (s : jsstring) : jsstring := map upper1 s.

(** [s.substring(a)] and [s.substring(a, b)] for [0 <= a <= b]. *)
Definition substring_from (s : jsstring) (a : nat) : jsstring := skipn a s.
Definition substring (s : jsstring) (a b : nat) : jsstring :=
  firstn (b - a) (skipn a s).

(** [x >= k] where [x] is [s[i]] (a one-unit string or undefined) and [k] a
    one-unit string: code unit order, and false on undefined. *)
Definition unit_ge (x : option N) (k : N) : bool :=
  match x with
  | Some c => (k <=? c)%N
  | None => false
  end.

(** [x + s] where [x] is [s[i]]: undefined prints as its name. *)
Definition unit_concat (x : option N) (s : jsstring) : jsstring :=
  match x with
  | Some c => c :: s
  | None => js "undefined" ++ s
  end.

Definition is_digit (c : N) : bool := ((48 <=? c) && (c <=? 57))%N.

(** White space and line terminators skipped by [parseInt] and [trim]. *)
Definition is_space (c : N) : bool :=
  ((9 <=? c) && (c <=? 13) || (c =? 32) || (c =? 160) || (c =? 5760)
   || (8192 <=? c) && (c <=? 8202) || (c =? 8232) || (c =? 8233)
   || (c =? 8239) || (c =? 8287) || (c =? 12288) || (c =? 65279))%N.

Fixpoint skip_spaces (s : jsstring) : jsstring :=
  match s with
  | c :: s' => if is_space c then skip_spaces s' else s
  | [] => []
  end.

(** The value of the longest prefix of decimal digits, with their count. *)
Fixpoint digits_value (acc : Z) (n : nat) (s : jsstring) : Z * nat :=
  match s with
  | c :: s' =>
      if is_digit c then digits_value (10 * acc + (Z.of_N c - 48)) (S n) s'
      else (acc, n)
  | [] => (acc, n)
  end.

Definition parse_digits (s : jsstring) : jsint :=
  match digits_value 0 0%nat s with
  | (_, O) => None
  | (v, S _) => Some v
  end.

(** [parseInt(s, 10)]. The value is kept exact (a double rounds it from
    2^53 on) and a negative zero is not told from zero.  The model is exact
    where the digits give an integer of magnitude at most 2^53, so on every
    text of at most 15 units. *)
Definition parseInt (s : jsstring) : jsint :=
  match skip_spaces s with
  | 45%N :: s' => option_map Z.opp (parse_digits s')
  | 43%N :: s' => parse_digits s'
  | s' => parse_digits s'
  end.

(** One code unit, written as a character. *)
Definition ch (a : ascii) : N := N_of_ascii a.

Fixpoint str_eqb (a b : jsstring) : bool :=
  match a, b with
  | [], [] => true
  | x :: a', y :: b' => (x =? y)%N && str_eqb a' b'
  | _, _ => false
  end.

(** Truthiness of a string: the empty string is falsy. *)
Definition truthy (s : jsstring) : bool :=
  match s with
  | [] => false
  | _ :: _ => true
  end.

(** *** Regular expressions

    The sources use patterns made of single-unit classes, a greedy star on a
    class ([.*]) and the word boundary [\b].  [match_here] is the
    backtracking matcher at one position: it returns the number of code
    units the match consumes, preferring the longest repetition. *)
Inductive atom :=
| Class (p : N -> bool)
| Star (p : N -> bool)
| WordBoundary.

Definition regex := list atom.

Definition exactly (c : N) : N -> bool := fun x => (x =? c)%N.
Definition except (c : N) : N -> bool := fun x => negb (x =? c)%N.
Definition one_of (cs : list N) : N -> bool :=
  fun x => existsb (fun c => (x =? c)%N) cs.

(** [.]: anything but a line terminator. *)
Definition dot : N -> bool :=
  fun x => negb ((x =? 10) || (x =? 13) || (x =? 8232) || (x =? 8233))%N.

(** [\w]: [A-Za-z0-9_]. *)
Definition is_word (c : N) : bool :=
  (is_digit c || (65 <=? c) && (c <=? 90) || (97 <=? c) && (c <=? 122)
   || (c =? 95))%N.

Definition word_before (prev : option N) : bool :=
  match prev with
  | Some c => is_word c
  | None => false
  end.

Definition word_after (s : jsstring) : bool :=
  match s with
  | c :: _ => is_word c
  | [] => false
  end.

Definition at_boundary (prev : option N) (s : jsstring) : bool :=
  xorb (word_before prev) (word_after s).

Fixpoint match_here (re : regex) : option N -> jsstring -> option nat :=
  match re with
  | [] => fun _ _ => Some 0%nat
  | Class p :: re' =>
      fun _ s =>
        match s with
        | c :: s' =>
            if p c then option_map S (match_here re' (Some c) s') else None
        | [] => None
        end
  | WordBoundary :: re' =>
      fun prev s => if at_boundary prev s then match_here re' prev s else None
  | Star p :: re' =>
      fix star (prev : option N) (s : jsstring) {struct s} : option nat :=
        match s with
        | c :: s' =>
            if p c then
              match star (Some c) s' with
              | Some n => Some (S n)
              | None => match_here re' prev s
              end
            else match_here re' prev s
        | [] => match_here re' prev s
        end
  end.

(** [s.search(re)]: the first index with a match, or -1. *)
Fixpoint search_from (re : regex) (prev : option N) (s : jsstring) (i : Z) : Z :=
  match match_here re prev s with
  | Some _ => i
  | None =>
      match s with
      | c :: s' => search_from re (Some c) s' (i + 1)
      | [] => -1
      end
  end.

Definition search (s : jsstring) (re : regex) : Z := search_from re None s 0.

(** [s.replace(re, repl)] without the g flag: the first match only.  No
    replacement text of the sources contains a [$] pattern. *)
Fixpoint replace_from (re : regex) (repl : jsstring) (prev : option N)
  (s : jsstring) : jsstring :=
  match match_here re prev s with
  | Some n => repl ++ skipn n s
  | None =>
      match s with
      | c :: s' => c :: replace_from re repl (Some c) s'
      | [] => []
      end
  end.

Definition replace (s : jsstring) (re : regex) (repl : jsstring) : jsstring :=
  replace_from re repl None s.

(** [s.replace(re, repl)] with the g flag: every match, left to right; after
    an empty match the scan moves on by one unit.  Each step consumes a unit
    or ends, so [S (length s)] steps are enough. *)
Fixpoint replace_all_from (fuel : nat) (re : regex) (repl : jsstring)
  (prev : option N) (s : jsstring) : jsstring :=
  match fuel with
  | O => s
  | S fuel' =>
      match match_here re prev s with
      | Some (S n) =>
          repl ++ replace_all_from fuel' re repl (nth_error s n) (skipn (S n) s)
      | Some O =>
          match s with
          | c :: s' => repl ++ c :: replace_all_from fuel' re repl (Some c) s'
          | [] => repl
          end
      | None =>
          match s with
          | c :: s' => c :: replace_all_from fuel' re repl (Some c) s'
          | [] => []
          end
      end
  end.

Definition replace_all (s : jsstring) (re : regex) (repl : jsstring) : jsstring :=
  replace_all_from (S (length s)) re repl None s.

(** [s.split(sep)] for a separator of one code unit. *)
Fixpoint split (sep : N) (s : jsstring) : list jsstring :=
  match s with
  | [] => [[]]
  | c :: s' =>
      if (c =? sep)%N then [] :: split sep s'
      else
        match split sep s' with
        | piece :: pieces => (c :: piece) :: pieces
        | [] => [[c]]
        end
  end.

(** [a.join(sep)] on an array of strings. *)
Fixpoint join (sep : jsstring) (a : list jsstring) : jsstring :=
  match a with
  | [] => []
  | [x] => x
  | x :: a' => x ++ sep ++ join sep a'
  end.

(** [a.indexOf(x)] on an array of integers: strict equality, so NaN is
    never found. *)
Fixpoint indexOf_from (a : list Z) (x : Z) (i : Z) : Z :=
  match a with
  | [] => -1
  | y :: a' => if y =? x then i else indexOf_from a' x (i + 1)
  end.

Definition indexOf (a : list Z) (x : jsint) : Z :=
  match x with
  | Some z => indexOf_from a z 0
  | None => -1
  end.

(** [a.map((x, index) => f x index)]. *)
Fixpoint mapi_from {A B} (f : A -> Z -> B) (i : Z) (a : list A) : list B :=
  match a with
  | [] => []
  | x :: a' => f x i :: mapi_from f (i + 1) a'
  end.

Definition mapi {A B} (f : A -> Z -> B) (a : list A) : list B := mapi_from f 0 a.

(** [[...Array(n).keys()]]: 0, 1, ..., n - 1. *)
Definition keys (n : nat) : list Z := map Z.of_nat (seq 0 n).

(** [a.map(f)] where [f] may throw: the first throw ends the loop. *)
Fixpoint mapM {A B} (f : A -> completion B) (a : list A) : completion (list B) :=
  match a with
  | [] => Normal []
  | x :: a' =>
      bind (f x) (fun y => bind (mapM f a') (fun ys => Normal (y :: ys)))
  end.

(** [x < k] on an integer-valued number: false on NaN. *)
Definition int_ltb (x : jsint) (k : Z) : bool :=
  match x with
  | Some z => z <? k
  | None => false
  end.

(** *** Numbers

    A fractional number is an IEEE binary64 value.  [undefined] read as a
    number is NaN. *)
Definition prec : Z := 53.
Definition emax : Z := 1024.
Definition number := spec_float.

Definition NaN : number := S754_nan.

Definition num_of_Z (z : Z) : number := binary_normalize prec emax z 0 false.

(** The number nearest to [m * 10 ^ e], for [0 <= m]; [neg] is the sign. *)
Definition num_of_decimal (neg : bool) (m e : Z) : number :=
  if m =? 0 then S754_zero neg
  else if 0 <=? e then
    binary_normalize prec emax (cond_Zopp neg (m * 10 ^ e)) 0 false
  else
    SFdiv prec emax (S754_finite neg (Z.to_pos m) 0)
      (S754_finite false (Z.to_pos (10 ^ (- e))) 0).

Definition num_sub (x y : number) : number := SFsub prec emax x y.
Definition num_abs (x : number) : number := SFabs x.

(** [x < y], [x > y], [x >= y] and [x === y] on numbers. *)
Definition num_lt (x y : number) : bool := SFltb x y.
Definition num_gt (x y : number) : bool := SFltb y x.
Definition num_ge (x y : number) : bool := SFleb y x.
Definition num_eq (x y : number) : bool := SFeqb x y.

(** Truthiness of a number: zero and NaN are falsy. *)
Definition num_truthy (x : number) : bool :=
  match x with
  | S754_zero _ | S754_nan => false
  | _ => true
  end.

(** *** [JSON.parse] *)
Inductive json :=
| JNull
| JBool (b : bool)
| JNum (x : number)
| JStr (s : jsstring)
| JArr (a : list json)
| JObj (o : list (jsstring * json)).

Fixpoint json_ws (s : jsstring) : jsstring :=
  match s with
  | c :: s' =>
      if ((c =? 32) || (c =? 9) || (c =? 10) || (c =? 13))%N then json_ws s'
      else s
  | [] => []
  end.

(** The longest prefix of digits and what follows it. *)
Fixpoint take_digits (s : jsstring) : jsstring * jsstring :=
  match s with
  | c :: s' =>
      if is_digit c then let (d, r) := take_digits s' in (c :: d, r)
      else ([], s)
  | [] => ([], [])
  end.

Definition digits_Z (d : jsstring) : Z := fst (digits_value 0 0%nat d).

(** A JSON number: [-? int frac? exp?]. *)
Definition parse_number (s : jsstring) : option (json * jsstring) :=
  let (neg, s1) :=
    match s with
    | 45%N :: t => (true, t)
    | _ => (false, s)
    end in
  match take_digits s1 with
  | ([], _) => None
  | (c :: ds, s2) =>
      if (c =? 48)%N && truthy ds then None
      else
        let int := c :: ds in
        let '(frac, s3, ok_frac) :=
          match s2 with
          | 46%N :: t =>
              let (f, r) := take_digits t in (f, r, truthy f)
          | _ => ([], s2, true)
          end in
        let '(exp, s4, ok_exp) :=
          match s3 with
          | 101%N :: t | 69%N :: t =>
              let '(eneg, t1) :=
                match t with
                | 45%N :: t' => (true, t')
                | 43%N :: t' => (false, t')
                | _ => (false, t)
                end in
              let (e, r) := take_digits t1 in
              (cond_Zopp eneg (digits_Z e), r, truthy e)
          | _ => (0, s3, true)
          end in
        if ok_frac && ok_exp then
          Some (JNum (num_of_decimal neg (digits_Z (int ++ frac))
                        (exp - Z.of_nat (length frac))), s4)
        else None
  end.

Definition hex_digit (c : N) : option N :=
  if is_digit c then Some (c - 48)%N
  else if ((97 <=? c) && (c <=? 102))%N then Some (c - 87)%N
  else if ((65 <=? c) && (c <=? 70))%N then Some (c - 55)%N
  else None.

(** The units of a JSON string after its opening quote. *)
Fixpoint parse_string (s : jsstring) : option (jsstring * jsstring) :=
  match s with
  | [] => None
  | 34%N :: r => Some ([], r)
  | 92%N :: e :: r =>
      let simple u :=
        match parse_string r with
        | Some (t, r') => Some (u :: t, r')
        | None => None
        end in
      match e with
      | 34%N | 92%N | 47%N => simple e
      | 98%N => simple 8%N
      | 102%N => simple 12%N
      | 110%N => simple 10%N
      | 114%N => simple 13%N
      | 116%N => simple 9%N
      | 117%N =>
          match r with
          | h1 :: h2 :: h3 :: h4 :: r4 =>
              match hex_digit h1, hex_digit h2, hex_digit h3, hex_digit h4,
                    parse_string r4 with
              | Some a, Some b, Some c, Some d, Some (t, r') =>
                  Some ((4096 * a + 256 * b + 16 * c + d)%N :: t, r')
              | _, _, _, _, _ => None
              end
          | _ => None
          end
      | _ => None
      end
  | c :: r =>
      if (c <? 32)%N then None
      else
        match parse_string r with
        | Some (t, r') => Some (c :: t, r')
        | None => None
        end
  end.

(** Values, array elements and object members; [fuel] bounds the depth of
    the calls, which never exceeds twice the length of the text. *)
Fixpoint parse_value (fuel : nat) (s : jsstring) {struct fuel}
  : option (json * jsstring) :=
  match fuel with
  | O => None
  | S f =>
      match json_ws s with
      | 123%N :: s1 =>
          match json_ws s1 with
          | 125%N :: s2 => Some (JObj [], s2)
          | _ =>
              match parse_members f s1 with
              | Some (o, s2) => Some (JObj o, s2)
              | None => None
              end
          end
      | 91%N :: s1 =>
          match json_ws s1 with
          | 93%N :: s2 => Some (JArr [], s2)
          | _ =>
              match parse_elements f s1 with
              | Some (a, s2) => Some (JArr a, s2)
              | None => None
              end
          end
      | 34%N :: s1 =>
          match parse_string s1 with
          | Some (t, s2) => Some (JStr t, s2)
          | None => None
          end
      | 116%N :: 114%N :: 117%N :: 101%N :: s1 => Some (JBool true, s1)
      | 102%N :: 97%N :: 108%N :: 115%N :: 101%N :: s1 => Some (JBool false, s1)
      | 110%N :: 117%N :: 108%N :: 108%N :: s1 => Some (JNull, s1)
      | s1 => parse_number s1
      end
  end
with parse_elements (fuel : nat) (s : jsstring) {struct fuel}
  : option (list json * jsstring) :=
  match fuel with
  | O => None
  | S f =>
      match parse_value f s with
      | Some (v, s1) =>
          match json_ws s1 with
          | 44%N :: s2 =>
              match parse_elements f s2 with
              | Some (vs, s3) => Some (v :: vs, s3)
              | None => None
              end
          | 93%N :: s2 => Some ([v], s2)
          | _ => None
          end
      | None => None
      end
  end
with parse_members (fuel : nat) (s : jsstring) {struct fuel}
  : option (list (jsstring * json) * jsstring) :=
  match fuel with
  | O => None
  | S f =>
      match json_ws s with
      | 34%N :: s1 =>
          match parse_string s1 with
          | Some (k, s2) =>
              match json_ws s2 with
              | 58%N :: s3 =>
                  match parse_value f s3 with
                  | Some (v, s4) =>
                      match json_ws s4 with
                      | 44%N :: s5 =>
                          match parse_members f s5 with
                          | Some (o, s6) => Some ((k, v) :: o, s6)
                          | None => None
                          end
                      | 125%N :: s5 => Some ([(k, v)], s5)
                      | _ => None
                      end
                  | None => None
                  end
              | _ => None
              end
          | None => None
          end
      | _ => None
      end
  end.

Definition JSON_parse (s : jsstring) : completion json :=
  match parse_value (2 * length s + 2) s with
  | Some (v, r) =>
      match json_ws r with
      | [] => Normal v
      | _ :: _ => Throw SyntaxError
      end
  | None => Throw SyntaxError
  end.

(** A value that may be undefined. *)
Definition value := option json.

(** [o[k]] on a parsed object: the last of equal keys holds. *)
Fixpoint lookup (o : list (jsstring * json)) (k : jsstring) : value :=
  match o with
  | [] => None
  | (k', v) :: o' =>
      match lookup o' k with
      | Some w => Some w
      | None => if str_eqb k' k then Some v else None
      end
  end.

(** [v.k] for a key that no string, array, number or boolean has: a
    TypeError on [undefined] and [null]. *)
Definition get (v : value) (k : jsstring) : completion value :=
  match v with
  | None | Some JNull => Throw TypeError
  | Some (JObj o) => Normal (lookup o k)
  | Some _ => Normal None
  end.

(** ToNumber. The coercion of a string or an array is not modelled and reads
    as NaN; the engine writes numbers in the fields that are read so. *)
Definition to_number (v : value) : number :=
  match v with
  | Some (JNum x) => x
  | Some JNull => num_of_Z 0
  | Some (JBool b) => num_of_Z (if b then 1 else 0)
  | _ => NaN
  end.

(** [v === x] for a number [x]. *)
Definition strict_eq_num (v : value) (x : number) : bool :=
  match v with
  | Some (JNum y) => num_eq y x
  | _ => false
  end.

(** [a.sort(cmp)]: the sort is stable; [x] stays before [y] unless
    [cmp x y] is positive (a NaN result counts as zero).  Where the
    comparator is no consistent order, as with a NaN difference, the host
    is free in the order it returns and this is one of them. *)
Fixpoint insert_sorted {A} (cmp : A -> A -> completion number) (x : A)
  (l : list A) : completion (list A) :=
  match l with
  | [] => Normal [x]
  | y :: l' =>
      bind (cmp x y) (fun d =>
        if num_gt d (num_of_Z 0) then
          bind (insert_sorted cmp x l') (fun r => Normal (y :: r))
        else Normal (x :: l))
  end.

Fixpoint sort {A} (cmp : A -> A -> completion number) (l : list A)
  : completion (list A) :=
  match l with
  | [] => Normal []
  | x :: l' => bind (sort cmp l') (insert_sorted cmp x)
  end.

(** [a.reduce(f, init)] where [f] may throw. *)
Fixpoint reduce {A B} (f : B -> A -> completion B) (init : B) (a : list A)
  : completion B :=
  match a with
  | [] => Normal init
  | x :: a' => bind (f init x) (fun acc => reduce f acc a')
  end.

(** [s.indexOf(c)] for a string [c] of one code unit: the first index, or
    -1. *)
Fixpoint str_indexOf_from (s : jsstring) (c : N) (i : Z) : Z :=
  match s with
  | [] => -1
  | x :: s' => if (x =? c)%N then i else str_indexOf_from s' c (i + 1)
  end.

Definition str_indexOf (s : jsstring) (c : N) : Z := str_indexOf_from s c 0.

(** [s.trim()]. *)
Definition trim (s : jsstring) : jsstring :=
  rev (skip_spaces (rev (skip_spaces s))).

(** [x === k] where [x] is [s[i]] and [k] a one-unit string. *)
Definition unit_is (x : option N) (k : N) : bool :=
  match x with
  | Some c => (c =? k)%N
  | None => false
  end.

End JS.

Import JS.

(** ** [src/sgfconv.js]: coordinates *)

Module sgfconv.

(** ['I' => 'J'], ['J' => 'K']. *)
Definition nextChar (c : N) : jsstring :=
  fromCharCode (int_add (Some (Z.of_N c)) 1).

(** ['J' => 'I'], ['K' => 'J']. *)
Definition prevChar (c : N) : jsstring :=
  fromCharCode (int_add (Some (Z.of_N c)) (-1)).

(** ['aa' => 'A1'], ['ia' => 'J1']. *)
Definition iaToJ1 (value : jsstring) : completion jsstring :=
  let v := toUpperCase value in
  let row := number_toString (int_add (charCodeAt v 1) (-64)) in
  match nth_error v 0 with
  | Some c0 =>
      if unit_ge (Some c0) 73 then Normal (nextChar c0 ++ row)
      else Normal (unit_concat (Some c0) row)
  | None => Normal (unit_concat None row)
  end.

(** ['aa' => 'A19'], ['bd' => 'B16']. *)
Definition iaToJ19 (value : jsstring) : completion jsstring :=
  let v := toUpperCase value in
  let row := number_toString (int_rsub 84 (charCodeAt v 1)) in
  match nth_error v 0 with
  | Some c0 =>
      if unit_ge (Some c0) 73 then Normal (nextChar c0 ++ row)
      else Normal (unit_concat (Some c0) row)
  | None => Normal (unit_concat None row)
  end.

(** ['A1' => 'aa'].  On the empty string [v[0]] is undefined, the comparison
    is false and [v[0].toLowerCase()] throws a TypeError. *)
Definition iaFromJ1 (v : jsstring) : completion jsstring :=
  let row :=
    fromCharCode (int_add (parseInt (substring v 1 (length v))) 96) in
  match nth_error v 0 with
  | Some c0 =>
      if unit_ge (Some c0) 74 then Normal (prevChar (lower1 c0) ++ row)
      else Normal (lower1 c0 :: row)
  | None => Throw TypeError
  end.

Definition indexOfRegex (string : jsstring) (re : regex) (start : Z) : Z :=
  let index := search (substring_from string (Z.to_nat start)) re in
  if index >=? 0 then index + start else index.

(** [/[^\\]\]/]: a closing bracket after a unit that is not a backslash. *)
Definition re_close : regex :=
  [Class (except (ch "\")); Class (exactly (ch "]"))].

(** [('(;W[aa];B[bb];W[cc])', 'XX', 0) => '(;W[aa]XX;B[bb];W[cc])'],
    [('(;W[aa];B[bb];W[cc])', 'XX', 7) => '(;W[aa];B[bb]XX;W[cc])']. *)
Definition addProperty (seq mark : jsstring) (index : Z) : jsstring :=
  let start := indexOfRegex seq re_close (Z.max 0 (index - 1)) in
  if negb (start =? -1) then
    substring seq 0 (Z.to_nat (start + 2)) ++ mark
      ++ substring_from seq (Z.to_nat (start + 2))
  else [].

Definition toGoodNode (seq : jsstring) (index : Z) : jsstring :=
  addProperty seq (js "TE[1]") index.

Definition toBadNode (seq : jsstring) (index : Z) : jsstring :=
  addProperty seq (js "BM[1]") index.

Definition toBadHotSpot (seq : jsstring) (index : Z) : jsstring :=
  addProperty seq (js "BM[1]HO[1]") index.

(** [/\]/g]. *)
Definition re_bracket : regex := [Class (exactly (ch "]"))].

(** [('(;W[aa];B[bb])', 'hey[]', 0) => '(;W[aa]C[hey[\]];B[bb])']. *)
Definition addComment (seq comment : jsstring) (index : Z) : jsstring :=
  addProperty seq
    (js "C[" ++ replace_all comment re_bracket (js "\]") ++ js "]") index.

(** A node of the record tree as the tokenizer returns it: the property map
    (keys in order, each with its values) and the children. *)
Definition props := list (jsstring * list jsstring).

Inductive node := Node (data : props) (children : list node).

Fixpoint prop (data : props) (key : jsstring) : option (list jsstring) :=
  match data with
  | [] => None
  | (k, vs) :: data' => if str_eqb k key then Some vs else prop data' key
  end.

(** [delete data[key]]. *)
Definition delete (data : props) (key : jsstring) : props :=
  filter (fun kv => negb (str_eqb (fst kv) key)) data.

(** A value that may be undefined, turned into a string. *)
Definition to_string (x : option jsstring) : jsstring :=
  match x with
  | Some s => s
  | None => js "undefined"
  end.

Definition mkNode (data : props) : jsstring :=
  match prop data (js "B") with
  | Some vs => js ";B[" ++ to_string (nth_error vs 0) ++ js "]"
  | None =>
      match prop data (js "W") with
      | Some vs => js ";W[" ++ to_string (nth_error vs 0) ++ js "]"
      | None => []
      end
  end.

(** Node of the tokenizer [=> ';B[kk];W[aa];B[bb]']: the main line. *)
Fixpoint seqFromObject (n : node) : jsstring :=
  match n with
  | Node data children =>
      match children with
      | c :: _ => mkNode data ++ seqFromObject c
      | [] => mkNode data
      end
  end.

(** [/\b[BW]\[[^\]]/] and [/\b[BW]\[tt\]/]. *)
Definition re_move : regex :=
  [WordBoundary; Class (one_of [ch "B"; ch "W"]); Class (exactly (ch "["));
   Class (except (ch "]"))].

Definition re_tt : regex :=
  [WordBoundary; Class (one_of [ch "B"; ch "W"]); Class (exactly (ch "["));
   Class (exactly (ch "t")); Class (exactly (ch "t"));
   Class (exactly (ch "]"))].

(** The value of the parameter [sz] where a caller leaves it out. *)
Definition default_sz : jsint := Some 19.

Definition isNotPassingMove (move : jsstring) (sz : jsint) : bool :=
  if int_ltb sz 20 then
    negb (search move re_move =? -1) && (search move re_tt =? -1)
  else negb (search move re_move =? -1).

(** [';W[aa];B[];W[bb]' => true], [';W[aa];B[tt];W[bb]' => true],
    [';W[aa];B[cc];W[bb]' => false]. *)
Definition hasPassingMoves (seq : jsstring) (sz : jsint) : bool :=
  existsb (fun node => negb (isNotPassingMove node sz))
    (filter truthy (split (ch ";") seq)).

(** [/[BW]\[[^\]]/]. *)
Definition re_move_head : regex :=
  [Class (one_of [ch "B"; ch "W"]); Class (exactly (ch "["));
   Class (except (ch "]"))].

(** For autoplaying the variations:
    ['(;W[po];B[hm];W[ae]...)' => 'WQ5 H7 A15'], [';W[po]' => 'Q5']. *)
Definition seqToPV (seq : jsstring) : completion jsstring :=
  let pl :=
    if unit_is (nth_error seq 0) (ch "(") then nth_error seq 2
    else nth_error seq 0 in
  bind (mapM (fun move => iaToJ19 (substring move 2 4))
          (filter (fun move => search move re_move_head =? 0)
             (split (ch ";") seq)))
    (fun coords =>
       let pv := join (js " ") coords in
       Normal (if str_indexOf pv (ch " ") >=? 0 then unit_concat pl pv
               else pv)).

Definition addPropValue (acc v : jsstring) : jsstring :=
  acc ++ js "[" ++ replace_all (trim v) re_bracket (js "\]") ++ js "]".

(** [{ A: ['0'], B: ['a', 'b'] } => 'A[0]B[a][b]'], after the node
    separator; the comments are left out unless [comment] is given. *)
Definition propsFromObject (obj : props) (comment : bool) : jsstring :=
  fold_left
    (fun acc kv =>
       if negb comment && str_eqb (fst kv) (js "C") then acc
       else acc ++ fst kv ++ fold_left addPropValue (snd kv) [])
    obj (js ";").

(** [/\r\n/g] and [/\n/g]. *)
Definition re_crlf : regex := [Class (exactly 13%N); Class (exactly 10%N)].
Definition re_lf : regex := [Class (exactly 10%N)].

Section Tokenizer.

(** The record tokenizer ([@sabaki/sgf]) is not part of the repository. *)
Variable sgfparser_parse : jsstring -> completion (list node).

(** All the comments of the root are removed. *)
Definition rootAndSeqFromSGF (sgf : jsstring) : completion (props * jsstring) :=
  bind (sgfparser_parse sgf) (fun nodes =>
    match nodes with
    | Node data children :: _ =>
        let data' := delete data (js "C") in
        Normal (data', seqFromObject (Node data' children))
    | [] => Throw TypeError
    end).

(** Strips tail, comments, and line feeds from the record. *)
Definition removeTails (sgf : jsstring) (comment : bool) : completion jsstring :=
  bind (sgfparser_parse (replace_all (replace_all sgf re_crlf []) re_lf []))
    (fun nodes =>
       match nodes with
       | n :: _ =>
           match n with
           | Node data _ =>
               Normal (js "(" ++ propsFromObject data comment
                         ++ seqFromObject n ++ js ")")
           end
       | [] => Throw TypeError
       end).

End Tokenizer.

End sgfconv.

Import sgfconv.

(** ** [src/katagoconv.js]: queries and responses *)

Module katagoconv.

Section Query.

(** Host functions the query builder calls and that are not modelled: the
    tokenizer, [parseFloat] and the clock [Date.now()]. [rest] is the type
    of the pass-through engine options. *)
Variable sgfparser_parse : jsstring -> completion (list node).
Variable parseFloat : jsstring -> number.
Variable Date_now : Z.
Variable rest : Type.

(** A stone or a move: the colour unit and the COMPACT coordinate. *)
Definition stone := (option N * jsstring)%type.

Record options := {
  o_komi : option number;
  o_initialPlayer : option jsstring;
  o_analyzeTurns : option (list Z);
  o_rest : rest
}.

Record query := {
  komi : option number;
  initialPlayer : option jsstring;
  id : jsstring;
  initialStones : list stone;
  moves : list stone;
  analyzeTurns : list Z;
  q_rest : rest
}.

(** [root => [["B","A1"],["B","B2"],["W","A2"]]]. *)
Definition initialStonesFromRoot (root : props) : completion (list stone) :=
  let stones pl key :=
    mapM (fun pos => bind (iaToJ1 pos) (fun c => Normal (Some (ch pl), c)))
      (match prop root (js key) with Some vs => vs | None => [] end) in
  bind (stones "B"%char "AB") (fun b =>
  bind (stones "W"%char "AW") (fun w => Normal (b ++ w))).

(** [';W[po];B[hm];W[ae]' => [["W","Q15"],["B","H13"],["W","A5"]]],
    [(';W[po];B[hm];W[tt]', 19) => [["W","Q15"],["B","H13"]]]. *)
Definition seqToKataGoMoves (seq : jsstring) (sz : jsint) : completion (list stone) :=
  mapM
    (fun move =>
       let i := Z.to_nat (search move re_move) in
       bind (iaToJ1 (substring move (i + 2) (i + 4)))
         (fun c => Normal (nth_error move i, c)))
    (filter (fun move => isNotPassingMove move sz) (split (ch ";") seq)).

(** Turn number to real turn number map: passing moves are not included in
    the engine's numbering, and the real turn number of an engine turn is
    [map[turnNumber]]. *)
Definition makeRealTurnNumbersMap (seq : jsstring) : list Z :=
  [0] ++
  filter (fun v => negb (v =? -1))
    (mapi (fun move index =>
             if isNotPassingMove move default_sz then index + 1 else -1)
       (filter truthy (split (ch ";") seq))).

(** The JSON query for the engine. *)
Definition sgfToKataGoAnalysisQuery (sgf : jsstring) (analysisOpts : options)
  : completion query :=
  bind (rootAndSeqFromSGF sgfparser_parse sgf) (fun rs =>
  let root := fst rs in
  let seq := snd rs in
  let komi1 :=
    match prop root (js "KM") with
    | Some vs => Some (parseFloat (to_string (nth_error vs 0)))
    | None => o_komi analysisOpts
    end in
  let initialPlayer1 :=
    match prop root (js "PL") with
    | Some vs => nth_error vs 0
    | None => o_initialPlayer analysisOpts
    end in
  let sz :=
    match prop root (js "SZ") with
    | Some vs => parseInt (to_string (nth_error vs 0))
    | None => Some 0
    end in
  bind (initialStonesFromRoot root) (fun stones =>
  bind (seqToKataGoMoves seq sz) (fun moves1 =>
  let analyzeTurns1 :=
    match o_analyzeTurns analysisOpts with
    | None => keys (length moves1 + 1)
    | Some turns =>
        if hasPassingMoves seq default_sz then
          let realTurnNumbers := makeRealTurnNumbersMap seq in
          filter (fun turn => negb (turn =? -1))
            (map (fun turn => indexOf realTurnNumbers (Some turn)) turns)
        else turns
    end in
  Normal {|
    komi := komi1;
    initialPlayer := initialPlayer1;
    id := js "9beach-" ++ number_toString (Some Date_now);
    initialStones := stones;
    moves := moves1;
    analyzeTurns := analyzeTurns1;
    q_rest := o_rest analysisOpts
  |}))).

End Query.

Arguments o_komi {rest} _.
Arguments o_initialPlayer {rest} _.
Arguments o_analyzeTurns {rest} _.
Arguments o_rest {rest} _.
Arguments komi {rest} _.
Arguments initialPlayer {rest} _.
Arguments id {rest} _.
Arguments initialStones {rest} _.
Arguments moves {rest} _.
Arguments analyzeTurns {rest} _.
Arguments q_rest {rest} _.
Arguments sgfToKataGoAnalysisQuery sgfparser_parse parseFloat Date_now
  {rest} sgf analysisOpts.

(** [/.*:/]. *)
Definition re_to_colon : regex := [Star dot; Class (exactly (ch ":"))].

Definition getTurnNumber (a : jsstring) : jsint :=
  parseInt (replace a re_to_colon []).

(** Overwrites revisited to original. *)
Definition mergeKataGoResponses (original revisited : jsstring) (turns : list Z)
  : jsstring :=
  join [ch "010"]
    (filter (fun l => indexOf turns (getTurnNumber l) =? -1)
       (split (ch "010") original))
  ++ revisited.

(** [/.*"rootInfo"/g]: what precedes the root information of a record is
    dropped before the record is parsed. *)
Definition re_rootInfo : regex :=
  Star dot :: map (fun c => Class (exactly c)) ([34%N] ++ js "rootInfo" ++ [34%N]).

Definition rootInfo_open : jsstring := js "{" ++ [34%N] ++ js "rootInfo" ++ [34%N].

(** The accumulator of the scan over the sorted records. *)
Record drops_acc := {
  acc_analyzeTurns : list number;
  acc_winrate : value;
  acc_turnNumber : value
}.

(** Returns array of (turnNumber - 1) whose win rate drops by more than the
    given parameter. *)
Definition winrateDropTurnsFromKataGoResponses (responses : jsstring)
  (winrateDrop : number) : completion (list number) :=
  bind (mapM JSON_parse
          (filter truthy
             (split (ch "010")
                (replace_all responses re_rootInfo rootInfo_open))))
    (fun records =>
  bind (sort
          (fun a b =>
             bind (get (Some a) (js "turnNumber")) (fun ta =>
             bind (get (Some b) (js "turnNumber")) (fun tb =>
             Normal (num_sub (to_number ta) (to_number tb)))))
          records)
    (fun sorted =>
  bind (reduce
          (fun acc cur =>
             bind (get (Some cur) (js "turnNumber")) (fun t =>
             let prev := num_sub (to_number t) (num_of_Z 1) in
             bind
               (if strict_eq_num (acc_turnNumber acc) prev then
                  bind (get (Some cur) (js "rootInfo")) (fun ri =>
                  bind (get ri (js "winrate")) (fun w =>
                  Normal
                    (num_gt
                       (num_abs (num_sub (to_number (acc_winrate acc))
                                   (to_number w)))
                       winrateDrop)))
                else Normal false)
               (fun flagged =>
             bind (get (Some cur) (js "rootInfo")) (fun ri =>
             bind (get ri (js "winrate")) (fun w =>
             Normal {|
               acc_analyzeTurns :=
                 if flagged then
                   acc_analyzeTurns acc ++ [to_number (acc_turnNumber acc)]
                 else acc_analyzeTurns acc;
               acc_winrate := w;
               acc_turnNumber := t
             |})))))
          {| acc_analyzeTurns := []; acc_winrate := None;
             acc_turnNumber := None |}
          sorted)
    (fun acc => Normal (acc_analyzeTurns acc)))).

(** [("W", { pv:["A1","B2","C3"] }) => '(;W[aa];B[bb];W[cc])']. *)
Definition seqFromKataGoMoveInfo (pl : jsstring) (pv : list jsstring)
  : completion jsstring :=
  bind (reduce
          (fun acc move =>
             bind (iaFromJ1 move) (fun c =>
             Normal (fst acc ++ js ";" ++ snd acc ++ js "[" ++ c ++ js "]",
                     if str_eqb (snd acc) (js "W") then js "B" else js "W")))
          ([], pl) pv)
    (fun seq => Normal (js "(" ++ fst seq ++ js ")")).

End katagoconv.

(** ** [src/game-report.js]: classification *)

Module GameReport.

(** One move of the game: its index, its player, and its win rate and score
    drops (NaN where the source has [undefined]). *)
Record drop := {
  index : Z;
  pl : jsstring;
  winrateDrop : number;
  scoreDrop : number
}.

(** The thresholds of the report, as fractions. *)
Record stat := {
  goodmovewinrate : number;
  badmovewinrate : number;
  badhotspotwinrate : number
}.

(** [l.sort(cmp)] for a comparator that does not throw. *)
Fixpoint insert_by (cmp : drop -> drop -> number) (x : drop) (l : list drop)
  : list drop :=
  match l with
  | [] => [x]
  | y :: l' =>
      if num_gt (cmp x y) (num_of_Z 0) then y :: insert_by cmp x l' else x :: l
  end.

Definition sort_by (cmp : drop -> drop -> number) (l : list drop) : list drop :=
  fold_right (insert_by cmp) [] l.

(** [l.slice(0, n)]. *)
Definition slice0 (n : nat) (l : list drop) : list drop := firstn n l.

Definition makeGoodBads (p : jsstring) (drops : list drop) (st : stat)
  : list (list drop) :=
  [ (* 0: Good moves. *)
    filter (fun n => str_eqb (pl n) p
                     && num_lt (winrateDrop n) (goodmovewinrate st)) drops;
    (* 1: Not bad moves. *)
    filter (fun n => str_eqb (pl n) p
                     && num_lt (winrateDrop n) (badmovewinrate st)) drops;
    (* 2: Bad moves. *)
    filter (fun n => str_eqb (pl n) p
                     && num_ge (winrateDrop n) (badmovewinrate st)) drops;
    (* 3: Bad hot spots. *)
    filter (fun n => str_eqb (pl n) p
                     && num_ge (winrateDrop n) (badhotspotwinrate st)) drops;
    (* 4: Top 10 win rate drops. *)
    slice0 10
      (sort_by (fun a b => num_sub (winrateDrop b) (winrateDrop a))
         (filter (fun n => str_eqb (pl n) p && num_truthy (winrateDrop n))
            drops));
    (* 5: Top 10 score drops. *)
    slice0 10
      (sort_by (fun a b => num_sub (scoreDrop b) (scoreDrop a))
         (filter (fun n => str_eqb (pl n) p && num_truthy (scoreDrop n))
            drops));
    (* 6: Total. *)
    filter (fun n => str_eqb (pl n) p) drops ].

(** The buckets by name: [goodBads[0]] to [goodBads[3]]. *)
Definition good (gb : list (list drop)) : list drop := nth 0 gb [].
Definition acceptable (gb : list (list drop)) : list drop := nth 1 gb [].
Definition bad (gb : list (list drop)) : list drop := nth 2 gb [].
Definition hotSpot (gb : list (list drop)) : list drop := nth 3 gb [].

(** A node of the game tree, as far as the report reads it. *)
Record tree_node := {
  node_pl : jsstring;
  node_winrateDrop : number;
  node_scoreDrop : number
}.

(** The drops the constructor takes from the nodes of the game tree. *)
Definition drops_of_nodes (nodes : list tree_node) : list drop :=
  mapi (fun node i =>
          {| index := i; pl := node_pl node;
             winrateDrop := node_winrateDrop node;
             scoreDrop := node_scoreDrop node |})
    nodes.

End GameReport.

Import katagoconv GameReport.

(** * The vocabulary of the properties *)

(** The code units [lo], [lo + 1], ..., [lo + n - 1]. *)
Definition units (lo : N) (n : nat) : list N :=
  map (fun i => (lo + N.of_nat i)%N) (seq 0 n).

(** [x] names a point of a board of size [sz]: two lower-case letters, each
    among the first [sz] of the alphabet. *)
Definition on_board (sz : Z) (x : jsstring) : Prop :=
  exists col row,
    x = [col; row]
    /\ 0 <= Z.of_N col - 97 < sz
    /\ 0 <= Z.of_N row - 97 < sz.

(** The round trip of the coordinate [col; row], as a test. *)
Definition roundtrip_ok (col row : N) : bool :=
  match bind (iaToJ1 [col; row]) iaFromJ1 with
  | Normal y => str_eqb y [col; row]
  | Throw _ => false
  end.

(** The COMPACT column of an upper-case unit and the RAW column of a
    COMPACT one, as the conversions compute them: no range is checked. *)
Definition compact_column (c : N) : jsstring :=
  if (73 <=? c)%N then nextChar c else [c].

Definition raw_column (c : N) : jsstring :=
  if (74 <=? c)%N then prevChar (lower1 c) else [lower1 c].

(** The unit before position [j] of [s], [prev] being the one before [s]. *)
Definition prev_at (prev : option N) (s : jsstring) (j : nat) : option N :=
  match j with
  | O => prev
  | S j' => nth_error s j'
  end.

(** Offset [q] of [s] holds a closing bracket whose preceding unit is not a
    backslash. *)
Definition closes_unescaped (s : jsstring) (q : nat) : Prop :=
  exists p c,
    q = S p /\ nth_error s p = Some c /\ c <> ch "\"
    /\ nth_error s q = Some (ch "]").

(** Where the scan starts: [Math.max(0, index - 1)]. *)
Definition scan_start (index : Z) : nat := Z.to_nat (Z.max 0 (index - 1)).

(** [mark] put right after offset [q] of [s]. *)
Definition inserted_after (q : nat) (mark s : jsstring) : jsstring :=
  firstn (S q) s ++ mark ++ skipn (S q) s.

(** Every closing bracket of a text escaped. *)
Definition escape_brackets (s : jsstring) : jsstring :=
  flat_map (fun c => if (c =? ch "]")%N then js "\]" else [c]) s.

(** The text of a move node: the colour, then the coordinate in brackets. *)
Definition move_node (c : N) (coord : jsstring) : jsstring :=
  c :: ch "[" :: coord ++ [ch "]"].

(** The colour units B and W. *)
Definition is_colour (c : N) : Prop := c = ch "B" \/ c = ch "W".

(** A coordinate text with no bracket and no node separator in it. *)
Definition plain (coord : jsstring) : Prop :=
  ~ In (ch "[") coord /\ ~ In (ch "]") coord /\ ~ In (ch ";") coord.

(** The pass rule where the board size is left out. *)
Definition not_pass (m : jsstring) : bool := isNotPassingMove m default_sz.

(** The nodes of a sequence text: its non-empty pieces between separators. *)
Definition nodes_of (seq : jsstring) : list jsstring :=
  filter truthy (split (ch ";") seq).

(** The real indices of the non-pass nodes, the first node having index
    [i + 1]. *)
Fixpoint real_indices (i : Z) (nodes : list jsstring) : list Z :=
  match nodes with
  | [] => []
  | m :: r =>
      if not_pass m then (i + 1) :: real_indices (i + 1) r
      else real_indices (i + 1) r
  end.

(** A stream of records, each ended by [sep]. *)
Definition terminated (sep : N) (recs : list jsstring) : jsstring :=
  concat (map (fun l => l ++ [sep]) recs).

(** The turn number of a record line is in the turn list. *)
Definition listed (turns : list Z) (l : jsstring) : bool :=
  match getTurnNumber l with
  | Some t => existsb (Z.eqb t) turns
  | None => false
  end.

(** A response record on one line: a text, a colon, the turn number in
    decimal, and the rest of the line. *)
Record response := {
  r_before : jsstring;
  r_turn : Z;
  r_after : jsstring
}.

Definition record_line (r : response) : jsstring :=
  r_before r ++ ch ":" :: number_toString (Some (r_turn r)) ++ r_after r.

(** A text that does not go on with a digit. *)
Definition ends_number (s : jsstring) : Prop :=
  match s with
  | c :: _ => is_digit c = false
  | [] => True
  end.

(** A record as the engine writes it: no line terminator before the turn
    number, no colon and no line feed after it, and a turn number from 0 to
    below 2^53, which a double holds exactly. *)
Definition well_formed_response (r : response) : Prop :=
  Forall (fun c => dot c = true) (r_before r)
  /\ 0 <= r_turn r < 2 ^ 53
  /\ ends_number (r_after r)
  /\ ~ In (ch ":") (r_after r)
  /\ ~ In (ch "010") (r_after r).

(** The turns are integers that doubles hold exactly. *)
Definition safe_integers (turns : list Z) : Prop :=
  Forall (fun t => Z.abs t <= 2 ^ 53) turns.

(** The turn of a record is one of the turns to replace. *)
Definition replaced (turns : list Z) (r : response) : bool :=
  existsb (Z.eqb (r_turn r)) turns.

(** The value of a decimal numeral after the digits that gave [acc]. *)
Fixpoint uint_value (acc : Z) (d : Decimal.uint) : Z :=
  match d with
  | Decimal.Nil => acc
  | Decimal.D0 d' => uint_value (10 * acc) d'
  | Decimal.D1 d' => uint_value (10 * acc + 1) d'
  | Decimal.D2 d' => uint_value (10 * acc + 2) d'
  | Decimal.D3 d' => uint_value (10 * acc + 3) d'
  | Decimal.D4 d' => uint_value (10 * acc + 4) d'
  | Decimal.D5 d' => uint_value (10 * acc + 5) d'
  | Decimal.D6 d' => uint_value (10 * acc + 6) d'
  | Decimal.D7 d' => uint_value (10 * acc + 7) d'
  | Decimal.D8 d' => uint_value (10 * acc + 8) d'
  | Decimal.D9 d' => uint_value (10 * acc + 9) d'
  end.

(** The string [iaToJ1] returns. *)
Definition compact (v : jsstring) : jsstring :=
  match iaToJ1 v with
  | Normal s => s
  | Throw _ => []
  end.

(** The position of [t] in the turn map [m], if it has one. *)
Fixpoint position (m : list Z) (t : Z) : option nat :=
  match m with
  | [] => None
  | y :: m' => if y =? t then Some 0%nat else option_map S (position m' t)
  end.

(** The engine turn of the real turn [t]: its position in the map, or
    nothing. *)
Definition engine_turn (m : list Z) (t : Z) : list Z :=
  match position m t with
  | Some p => [Z.of_nat p]
  | None => []
  end.

(** The board size the query builder reads from the root. *)
Definition board_size (root : props) : jsint :=
  match prop root (js "SZ") with
  | Some vs => parseInt (to_string (nth_error vs 0))
  | None => Some 0
  end.

(** The move of a node text that is not a pass. *)
Definition move_of (move : jsstring) : stone :=
  let i := Z.to_nat (search move re_move) in
  (nth_error move i, compact (substring move (i + 2) (i + 4))).

(** A move: its colour unit and its coordinate text. *)
Definition move := (N * jsstring)%type.

(** The node text of a move. *)
Definition node_of (mv : move) : jsstring := move_node (fst mv) (snd mv).

(** The sequence text of a list of moves, as [seqFromObject] writes it. *)
Definition moves_text (ms : list move) : jsstring :=
  concat (map (fun mv => ch ";" :: node_of mv) ms).

(** A move with a colour and a plain coordinate text. *)
Definition valid_move (mv : move) : Prop :=
  is_colour (fst mv) /\ plain (snd mv).

(** The main line of a record tree: the data of the first children. *)
Fixpoint main_line (n : node) : list props :=
  match n with
  | Node data children =>
      data :: match children with
              | c :: _ => main_line c
              | [] => []
              end
  end.

(** The children of a root whose main line plays the given moves. *)
Definition chain (ms : list (String.string * String.string)) : list node :=
  fold_right (fun m rest => [Node [(js (fst m), [js (snd m)])] rest]) [] ms.

(** A record of size 19 with a pass as its second move, and one of size 25
    with its second move at [tt]. *)
Definition record19 : list node :=
  [Node [(js "SZ", [js "19"]); (js "C", [js "a game"])]
     (chain [("W", "aa"); ("B", ""); ("W", "bb")])].

Definition record25 : list node :=
  [Node [(js "SZ", [js "25"])]
     (chain [("B", "aa"); ("W", "tt"); ("B", "bb")])].

(** The options of a caller who gives the turns to analyze. *)
Definition turns_given (turns : list Z) : options unit :=
  {| o_komi := None; o_initialPlayer := None; o_analyzeTurns := Some turns;
     o_rest := tt |}.

(** A text between double quotes. *)
Definition quoted (s : String.string) : jsstring := [34%N] ++ js s ++ [34%N].

(** A response record of the engine, on one line: the fields are in the
    order of their names, the turn number last. *)
Definition response_line (winrate turn : String.string) : jsstring :=
  js "{" ++ quoted "id" ++ js ":" ++ quoted "9beach-1" ++ js ","
  ++ quoted "isDuringSearch" ++ js ":false,"
  ++ quoted "moveInfos" ++ js ":[],"
  ++ quoted "rootInfo" ++ js ":{" ++ quoted "winrate" ++ js ":" ++ js winrate
  ++ js "}," ++ quoted "turnNumber" ++ js ":" ++ js turn ++ js "}".

(** The same record, by its parts: what precedes the last colon, the turn
    number and the closing brace. *)
Definition response_record (winrate : String.string) (t : Z) : response :=
  {| r_before :=
       js "{" ++ quoted "id" ++ js ":" ++ quoted "9beach-1" ++ js ","
       ++ quoted "isDuringSearch" ++ js ":false,"
       ++ quoted "moveInfos" ++ js ":[],"
       ++ quoted "rootInfo" ++ js ":{" ++ quoted "winrate" ++ js ":"
       ++ js winrate ++ js "}," ++ quoted "turnNumber";
     r_turn := t;
     r_after := js "}" |}.

(** Turns 0 to 3 with root win rates 0.50, 0.55, 0.40 and 0.60. *)
Definition four_turns : jsstring :=
  terminated (ch "010")
    [response_line "0.50" "0"; response_line "0.55" "1";
     response_line "0.40" "2"; response_line "0.60" "3"].

(** The threshold 0.10. *)
Definition one_tenth : number := num_of_decimal false 10 (-2).

(** The thresholds 0.05, 0.06 and 0.15, and two moves of Black with the
    drops 0.03 and 0.20. *)
Definition thresholds : stat :=
  {| goodmovewinrate := num_of_decimal false 5 (-2);
     badmovewinrate := num_of_decimal false 6 (-2);
     badhotspotwinrate := num_of_decimal false 15 (-2) |}.

Definition small_drop : drop :=
  {| index := 0; pl := js "B"; winrateDrop := num_of_decimal false 3 (-2);
     scoreDrop := num_of_decimal false 5 (-1) |}.

Definition large_drop : drop :=
  {| index := 2; pl := js "B"; winrateDrop := num_of_decimal false 20 (-2);
     scoreDrop := num_of_decimal false 42 (-1) |}.

(** * The vocabulary of the further properties *)

(** The point of a 19 by 19 board with the same column and the row counted
    from the other side. *)
Definition mirror19 (x : jsstring) : jsstring :=
  match x with
  | [col; row] => [col; (212 - row)%N]
  | _ => x
  end.

(** The DISPLAY name of [col; row] against the COMPACT name of its mirror
    point, as a test. *)
Definition display_ok (col row : N) : bool :=
  match iaToJ19 [col; row], iaToJ1 [col; (212 - row)%N] with
  | Normal a, Normal b => str_eqb a b
  | _, _ => false
  end.

(** A string of UTF-16 code units. *)
Definition utf16 (s : jsstring) : Prop := Forall (fun c => (c < 65536)%N) s.

(** The move a node of the record tree carries: Black's if it has one, else
    White's, with the first value as the coordinate text. *)
Definition data_move (data : props) : option move :=
  match prop data (js "B") with
  | Some vs => Some (ch "B", to_string (nth_error vs 0))
  | None =>
      match prop data (js "W") with
      | Some vs => Some (ch "W", to_string (nth_error vs 0))
      | None => None
      end
  end.

(** The moves of the main line of a record tree. *)
Definition main_moves (n : node) : list move :=
  flat_map (fun data => match data_move data with
                        | Some mv => [mv]
                        | None => []
                        end)
    (main_line n).

(** A move that is not a pass on a board of size [sz]. *)
Definition played (sz : Z) (mv : move) : bool :=
  truthy (snd mv) && (negb (sz <? 20) || negb (str_eqb (snd mv) (js "tt"))).

(** A move with a colour and, as its coordinate text, nothing or two plain
    units. *)
Definition well_formed_move (mv : move) : Prop :=
  valid_move mv /\ (snd mv = [] \/ length (snd mv) = 2%nat).

(** The move the engine gets for a move of the record. *)
Definition engine_move (mv : move) : stone := (Some (fst mv), compact (snd mv)).

(** The colour that moves after [c]. *)
Definition other_colour (c : N) : N :=
  if (c =? ch "W")%N then ch "B" else ch "W".

(** The moves at the coordinates [xs], the colours taking turns from [c]. *)
Fixpoint alternating (c : N) (xs : list jsstring) : list move :=
  match xs with
  | [] => []
  | x :: r => (c, x) :: alternating (other_colour c) r
  end.

(** [l1] is [l2] with some of its entries left out. *)
Inductive subseq {A : Type} : list A -> list A -> Prop :=
| subseq_nil : subseq [] []
| subseq_skip (x : A) (l1 l2 : list A) : subseq l1 l2 -> subseq l1 (x :: l2)
| subseq_keep (x : A) (l1 l2 : list A) :
    subseq l1 l2 -> subseq (x :: l1) (x :: l2).

(** One step of the scan of [winrateDropTurnsFromKataGoResponses] over the
    sorted records. *)
Definition drop_step (winrateDrop : number) (acc : drops_acc) (cur : json)
  : completion drops_acc :=
  bind (get (Some cur) (js "turnNumber")) (fun t =>
  let prev := num_sub (to_number t) (num_of_Z 1) in
  bind
    (if strict_eq_num (acc_turnNumber acc) prev then
       bind (get (Some cur) (js "rootInfo")) (fun ri =>
       bind (get ri (js "winrate")) (fun w =>
       Normal
         (num_gt
            (num_abs (num_sub (to_number (acc_winrate acc)) (to_number w)))
            winrateDrop)))
     else Normal false)
    (fun flagged =>
  bind (get (Some cur) (js "rootInfo")) (fun ri =>
  bind (get ri (js "winrate")) (fun w =>
  Normal {|
    acc_analyzeTurns :=
      if flagged then acc_analyzeTurns acc ++ [to_number (acc_turnNumber acc)]
      else acc_analyzeTurns acc;
    acc_winrate := w;
    acc_turnNumber := t
  |})))).

(** The records of a response stream, parsed and sorted by turn number. *)
Definition sorted_records (responses : jsstring) : completion (list json) :=
  bind (mapM JSON_parse
          (filter truthy
             (split (ch "010")
                (replace_all responses re_rootInfo rootInfo_open))))
    (sort
       (fun a b =>
          bind (get (Some a) (js "turnNumber")) (fun ta =>
          bind (get (Some b) (js "turnNumber")) (fun tb =>
          Normal (num_sub (to_number ta) (to_number tb)))))).

(** The results of one scan against those of another with a threshold at
    least as high: the same error, or fewer turns. *)
Definition fewer_turns (r1 r2 : completion (list number)) : Prop :=
  match r1, r2 with
  | Normal l1, Normal l2 => subseq l2 l1
  | Throw e1, Throw e2 => e1 = e2
  | _, _ => False
  end.

(** One step of [seqFromKataGoMoveInfo] over the moves of a variation: the
    text so far and the colour to move. *)
Definition moveInfo_step (acc : jsstring * jsstring) (move : jsstring)
  : completion (jsstring * jsstring) :=
  bind (iaFromJ1 move) (fun v =>
  Normal (fst acc ++ js ";" ++ snd acc ++ js "[" ++ v ++ js "]",
          if str_eqb (snd acc) (js "W") then js "B" else js "W")).

(** The DISPLAY name of a coordinate, as [iaToJ19] returns it. *)
Definition display (v : jsstring) : jsstring :=
  match iaToJ19 v with
  | Normal s => s
  | Throw _ => []
  end.

(** The DISPLAY name of [col; row] has no blank in it, as a test. *)
Definition display_plain (col row : N) : bool :=
  negb (existsb (N.eqb (ch " ")) (display [col; row])).

(** A move of a record on a board of size [sz]: a colour and, as its
    coordinate text, nothing (a pass) or a point of the board. *)
Definition board_move (sz : Z) (mv : move) : Prop :=
  is_colour (fst mv) /\ (snd mv = [] \/ on_board sz (snd mv)).

(** The coordinates of the moves that have one. *)
Definition coords_played (ms : list move) : list jsstring :=
  map snd (filter (fun mv => truthy (snd mv)) ms).

(** The pieces between the separators of [a ++ moves_text ms ++ b]. *)
Fixpoint pieces (a : jsstring) (ms : list move) (b : jsstring)
  : list jsstring :=
  match ms with
  | [] => [a ++ b]
  | mv :: r => a :: pieces (node_of mv) r b
  end.

(** The text [removeTails] hands to the tokenizer. *)
Definition tokenizer_input (sgf : jsstring) : jsstring :=
  replace_all (replace_all sgf re_crlf []) re_lf [].

(** The buckets by name: [goodBads[4]] to [goodBads[6]]. *)
Definition topWinrate (gb : list (list drop)) : list drop := nth 4 gb [].
Definition topScore (gb : list (list drop)) : list drop := nth 5 gb [].
Definition total (gb : list (list drop)) : list drop := nth 6 gb [].

Definition is_nan (x : number) : bool :=
  match x with
  | S754_nan => true
  | _ => false
  end.

(** A move with no win rate drop, where the source has [undefined]. *)
Definition unrated_drop : drop :=
  {| index := 1; pl := js "B"; winrateDrop := NaN; scoreDrop := NaN |}.

(** * Properties *)

(** ** The examples in the comments of the sources *)

Section SourceExamples.

Example iaToJ1_examples :
  iaToJ1 (js "aa") = Normal (js "A1") /\ iaToJ1 (js "ia") = Normal (js "J1").
Proof. split; reflexivity. Qed.

Example iaToJ19_examples :
  iaToJ19 (js "aa") = Normal (js "A19")
  /\ iaToJ19 (js "bd") = Normal (js "B16").
Proof. split; reflexivity. Qed.

Example iaFromJ1_example : iaFromJ1 (js "A1") = Normal (js "aa").
Proof. reflexivity. Qed.

Example addProperty_examples :
  addProperty (js "(;W[aa];B[bb];W[cc])") (js "XX") 0
  = js "(;W[aa]XX;B[bb];W[cc])"
  /\ addProperty (js "(;W[aa];B[bb];W[cc])") (js "XX") 7
     = js "(;W[aa];B[bb]XX;W[cc])".
Proof. split; reflexivity. Qed.

Example mark_examples :
  toGoodNode (js "(;W[aa];B[bb];W[cc])") 0 = js "(;W[aa]TE[1];B[bb];W[cc])"
  /\ toBadNode (js "(;W[aa];B[bb];W[cc])") 0
     = js "(;W[aa]BM[1];B[bb];W[cc])"
  /\ toBadHotSpot (js "(;W[aa];B[bb];W[cc])") 0
     = js "(;W[aa]BM[1]HO[1];B[bb];W[cc])"
  /\ addComment (js "(;W[aa];B[bb])") (js "hey[]") 0
     = js "(;W[aa]C[hey[\]];B[bb])".
Proof. repeat split. Qed.

Example hasPassingMoves_examples :
  hasPassingMoves (js ";W[aa];B[];W[bb]") default_sz = true
  /\ hasPassingMoves (js ";W[aa];B[tt];W[bb]") default_sz = true
  /\ hasPassingMoves (js ";W[aa];B[cc];W[bb]") default_sz = false.
Proof. repeat split. Qed.

Example seqToKataGoMoves_examples :
  seqToKataGoMoves (js ";W[po];B[hm];W[ae]") default_sz
  = Normal [(Some (ch "W"), js "Q15"); (Some (ch "B"), js "H13");
            (Some (ch "W"), js "A5")]
  /\ seqToKataGoMoves (js ";W[po];TE[1]B[hm];W[]") default_sz
     = Normal [(Some (ch "W"), js "Q15"); (Some (ch "B"), js "H13")]
  /\ seqToKataGoMoves (js ";W[po];B[hm];W[tt]") (Some 19)
     = Normal [(Some (ch "W"), js "Q15"); (Some (ch "B"), js "H13")].
Proof. repeat split. Qed.

Example initialStonesFromRoot_example :
  initialStonesFromRoot
    [(js "AB", [js "aa"; js "bb"]); (js "AW", [js "ab"])]
  = Normal [(Some (ch "B"), js "A1"); (Some (ch "B"), js "B2");
            (Some (ch "W"), js "A2")].
Proof. reflexivity. Qed.

Example seqFromObject_example :
  seqFromObject
    (Node [(js "FF", [js "4"])]
       [Node [(js "B", [js "kk"])]
          [Node [(js "W", [js "aa"])] [Node [(js "B", [js "bb"])] []];
           Node [(js "W", [js "cc"])] []]])
  = js ";B[kk];W[aa];B[bb]".
Proof. reflexivity. Qed.

End SourceExamples.

(** ** Generic facts on strings and ranges *)

Lemma str_eqb_eq (a b : jsstring) : str_eqb a b = true <-> a = b.
Proof.
  revert b; induction a as [|x a IH]; intros [|y b]; simpl; split;
    try congruence; try reflexivity.
  - intros H. apply andb_true_iff in H as [Hx Hab].
    apply N.eqb_eq in Hx. apply IH in Hab. congruence.
  - intros H. injection H as -> ->. rewrite N.eqb_refl. simpl.
    apply IH. reflexivity.
Qed.

Lemma in_units (lo : N) (n : nat) (c : N) :
  (lo <= c < lo + N.of_nat n)%N -> In c (units lo n).
Proof.
  intros H. unfold units. apply in_map_iff.
  exists (N.to_nat (c - lo)). split; [lia|].
  apply in_seq. lia.
Qed.

(** ** Coordinates *)

Section Coordinates.

(** Every column from a to y with every row from a to z, by evaluation. *)
Lemma roundtrip_table :
  forallb (fun col => forallb (roundtrip_ok col) (units 97 26)) (units 97 25)
  = true.
Proof. vm_compute. reflexivity. Qed.

Lemma roundtrip_letters (col row : N) :
  (97 <= col <= 121)%N -> (97 <= row <= 122)%N ->
  bind (iaToJ1 [col; row]) iaFromJ1 = Normal [col; row].
Proof.
  intros Hc Hr.
  pose proof roundtrip_table as T.
  rewrite forallb_forall in T.
  specialize (T col (in_units 97 25 col ltac:(lia))).
  rewrite forallb_forall in T.
  specialize (T row (in_units 97 26 row ltac:(lia))).
  unfold roundtrip_ok in T.
  destruct (bind (iaToJ1 [col; row]) iaFromJ1) as [y|e]; [|discriminate].
  apply str_eqb_eq in T. now subst.
Qed.

(** The column z is not recovered: its COMPACT letter is past Z. *)
Example roundtrip_column_z :
  bind (iaToJ1 (js "za")) iaFromJ1 = Normal (js "Za").
Proof. reflexivity. Qed.

(** C1. For every RAW coordinate of a board of size at most 25, converting
    to COMPACT with [iaToJ1] and back with [iaFromJ1] gives the coordinate
    again (the reserved letter included). *)
Theorem C1_compact_roundtrip (sz : Z) (x : jsstring) :
  sz <= 25 -> on_board sz x -> bind (iaToJ1 x) iaFromJ1 = Normal x.
Proof.
  intros Hsz (col & row & -> & Hc & Hr).
  apply roundtrip_letters; lia.
Qed.

Lemma C1_compact_roundtrip_witness :
  19 <= 25 /\ on_board 19 (js "ia")
  /\ bind (iaToJ1 (js "ia")) iaFromJ1 = Normal (js "ia").
Proof.
  assert (Hb : on_board 19 (js "ia")).
  { exists 105%N, 97%N. repeat split; simpl; lia. }
  split; [lia|]. split; [exact Hb|].
  apply (C1_compact_roundtrip 19); [lia|exact Hb].
Defined.

Lemma substring_tail (c : N) (v : jsstring) :
  substring (c :: v) 1 (length (c :: v)) = v.
Proof.
  unfold substring. simpl. rewrite Nat.sub_0_r. apply firstn_all.
Qed.

Lemma iaToJ1_units (c r : N) (v : jsstring) :
  iaToJ1 (c :: r :: v)
  = Normal (compact_column (upper1 c)
              ++ number_toString (Some (Z.of_N (upper1 r) + -64))).
Proof.
  unfold iaToJ1, compact_column. simpl.
  destruct (73 <=? upper1 c)%N; reflexivity.
Qed.

Lemma iaToJ19_units (c r : N) (v : jsstring) :
  iaToJ19 (c :: r :: v)
  = Normal (compact_column (upper1 c)
              ++ number_toString (Some (84 - Z.of_N (upper1 r)))).
Proof.
  unfold iaToJ19, compact_column. simpl.
  destruct (73 <=? upper1 c)%N; reflexivity.
Qed.

Lemma iaFromJ1_units (c : N) (v : jsstring) :
  iaFromJ1 (c :: v)
  = Normal (raw_column c ++ fromCharCode (int_add (parseInt v) 96)).
Proof.
  unfold iaFromJ1, raw_column. rewrite substring_tail. simpl.
  destruct (74 <=? c)%N; reflexivity.
Qed.

Lemma iaToJ1_returns (v : jsstring) : exists s, iaToJ1 v = Normal s.
Proof.
  unfold iaToJ1. destruct (nth_error (toUpperCase v) 0) as [c|]; [|eauto].
  destruct (unit_ge (Some c) 73); eauto.
Qed.

Lemma iaToJ19_returns (v : jsstring) : exists s, iaToJ19 v = Normal s.
Proof.
  unfold iaToJ19. destruct (nth_error (toUpperCase v) 0) as [c|]; [|eauto].
  destruct (unit_ge (Some c) 73); eauto.
Qed.

(** C9, as the claim states it, fails: on inputs outside the letters and
    sizes of any board the conversions return a string. *)
Lemma C9_counterexample :
  iaToJ1 (js "!!") = Normal (js "!-31")
  /\ iaToJ1 (js "zz") = Normal (js "[26")
  /\ iaToJ19 (js "!!") = Normal (js "!51")
  /\ iaToJ19 (js "az") = Normal (js "A-6")
  /\ iaFromJ1 (js "?0") = Normal (js "?`")
  /\ iaToJ1 (js "!!") <> Throw RangeError
  /\ iaToJ19 (js "!!") <> Throw RangeError
  /\ iaFromJ1 (js "?0") <> Throw RangeError.
Proof. repeat split; try reflexivity; discriminate. Qed.

(** C9, amended. The conversions check no range and raise no RangeError:
    [iaToJ1] and [iaToJ19] return a string on every input, [iaFromJ1] on
    every non-empty input (the empty one raises a TypeError). On an input
    whose first units are ASCII (and, for [iaFromJ1], whose row text has at
    most 15 units, so that its integer is below 2^53) the result is the
    letter arithmetic on those units, on the board or not: nothing is
    clamped. *)
Theorem C9_conversions_unchecked :
  (forall v, exists s, iaToJ1 v = Normal s)
  /\ (forall v, exists s, iaToJ19 v = Normal s)
  /\ (forall c v, exists s, iaFromJ1 (c :: v) = Normal s)
  /\ iaFromJ1 [] = Throw TypeError
  /\ (forall c r v,
        (c < 128)%N -> (r < 128)%N ->
        iaToJ1 (c :: r :: v)
        = Normal (compact_column (upper1 c)
                    ++ number_toString (Some (Z.of_N (upper1 r) + -64))))
  /\ (forall c r v,
        (c < 128)%N -> (r < 128)%N ->
        iaToJ19 (c :: r :: v)
        = Normal (compact_column (upper1 c)
                    ++ number_toString (Some (84 - Z.of_N (upper1 r)))))
  /\ (forall c v,
        (c < 128)%N -> (length v <= 15)%nat ->
        iaFromJ1 (c :: v)
        = Normal (raw_column c ++ fromCharCode (int_add (parseInt v) 96))).
Proof.
  split; [exact iaToJ1_returns|].
  split; [exact iaToJ19_returns|].
  split; [intros c v; rewrite iaFromJ1_units; eauto|].
  split; [reflexivity|].
  split; [intros c r v _ _; apply iaToJ1_units|].
  split; [intros c r v _ _; apply iaToJ19_units
         |intros c v _ _; apply iaFromJ1_units].
Qed.

End Coordinates.

(** ** Searching *)

Section Searching.

Lemma prev_at_cons (prev : option N) (c : N) (s : jsstring) (j : nat) :
  prev_at prev (c :: s) (S j) = prev_at (Some c) s j.
Proof. destruct j; reflexivity. Qed.

(** [search] returns the first position where the pattern matches. *)
Lemma search_from_found (re : regex) :
  forall (n : nat) (s : jsstring) (prev : option N) (i : Z),
    (n <= length s)%nat ->
    (forall j, (j < n)%nat ->
       match_here re (prev_at prev s j) (skipn j s) = None) ->
    match_here re (prev_at prev s n) (skipn n s) <> None ->
    search_from re prev s i = i + Z.of_nat n.
Proof.
  induction n as [|n IH]; intros s prev i Hlen Hbefore Hat.
  - simpl in Hat. destruct s; simpl;
      destruct (match_here re prev _); try congruence; lia.
  - destruct s as [|c s]; [simpl in Hlen; lia|].
    pose proof (Hbefore 0%nat ltac:(lia)) as H0. simpl in H0.
    simpl search_from. rewrite H0.
    rewrite (IH s (Some c) (i + 1)).
    + lia.
    + simpl in Hlen. lia.
    + intros j Hj. rewrite <- (prev_at_cons prev). apply (Hbefore (S j)). lia.
    + rewrite <- (prev_at_cons prev). exact Hat.
Qed.

(** [search] returns -1 where the pattern matches at no position. *)
Lemma search_from_none (re : regex) :
  forall (s : jsstring) (prev : option N) (i : Z),
    (forall j, (j <= length s)%nat ->
       match_here re (prev_at prev s j) (skipn j s) = None) ->
    search_from re prev s i = -1.
Proof.
  induction s as [|c s IH]; intros prev i Hno.
  - pose proof (Hno 0%nat (Nat.le_refl _)) as H0. simpl in H0.
    simpl. now rewrite H0.
  - pose proof (Hno 0%nat ltac:(lia)) as H0. simpl in H0.
    simpl search_from. rewrite H0. apply IH.
    intros j Hj. rewrite <- (prev_at_cons prev). apply (Hno (S j)). simpl. lia.
Qed.

(** A match of [/[^\\]\]/] at the head of [t]. *)
Lemma match_close_eq (prev : option N) (t : jsstring) :
  match_here re_close prev t
  = match t with
    | a :: b :: _ =>
        if negb (a =? ch "\")%N && (b =? ch "]")%N then Some 2%nat else None
    | _ => None
    end.
Proof.
  unfold re_close, except, exactly.
  destruct t as [|a [|b t]]; simpl; try reflexivity.
  - destruct (negb _); reflexivity.
  - change 92%N with (ch "\"). change 93%N with (ch "]").
    destruct (negb _); simpl; [|reflexivity].
    destruct (b =? _)%N; reflexivity.
Qed.

Lemma match_close (prev : option N) (t : jsstring) :
  match_here re_close prev t <> None
  <-> exists c, nth_error t 0 = Some c /\ c <> ch "\"
               /\ nth_error t 1 = Some (ch "]").
Proof.
  rewrite match_close_eq. split.
  - destruct t as [|a [|b t]]; try (intros H; now elim H).
    destruct (a =? ch "\")%N eqn:Ea; cbn [negb andb];
      [intros H; now elim H|].
    destruct (b =? ch "]")%N eqn:Eb; [|intros H; now elim H].
    intros _. exists a. apply N.eqb_neq in Ea. apply N.eqb_eq in Eb.
    subst b. auto.
  - intros (c & H0 & Hc & H1).
    destruct t as [|a [|b t]]; simpl in H0, H1; try congruence.
    injection H0 as ->. injection H1 as ->.
    apply N.eqb_neq in Hc. rewrite Hc, N.eqb_refl. simpl. discriminate.
Qed.

End Searching.

(** ** Property injection *)

Section Injection.

Lemma indexOfRegex_close (seq : jsstring) (start q : nat) :
  (start < q)%nat ->
  closes_unescaped seq q ->
  (forall q', (start < q' < q)%nat -> ~ closes_unescaped seq q') ->
  indexOfRegex seq re_close (Z.of_nat start) = Z.of_nat q - 1.
Proof.
  intros Hq (p & c & -> & Hp & Hc & Hclose) Hmin.
  assert (Hlen : (S p < length seq)%nat).
  { apply nth_error_Some. congruence. }
  unfold indexOfRegex, search, substring_from. rewrite Nat2Z.id.
  rewrite (search_from_found re_close (p - start)).
  - rewrite Z.geb_leb.
    destruct (Z.leb_spec 0 (0 + Z.of_nat (p - start))); lia.
  - rewrite length_skipn. lia.
  - intros j Hj.
    destruct (match_here re_close (prev_at None (skipn start seq) j)
                (skipn j (skipn start seq))) eqn:E; [|reflexivity].
    exfalso. assert (M : match_here re_close
                           (prev_at None (skipn start seq) j)
                           (skipn j (skipn start seq)) <> None) by congruence.
    apply (proj1 (match_close _ _)) in M as (a & Ha & Hna & Hb).
    rewrite !nth_error_skipn in Ha, Hb.
    apply (Hmin (S (start + j))); [lia|].
    exists (start + j)%nat, a. repeat split; auto.
    + rewrite <- Ha. f_equal. lia.
    + rewrite <- Hb. f_equal. lia.
  - apply match_close. exists c. rewrite !nth_error_skipn.
    repeat split; auto.
    + rewrite <- Hp. f_equal. lia.
    + rewrite <- Hclose. f_equal. lia.
Qed.

Lemma addProperty_inserted (seq mark : jsstring) (index : Z) (q : nat) :
  (scan_start index < q)%nat ->
  closes_unescaped seq q ->
  (forall q', (scan_start index < q' < q)%nat -> ~ closes_unescaped seq q') ->
  addProperty seq mark index = inserted_after q mark seq.
Proof.
  intros Hq Hc Hmin. unfold addProperty, inserted_after.
  replace (Z.max 0 (index - 1)) with (Z.of_nat (scan_start index))
    by (unfold scan_start; lia).
  rewrite (indexOfRegex_close seq (scan_start index) q Hq Hc Hmin).
  replace (Z.of_nat q - 1 =? -1) with false by lia. simpl negb. cbv iota.
  unfold substring, substring_from.
  replace (Z.to_nat (Z.of_nat q - 1 + 2)) with (S q) by lia.
  rewrite Nat.sub_0_r. reflexivity.
Qed.

(** With no such bracket the result is the empty string. *)
Lemma addProperty_no_bracket (seq mark : jsstring) (index : Z) :
  (forall q, (scan_start index < q)%nat -> ~ closes_unescaped seq q) ->
  addProperty seq mark index = [].
Proof.
  intros Hno. unfold addProperty, indexOfRegex, search, substring_from.
  replace (Z.max 0 (index - 1)) with (Z.of_nat (scan_start index))
    by (unfold scan_start; lia).
  rewrite Nat2Z.id. rewrite search_from_none; [reflexivity|].
  intros j _.
  destruct (match_here re_close
              (prev_at None (skipn (scan_start index) seq) j)
              (skipn j (skipn (scan_start index) seq))) eqn:E;
    [|reflexivity].
  exfalso.
  assert (M : match_here re_close
                (prev_at None (skipn (scan_start index) seq) j)
                (skipn j (skipn (scan_start index) seq)) <> None)
    by congruence.
  apply (proj1 (match_close _ _)) in M as (a & Ha & Hna & Hb).
  rewrite !nth_error_skipn in Ha, Hb.
  apply (Hno (S (scan_start index + j))); [lia|].
  exists (scan_start index + j)%nat, a. repeat split; auto.
  - rewrite <- Ha. f_equal. lia.
  - rewrite <- Hb. f_equal. lia.
Qed.

Lemma replace_all_from_bracket (repl : jsstring) :
  forall (s : jsstring) (fuel : nat) (prev : option N),
    (length s < fuel)%nat ->
    replace_all_from fuel re_bracket repl prev s
    = flat_map (fun c => if (c =? ch "]")%N then repl else [c]) s.
Proof.
  induction s as [|c s IH]; intros fuel prev Hf.
  - destruct fuel; [simpl in Hf; lia|reflexivity].
  - destruct fuel as [|fuel]; [simpl in Hf; lia|].
    simpl in Hf. simpl. unfold exactly. change (ch "]") with 93%N.
    destruct (c =? 93)%N; simpl; rewrite IH by lia; reflexivity.
Qed.

Lemma addComment_escapes (seq comment : jsstring) (index : Z) :
  addComment seq comment index
  = addProperty seq (js "C[" ++ escape_brackets comment ++ js "]") index.
Proof.
  unfold addComment, replace_all, escape_brackets.
  rewrite replace_all_from_bracket by lia. reflexivity.
Qed.

(** C6, as the claim states it, fails: a bracket at the very offset
    [max(0, index - 1)] is passed over, as the comment of the source on
    index 7 shows. *)
Lemma C6_counterexample :
  let seq := js "(;W[aa];B[bb];W[cc])" in
  nth_error seq 6 = Some (ch "]")
  /\ nth_error seq 5 = Some (ch "a")
  /\ Z.max 0 (7 - 1) = 6
  /\ addProperty seq (js "XX") 7 = js "(;W[aa];B[bb]XX;W[cc])"
  /\ addProperty seq (js "XX") 7 <> js "(;W[aa]XX;B[bb];W[cc])".
Proof. repeat split; try reflexivity. vm_compute. discriminate. Qed.

(** C6, amended. Where the text has a closing bracket at an offset strictly
    after [max(0, index - 1)] whose preceding unit is not a backslash,
    [addProperty] puts the property text right after the first such bracket,
    and [addComment] puts there the comment as [C[...]] with each of its
    closing brackets escaped. *)
Theorem C6_addProperty_after_bracket
  (seq mark comment : jsstring) (index : Z) (q : nat) :
  (scan_start index < q)%nat ->
  closes_unescaped seq q ->
  (forall q', (scan_start index < q' < q)%nat -> ~ closes_unescaped seq q') ->
  addProperty seq mark index = inserted_after q mark seq
  /\ addComment seq comment index
     = inserted_after q (js "C[" ++ escape_brackets comment ++ js "]") seq.
Proof.
  intros Hq Hc Hmin. split.
  - now apply addProperty_inserted.
  - rewrite addComment_escapes. now apply addProperty_inserted.
Qed.

Lemma C6_addProperty_after_bracket_witness :
  addProperty (js "(;W[aa];B[bb];W[cc])") (js "TE[1]") 0
  = js "(;W[aa]TE[1];B[bb];W[cc])"
  /\ addComment (js "(;W[aa];B[bb])") (js "hey[]") 0
     = js "(;W[aa]C[hey[\]];B[bb])".
Proof.
  split.
  - apply (C6_addProperty_after_bracket
             (js "(;W[aa];B[bb];W[cc])") (js "TE[1]") [] 0 6).
    + vm_compute. lia.
    + exists 5%nat, (ch "a"). repeat split; discriminate.
    + intros q' Hq' (p & c & -> & _ & _ & H).
      vm_compute in Hq'.
      do 6 (destruct p as [|p]; [try discriminate; lia|]). lia.
  - apply (C6_addProperty_after_bracket
             (js "(;W[aa];B[bb])") [] (js "hey[]") 0 6).
    + vm_compute. lia.
    + exists 5%nat, (ch "a"). repeat split; discriminate.
    + intros q' Hq' (p & c & -> & _ & _ & H).
      vm_compute in Hq'.
      do 6 (destruct p as [|p]; [try discriminate; lia|]). lia.
Defined.

End Injection.

(** ** Pass detection *)

Section PassDetection.

Ltac case_ifs :=
  repeat (match goal with
          | |- context [if ?x then _ else _] => destruct x
          end; cbn [andb option_map]);
  try reflexivity.

(** The two patterns, read as tests on the units at a position. *)
Lemma match_move_eq (prev : option N) (t : jsstring) :
  match_here re_move prev t
  = if at_boundary prev t then
      match t with
      | a :: b :: d :: _ =>
          if one_of [ch "B"; ch "W"] a && exactly (ch "[") b
             && except (ch "]") d
          then Some 3%nat else None
      | _ => None
      end
    else None.
Proof.
  unfold re_move. cbn [match_here].
  destruct (at_boundary prev t); [|reflexivity].
  destruct t as [|a [|b [|d t]]]; cbn [match_here option_map]; case_ifs.
Qed.

Lemma match_tt_eq (prev : option N) (t : jsstring) :
  match_here re_tt prev t
  = if at_boundary prev t then
      match t with
      | a :: b :: x :: y :: z :: _ =>
          if one_of [ch "B"; ch "W"] a && exactly (ch "[") b
             && exactly (ch "t") x && exactly (ch "t") y
             && exactly (ch "]") z
          then Some 5%nat else None
      | _ => None
      end
    else None.
Proof.
  unfold re_tt. cbn [match_here].
  destruct (at_boundary prev t); [|reflexivity].
  destruct t as [|a [|b [|x [|y [|z t]]]]]; cbn [match_here option_map];
    case_ifs.
Qed.

(** Both patterns need an opening bracket as their second unit. *)
Lemma match_needs_bracket (re : regex) (prev : option N) (t : jsstring) :
  re = re_move \/ re = re_tt ->
  ~ In (ch "[") (tl t) ->
  match_here re prev t = None.
Proof.
  intros [-> | ->] Hno; [rewrite match_move_eq|rewrite match_tt_eq];
    destruct (at_boundary prev t); try reflexivity;
    destruct t as [|a [|b t]]; try reflexivity;
    (assert (Hb : exactly (ch "[") b = false);
     [apply N.eqb_neq; intros ->; apply Hno; now left|]);
    rewrite Hb, andb_false_r; cbn [andb];
    repeat (destruct t as [|? t]; try reflexivity).
Qed.

Lemma search_from_no_bracket (re : regex) :
  re = re_move \/ re = re_tt ->
  forall (t : jsstring) (prev : option N) (i : Z),
    ~ In (ch "[") (tl t) -> search_from re prev t i = -1.
Proof.
  intros Hre. induction t as [|c t IH]; intros prev i Hno.
  - simpl. now rewrite (match_needs_bracket re prev [] Hre Hno).
  - simpl search_from. rewrite (match_needs_bracket re prev (c :: t) Hre Hno).
    apply IH. simpl in Hno. destruct t; simpl; [tauto|].
    intros H. apply Hno. now right.
Qed.

Lemma search_from_cons (re : regex) (prev : option N) (c : N) (t : jsstring)
  (i : Z) :
  search_from re prev (c :: t) i
  = match match_here re prev (c :: t) with
    | Some _ => i
    | None => search_from re (Some c) t (i + 1)
    end.
Proof. reflexivity. Qed.

(** On a move node a pattern is found at the start or nowhere. *)
Lemma search_move_node (re : regex) (c : N) (coord : jsstring) :
  re = re_move \/ re = re_tt ->
  plain coord ->
  search (move_node c coord) re
  = match match_here re None (move_node c coord) with
    | Some _ => 0
    | None => -1
    end.
Proof.
  intros Hre (Hopen & _ & _). unfold search, move_node.
  rewrite search_from_cons.
  destruct (match_here re None _); [reflexivity|].
  apply search_from_no_bracket; [exact Hre|].
  simpl. intros H. apply in_app_or in H as [H|[H|[]]]; [tauto|discriminate].
Qed.

Lemma match_move_node (c : N) (coord : jsstring) :
  is_colour c -> plain coord ->
  match_here re_move None (move_node c coord)
  = if truthy coord then Some 3%nat else None.
Proof.
  intros Hc (_ & Hclose & _). rewrite match_move_eq.
  destruct coord as [|d coord].
  - destruct Hc as [-> | ->]; reflexivity.
  - assert (Hd : except (ch "]") d = true).
    { apply negb_true_iff, N.eqb_neq. intros ->. apply Hclose. now left. }
    destruct Hc as [-> | ->]; unfold move_node; cbn [app];
      rewrite Hd; reflexivity.
Qed.

Lemma match_tt_node (c : N) (coord : jsstring) :
  is_colour c -> plain coord ->
  match_here re_tt None (move_node c coord)
  = if str_eqb coord (js "tt") then Some 5%nat else None.
Proof.
  intros Hc (_ & Hclose & _). rewrite match_tt_eq.
  assert (Hx : forall x, In x coord -> exactly (ch "]") x = false).
  { intros x Hin. apply N.eqb_neq. intros ->. now apply Hclose. }
  assert (Hcol : one_of [ch "B"; ch "W"] c = true
                 /\ at_boundary None (move_node c coord) = true).
  { destruct Hc as [-> | ->]; split; reflexivity. }
  destruct Hcol as [Hcol ->]. unfold move_node. rewrite Hcol.
  change (exactly (ch "[") (ch "[")) with true. cbn [andb].
  change (js "tt") with [ch "t"; ch "t"].
  destruct coord as [|x [|y [|z coord]]]; cbn [app str_eqb]; unfold exactly.
  - reflexivity.
  - destruct (x =? ch "t")%N; reflexivity.
  - destruct (x =? ch "t")%N; cbn [andb]; [|reflexivity].
    destruct (y =? ch "t")%N; reflexivity.
  - fold (exactly (ch "]") z). rewrite (Hx z) by (simpl; auto).
    rewrite andb_false_r.
    destruct (x =? ch "t")%N; cbn [andb]; [|reflexivity].
    destruct (y =? ch "t")%N; reflexivity.
Qed.

(** C3. A move node is classified as a pass exactly when its coordinate is
    empty or, on a board size below 20 only, when it is [tt]. *)
Theorem C3_pass_detection (c : N) (coord : jsstring) (sz : Z) :
  is_colour c -> plain coord ->
  (isNotPassingMove (move_node c coord) (Some sz) = false
   <-> coord = [] \/ (sz < 20 /\ coord = js "tt")).
Proof.
  intros Hc Hp. unfold isNotPassingMove.
  rewrite !search_move_node by auto.
  rewrite match_move_node, match_tt_node by auto.
  simpl int_ltb.
  destruct (Z.ltb_spec sz 20) as [Hsz|Hsz];
    destruct coord as [|x coord]; simpl truthy; cbn iota.
  - simpl. tauto.
  - destruct (str_eqb (x :: coord) (js "tt")) eqn:E.
    + apply str_eqb_eq in E. simpl. tauto.
    + simpl. split; [discriminate|].
      intros [H|[_ H]]; [discriminate|].
      apply str_eqb_eq in H. congruence.
  - simpl. tauto.
  - simpl. split; [discriminate|]. intros [H|[H _]]; [discriminate|lia].
Qed.

Lemma C3_pass_detection_witness :
  isNotPassingMove (js "B[]") (Some 19) = false
  /\ isNotPassingMove (js "B[tt]") (Some 19) = false
  /\ isNotPassingMove (js "B[cc]") (Some 19) <> false
  /\ isNotPassingMove (js "B[]") (Some 25) = false
  /\ isNotPassingMove (js "B[tt]") (Some 25) <> false.
Proof.
  assert (HB : is_colour (ch "B")) by (now left).
  assert (Hplain : forall s,
            negb (existsb (fun x => (x =? ch "[")%N || (x =? ch "]")%N
                                     || (x =? ch ";")%N) s) = true ->
            plain s).
  { intros s H. apply negb_true_iff in H.
    repeat split; intros Hin;
      (assert (E : existsb (fun x => (x =? ch "[")%N || (x =? ch "]")%N
                                      || (x =? ch ";")%N) s = true);
       [apply existsb_exists; eexists; split; [exact Hin|reflexivity]
       |congruence]). }
  split; [|split; [|split; [|split]]].
  - apply (proj2 (C3_pass_detection (ch "B") [] 19 HB (Hplain [] eq_refl))).
    now left.
  - apply (proj2 (C3_pass_detection (ch "B") (js "tt") 19 HB
                    (Hplain (js "tt") eq_refl))).
    right. split; [lia|reflexivity].
  - intros H.
    apply (proj1 (C3_pass_detection (ch "B") (js "cc") 19 HB
                    (Hplain (js "cc") eq_refl))) in H.
    destruct H as [H|[_ H]]; discriminate.
  - apply (proj2 (C3_pass_detection (ch "B") [] 25 HB (Hplain [] eq_refl))).
    now left.
  - intros H.
    apply (proj1 (C3_pass_detection (ch "B") (js "tt") 25 HB
                    (Hplain (js "tt") eq_refl))) in H.
    destruct H as [H|[H _]]; [discriminate|lia].
Defined.

End PassDetection.

(** ** The turn map *)

Section TurnMap.

Lemma mapi_filter_real_indices (nodes : list jsstring) :
  forall i, 0 <= i ->
    filter (fun v => negb (v =? -1))
      (mapi_from (fun move index => if not_pass move then index + 1 else -1)
         i nodes)
    = real_indices i nodes.
Proof.
  induction nodes as [|m r IH]; intros i Hi; [reflexivity|].
  simpl. destruct (not_pass m); simpl.
  - replace (i + 1 =? -1) with false by lia. simpl. now rewrite IH by lia.
  - now rewrite IH by lia.
Qed.

Lemma makeRealTurnNumbersMap_eq (seq : jsstring) :
  makeRealTurnNumbersMap seq = 0 :: real_indices 0 (nodes_of seq).
Proof.
  unfold makeRealTurnNumbersMap, mapi, nodes_of.
  now rewrite (mapi_filter_real_indices _ 0) by lia.
Qed.

Lemma real_indices_above (nodes : list jsstring) :
  forall i, Forall (fun k => i < k) (real_indices i nodes).
Proof.
  induction nodes as [|m r IH]; intros i; simpl; [constructor|].
  assert (H : Forall (fun k => i < k) (real_indices (i + 1) r)).
  { eapply Forall_impl; [|apply IH]. simpl. intros k Hk. lia. }
  destruct (not_pass m); [constructor; [lia|exact H]|exact H].
Qed.

Lemma real_indices_sorted (nodes : list jsstring) :
  forall i, StronglySorted Z.lt (real_indices i nodes).
Proof.
  induction nodes as [|m r IH]; intros i; simpl; [constructor|].
  destruct (not_pass m); [|apply IH].
  constructor; [apply IH|apply real_indices_above].
Qed.

Lemma real_indices_length (nodes : list jsstring) :
  forall i, length (real_indices i nodes) = length (filter not_pass nodes).
Proof.
  induction nodes as [|m r IH]; intros i; simpl; [reflexivity|].
  destruct (not_pass m); simpl; now rewrite IH.
Qed.

(** Position [p] holds [k] exactly when node [k] (counted from [i + 1]) is
    a non-pass move with [p] non-pass moves before it. *)
Lemma real_indices_nth (nodes : list jsstring) :
  forall i p k,
    nth_error (real_indices i nodes) p = Some k
    <-> exists j m,
          k = i + Z.of_nat j + 1
          /\ nth_error nodes j = Some m
          /\ not_pass m = true
          /\ length (filter not_pass (firstn j nodes)) = p.
Proof.
  induction nodes as [|m r IH]; intros i p k.
  - simpl. split.
    + destruct p; discriminate.
    + intros (j & m & _ & H & _). destruct j; discriminate.
  - simpl real_indices. destruct (not_pass m) eqn:Em.
    + destruct p as [|p].
      * simpl. split.
        -- intros [= <-]. exists 0%nat, m. simpl. repeat split; auto; lia.
        -- intros (j & m' & -> & _ & _ & Hcount).
           destruct j; [f_equal; lia|].
           simpl in Hcount. rewrite Em in Hcount. discriminate.
      * simpl nth_error. rewrite IH. split.
        -- intros (j & m' & -> & Hj & Hm & Hcount).
           exists (S j), m'. simpl. rewrite Em. simpl.
           repeat split; auto; lia.
        -- intros (j & m' & -> & Hj & Hm & Hcount).
           destruct j as [|j]; [discriminate|].
           simpl in Hj, Hcount. rewrite Em in Hcount.
           exists j, m'. simpl in Hcount.
           split; [lia|]. split; [exact Hj|]. split; [exact Hm|]. lia.
    + rewrite IH. split.
      * intros (j & m' & -> & Hj & Hm & Hcount).
        exists (S j), m'. simpl. rewrite Em. repeat split; auto; lia.
      * intros (j & m' & -> & Hj & Hm & Hcount).
        destruct j as [|j]; [simpl in Hj; congruence|].
        simpl in Hj, Hcount. rewrite Em in Hcount.
        exists j, m'. repeat split; auto; lia.
Qed.

(** C2. For every sequence text the turn map starts with 0, is strictly
    increasing, has one entry more than there are non-pass moves, and at
    position [p + 1] holds the real, 1-based index of the non-pass move that
    has [p] non-pass moves before it; on [;W[aa];B[];W[bb]] it is
    [0, 1, 3]. *)
Theorem C2_turn_map (seq : jsstring) :
  nth_error (makeRealTurnNumbersMap seq) 0 = Some 0
  /\ StronglySorted Z.lt (makeRealTurnNumbersMap seq)
  /\ length (makeRealTurnNumbersMap seq)
     = (1 + length (filter not_pass (nodes_of seq)))%nat
  /\ (forall p k,
        nth_error (makeRealTurnNumbersMap seq) (S p) = Some k
        <-> exists j m,
              k = Z.of_nat j + 1
              /\ nth_error (nodes_of seq) j = Some m
              /\ not_pass m = true
              /\ length (filter not_pass (firstn j (nodes_of seq))) = p)
  /\ makeRealTurnNumbersMap (js ";W[aa];B[];W[bb]") = [0; 1; 3].
Proof.
  rewrite makeRealTurnNumbersMap_eq.
  split; [reflexivity|].
  split; [constructor; [apply real_indices_sorted|apply real_indices_above]|].
  split; [simpl; now rewrite real_indices_length|].
  split; [|reflexivity].
  intros p k. simpl nth_error. rewrite real_indices_nth. reflexivity.
Qed.

End TurnMap.

(** ** Splitting and joining *)

Section SplitJoin.

Lemma split_no_sep (sep : N) (a : jsstring) :
  ~ In sep a -> split sep a = [a].
Proof.
  induction a as [|c a IH]; intros Hno; [reflexivity|].
  simpl. destruct (N.eqb_spec c sep) as [->|Hc].
  - exfalso. apply Hno. now left.
  - rewrite IH; [reflexivity|]. intros H. apply Hno. now right.
Qed.

Lemma split_app_sep (sep : N) (a b : jsstring) :
  ~ In sep a -> split sep (a ++ sep :: b) = a :: split sep b.
Proof.
  induction a as [|c a IH]; intros Hno.
  - simpl. now rewrite N.eqb_refl.
  - simpl. destruct (N.eqb_spec c sep) as [->|Hc].
    + exfalso. apply Hno. now left.
    + rewrite IH; [reflexivity|]. intros H. apply Hno. now right.
Qed.

Lemma split_terminated (sep : N) (recs : list jsstring) :
  Forall (fun l => ~ In sep l) recs ->
  split sep (terminated sep recs) = recs ++ [[]].
Proof.
  unfold terminated. induction 1 as [|l recs Hl _ IH]; [reflexivity|].
  simpl. rewrite <- app_assoc. simpl.
  rewrite split_app_sep by exact Hl. now rewrite IH.
Qed.

Lemma join_terminated (sep : N) (recs : list jsstring) :
  join [sep] (recs ++ [[]]) = terminated sep recs.
Proof.
  unfold terminated. induction recs as [|l recs IH]; [reflexivity|].
  simpl app. simpl concat. rewrite <- IH.
  destruct recs; simpl; now rewrite <- ?app_assoc.
Qed.

Lemma split_join (sep : N) (lines : list jsstring) :
  lines <> [] ->
  Forall (fun l => ~ In sep l) lines ->
  split sep (join [sep] lines) = lines.
Proof.
  intros Hne Hall. induction Hall as [|l lines Hl Hall IH]; [now elim Hne|].
  clear Hne.
  destruct lines as [|l' lines].
  - simpl. now apply split_no_sep.
  - change (join [sep] (l :: l' :: lines))
      with (l ++ sep :: join [sep] (l' :: lines)).
    rewrite split_app_sep by exact Hl. f_equal. apply IH. discriminate.
Qed.

End SplitJoin.

(** ** Merging the responses *)

Section Merge.

Lemma indexOf_from_found (a : list Z) (x : Z) :
  forall i, 0 <= i -> In x a -> 0 <= indexOf_from a x i.
Proof.
  induction a as [|y a IH]; intros i Hi Hin; [destruct Hin|].
  simpl. destruct (Z.eqb_spec y x) as [_|Hne]; [lia|].
  destruct Hin as [->|Hin]; [congruence|]. apply IH; [lia|exact Hin].
Qed.

Lemma indexOf_from_missing (a : list Z) (x : Z) :
  forall i, ~ In x a -> indexOf_from a x i = -1.
Proof.
  induction a as [|y a IH]; intros i Hno; [reflexivity|].
  simpl. destruct (Z.eqb_spec y x) as [->|_].
  - exfalso. apply Hno. now left.
  - apply IH. intros H. apply Hno. now right.
Qed.

Lemma indexOf_listed (turns : list Z) (l : jsstring) :
  (indexOf turns (getTurnNumber l) =? -1) = negb (listed turns l).
Proof.
  unfold listed, indexOf. destruct (getTurnNumber l) as [t|]; [|reflexivity].
  destruct (existsb (Z.eqb t) turns) eqn:E.
  - apply existsb_exists in E as (y & Hin & Hy). apply Z.eqb_eq in Hy.
    subst y. pose proof (indexOf_from_found turns t 0 ltac:(lia) Hin).
    simpl. lia.
  - rewrite indexOf_from_missing; [reflexivity|].
    intros Hin. assert (existsb (Z.eqb t) turns = true); [|congruence].
    apply existsb_exists. exists t. split; [exact Hin|apply Z.eqb_refl].
Qed.

(** The greedy [.*] runs to the last colon of a line. *)
Lemma match_to_colon_none (post : jsstring) :
  forall prev, ~ In (ch ":") post ->
    match_here re_to_colon prev post = None.
Proof.
  induction post as [|c post IH]; intros prev Hno; [reflexivity|].
  assert (Hc : exactly (ch ":") c = false).
  { apply N.eqb_neq. intros ->. apply Hno. now left. }
  assert (IH' : match_here re_to_colon (Some c) post = None).
  { apply IH. intros H. apply Hno. now right. }
  unfold re_to_colon in *. simpl in *. rewrite IH', Hc.
  now destruct (dot c).
Qed.

Lemma match_to_colon (pre post : jsstring) :
  forall prev, Forall (fun c => dot c = true) pre -> ~ In (ch ":") post ->
    match_here re_to_colon prev (pre ++ ch ":" :: post)
    = Some (S (length pre)).
Proof.
  induction pre as [|c pre IH]; intros prev Hpre Hpost.
  - pose proof (match_to_colon_none post (Some (ch ":")) Hpost) as Hn.
    unfold re_to_colon in *. simpl in *. now rewrite Hn.
  - inversion Hpre as [|? ? Hc Hpre']; subst.
    pose proof (IH (Some c) Hpre' Hpost) as Hm.
    unfold re_to_colon in *. simpl in *. now rewrite Hc, Hm.
Qed.

Lemma replace_from_head (re : regex) (repl : jsstring) (prev : option N)
  (s : jsstring) (n : nat) :
  match_here re prev s = Some n ->
  replace_from re repl prev s = repl ++ skipn n s.
Proof. intros H. destruct s; simpl; now rewrite H. Qed.

(** [getTurnNumber] reads the integer that follows the last colon. *)
Lemma getTurnNumber_last_colon (pre post : jsstring) :
  Forall (fun c => dot c = true) pre -> ~ In (ch ":") post ->
  getTurnNumber (pre ++ ch ":" :: post) = parseInt post.
Proof.
  intros Hpre Hpost. unfold getTurnNumber, replace.
  rewrite (replace_from_head _ _ _ _ _ (match_to_colon pre post None Hpre Hpost)).
  simpl app. f_equal. clear Hpre.
  induction pre as [|c pre IH]; [reflexivity|exact IH].
Qed.

Example getTurnNumber_examples :
  getTurnNumber (response_line "0.55" "12") = Some 12
  /\ getTurnNumber [] = None.
Proof. split; reflexivity. Qed.

Lemma merge_terminated (recs : list jsstring) (revisited : jsstring)
  (turns : list Z) :
  Forall (fun l => ~ In (ch "010") l) recs ->
  mergeKataGoResponses (terminated (ch "010") recs) revisited turns
  = terminated (ch "010") (filter (fun l => negb (listed turns l)) recs)
    ++ revisited.
Proof.
  intros Hrecs. unfold mergeKataGoResponses.
  rewrite split_terminated by exact Hrecs.
  rewrite filter_app.
  rewrite (filter_ext _ (fun l => negb (listed turns l)))
    by (intros l; apply indexOf_listed).
  change (filter (fun l => negb (listed turns l)) [[]]) with [@nil N].
  now rewrite join_terminated.
Qed.

Lemma digits_value_uint (post : jsstring) :
  forall (d : Decimal.uint) (acc : Z) (n : nat),
    digits_value acc n (js (DecimalString.NilEmpty.string_of_uint d) ++ post)
    = digits_value (uint_value acc d) (n + Decimal.nb_digits d) post.
Proof.
  induction d; intros acc n;
    cbn [DecimalString.NilEmpty.string_of_uint uint_value Decimal.nb_digits];
    [now rewrite Nat.add_0_r|..];
    rewrite Nat.add_succ_r;
    match goal with
    | |- context [js (String.String ?a ?s)] =>
        change (js (String.String a s)) with (N_of_ascii a :: js s)
    end;
    cbn [app digits_value];
    match goal with
    | |- context [is_digit ?c] => change (is_digit c) with true
    end; cbv iota; rewrite IHd;
    match goal with
    | |- context [Z.of_N ?c] =>
        let v := eval vm_compute in (Z.of_N c) in change (Z.of_N c) with v
    end;
    f_equal; try reflexivity; f_equal; lia.
Qed.

Lemma digits_value_end (acc : Z) (n : nat) (post : jsstring) :
  ends_number post -> digits_value acc n post = (acc, n).
Proof. destruct post as [|c post]; [reflexivity|]. simpl. now intros ->. Qed.

Lemma uint_value_acc (d : Decimal.uint) :
  forall a : positive, uint_value (Zpos a) d = Zpos (Pos.of_uint_acc d a).
Proof.
  induction d; intros a; cbn [uint_value Pos.of_uint_acc];
    [reflexivity|..]; rewrite <- IHd; f_equal; lia.
Qed.

Lemma uint_value_of_uint (d : Decimal.uint) :
  uint_value 0 d = Z.of_N (Pos.of_uint d).
Proof.
  induction d; cbn [uint_value Pos.of_uint]; [reflexivity|exact IHd|..];
    match goal with
    | |- context [Pos.of_uint_acc d ?k] => exact (uint_value_acc d k)
    end.
Qed.

Lemma uint_value_to_uint (p : positive) :
  uint_value 0 (Pos.to_uint p) = Zpos p.
Proof.
  rewrite uint_value_of_uint, DecimalPos.Unsigned.of_to. reflexivity.
Qed.

Lemma digit_not_space (c : N) : is_digit c = true -> is_space c = false.
Proof.
  intros H. unfold is_digit in H. apply andb_true_iff in H as (H1 & H2).
  apply N.leb_le in H1, H2. unfold is_space.
  repeat match goal with
  | |- context [(?a <=? ?b)%N] => destruct (N.leb_spec a b); try lia
  | |- context [(?a =? ?b)%N] => destruct (N.eqb_spec a b); try lia
  end; reflexivity.
Qed.

Lemma digit_head (c : N) (s : jsstring) :
  is_digit c = true -> parseInt (c :: s) = parse_digits (c :: s).
Proof.
  intros H. unfold parseInt. cbn [skip_spaces].
  rewrite (digit_not_space c H).
  unfold is_digit in H. apply andb_true_iff in H as (H1 & H2).
  apply N.leb_le in H1, H2.
  destruct c as [|p]; [lia|].
  do 6 (destruct p as [p|p|]; try lia; try reflexivity).
Qed.

Lemma decimal_digits (d : Decimal.uint) (c : N) :
  In c (js (DecimalString.NilEmpty.string_of_uint d)) -> is_digit c = true.
Proof.
  induction d; cbn [DecimalString.NilEmpty.string_of_uint];
    [intros []|..];
    match goal with
    | |- context [js (String.String ?a ?s)] =>
        change (js (String.String a s)) with (N_of_ascii a :: js s)
    end;
    (intros [<-|H]; [reflexivity|exact (IHd H)]).
Qed.

Lemma number_toString_digits (t : Z) (c : N) :
  0 <= t -> In c (number_toString (Some t)) -> is_digit c = true.
Proof.
  intros Ht. unfold number_toString.
  destruct t as [|p|p]; [| |lia].
  - intros [<-|[]]. reflexivity.
  - change (Z.to_int (Z.pos p)) with (Decimal.Pos (Pos.to_uint p)).
    cbn [DecimalString.NilZero.string_of_int].
    unfold DecimalString.NilZero.string_of_uint.
    destruct (Pos.to_uint p) eqn:E;
      [intros [<-|[]]; reflexivity|..]; apply decimal_digits.
Qed.

(** [parseInt] reads back the decimal numeral of a natural number. *)
Lemma parseInt_decimal (t : Z) (post : jsstring) :
  0 <= t -> ends_number post ->
  parseInt (number_toString (Some t) ++ post) = Some t.
Proof.
  intros Ht Hpost. unfold number_toString.
  destruct t as [|p|p]; [| |lia].
  - change (js (DecimalString.NilZero.string_of_int (Z.to_int 0)))
      with [48%N].
    change ([48%N] ++ post) with (48%N :: post).
    rewrite digit_head by reflexivity. unfold parse_digits.
    cbn [digits_value]. change (is_digit 48) with true. cbv iota.
    rewrite digits_value_end by exact Hpost. reflexivity.
  - change (Z.to_int (Z.pos p)) with (Decimal.Pos (Pos.to_uint p)).
    cbn [DecimalString.NilZero.string_of_int].
    pose proof (uint_value_to_uint p) as V.
    unfold DecimalString.NilZero.string_of_uint.
    destruct (Pos.to_uint p) as [|d|d|d|d|d|d|d|d|d|d] eqn:E;
      [discriminate V|..];
      match goal with
      | |- context [DecimalString.NilEmpty.string_of_uint ?u] =>
          assert (R : parse_digits
                        (js (DecimalString.NilEmpty.string_of_uint u) ++ post)
                      = Some (Z.pos p));
          [unfold parse_digits; rewrite digits_value_uint, V,
             digits_value_end by exact Hpost; reflexivity|]
      end;
      rewrite <- R;
      cbn [DecimalString.NilEmpty.string_of_uint];
      match goal with
      | |- context [js (String.String ?a ?s)] =>
          change (js (String.String a s)) with (N_of_ascii a :: js s)
      end; apply digit_head; reflexivity.
Qed.

Lemma digit_units (c : N) :
  is_digit c = true -> c <> ch ":" /\ c <> ch "010".
Proof.
  intros H. unfold is_digit in H. apply andb_true_iff in H as (H1 & H2).
  apply N.leb_le in H1, H2. unfold ch. simpl. lia.
Qed.

Lemma getTurnNumber_record (r : response) :
  well_formed_response r -> getTurnNumber (record_line r) = Some (r_turn r).
Proof.
  intros (Hb & Ht & He & Hc & _). unfold record_line.
  rewrite getTurnNumber_last_colon.
  - apply parseInt_decimal; [lia|exact He].
  - exact Hb.
  - intros H. apply in_app_or in H as [H|H]; [|now apply Hc].
    apply number_toString_digits in H; [|lia].
    now apply digit_units in H.
Qed.

Lemma record_line_one_line (r : response) :
  well_formed_response r -> ~ In (ch "010") (record_line r).
Proof.
  intros (Hb & Ht & _ & _ & Ha) H. unfold record_line in H.
  apply in_app_or in H as [H|[H|H]].
  - rewrite Forall_forall in Hb. specialize (Hb _ H). discriminate.
  - discriminate.
  - apply in_app_or in H as [H|H]; [|now apply Ha].
    apply number_toString_digits in H; [|lia].
    now apply digit_units in H.
Qed.

Lemma listed_record (turns : list Z) (r : response) :
  well_formed_response r -> listed turns (record_line r) = replaced turns r.
Proof.
  intros H. unfold listed, replaced. now rewrite getTurnNumber_record.
Qed.

Lemma filter_record_lines (turns : list Z) (recs : list response) :
  Forall well_formed_response recs ->
  filter (fun l => negb (listed turns l)) (map record_line recs)
  = map record_line (filter (fun r => negb (replaced turns r)) recs).
Proof.
  induction 1 as [|r recs Hr _ IH]; [reflexivity|].
  cbn [map filter]. rewrite (listed_record turns r Hr), IH.
  now destruct (replaced turns r).
Qed.

(** C5. An original stream is a list of records, each on one line: a text
    without line terminator, a colon, the turn number in decimal and a rest
    without colon (the closing brace).  For turn numbers and turns that
    doubles hold exactly, the merge returns the records whose turn number is
    not in the turn list, in their order, each ended by a newline as in the
    original, followed by the revisit stream as it is; nothing is sorted.
    The same holds where the last record of the original is not ended by a
    newline. *)
Theorem C5_merge (recs : list response) (revisited : jsstring)
  (turns : list Z) :
  Forall well_formed_response recs ->
  safe_integers turns ->
  mergeKataGoResponses (terminated (ch "010") (map record_line recs))
    revisited turns
  = terminated (ch "010")
      (map record_line (filter (fun r => negb (replaced turns r)) recs))
    ++ revisited
  /\ (recs <> [] ->
      mergeKataGoResponses (join [ch "010"] (map record_line recs))
        revisited turns
      = join [ch "010"]
          (map record_line (filter (fun r => negb (replaced turns r)) recs))
        ++ revisited).
Proof.
  intros Hrecs _.
  assert (Hlines : Forall (fun l => ~ In (ch "010") l) (map record_line recs)).
  { apply Forall_forall. intros l Hl.
    apply in_map_iff in Hl as (r & <- & Hr).
    rewrite Forall_forall in Hrecs. now apply record_line_one_line, Hrecs. }
  split.
  - rewrite merge_terminated by exact Hlines.
    now rewrite filter_record_lines.
  - intros Hne. unfold mergeKataGoResponses.
    rewrite split_join; [|destruct recs; [now elim Hne|discriminate]|exact Hlines].
    rewrite (filter_ext _ (fun l => negb (listed turns l)))
      by (intros l; apply indexOf_listed).
    now rewrite filter_record_lines.
Qed.

End Merge.

(** ** The analysis query *)

Section AnalysisQuery.

Lemma mapM_returns {A B} (f : A -> completion B) (l : list A) :
  (forall x, In x l -> exists y, f x = Normal y) ->
  exists ys, mapM f l = Normal ys /\ length ys = length l.
Proof.
  induction l as [|x l IH]; intros Hf; [exists []; auto|].
  destruct (Hf x (or_introl eq_refl)) as (y & Hy).
  destruct IH as (ys & Hys & Hlen); [intros z Hz; apply Hf; now right|].
  exists (y :: ys). simpl. rewrite Hy. simpl. rewrite Hys. simpl.
  split; [reflexivity|now rewrite Hlen].
Qed.

Lemma mapM_map {A B} (f : A -> completion B) (g : A -> B) (l : list A) :
  (forall x, In x l -> f x = Normal (g x)) -> mapM f l = Normal (map g l).
Proof.
  induction l as [|x l IH]; intros Hf; [reflexivity|].
  simpl. rewrite (Hf x (or_introl eq_refl)). simpl.
  rewrite IH by (intros z Hz; apply Hf; now right). reflexivity.
Qed.

Lemma iaToJ1_compact (v : jsstring) : iaToJ1 v = Normal (compact v).
Proof.
  unfold compact. destruct (iaToJ1_returns v) as (s & ->). reflexivity.
Qed.

Lemma indexOf_from_position (m : list Z) (t : Z) :
  forall i,
    indexOf_from m t i
    = match position m t with
      | Some p => i + Z.of_nat p
      | None => -1
      end.
Proof.
  induction m as [|y m IH]; intros i; [reflexivity|].
  simpl. destruct (y =? t); [lia|].
  rewrite IH. destruct (position m t); simpl; lia.
Qed.

Lemma reexpress_engine_turns (m turns : list Z) :
  filter (fun turn => negb (turn =? -1))
    (map (fun turn => indexOf m (Some turn)) turns)
  = flat_map (engine_turn m) turns.
Proof.
  induction turns as [|t turns IH]; [reflexivity|].
  cbn [map filter flat_map]. rewrite IH.
  unfold indexOf. rewrite indexOf_from_position.
  assert (E : engine_turn m t
              = match position m t with
                | Some p => [Z.of_nat p]
                | None => []
                end) by reflexivity.
  rewrite E. clear E.
  destruct (position m t) as [p|]; [|reflexivity].
  destruct (Z.eqb_spec (0 + Z.of_nat p) (-1)) as [H|_]; [lia|].
  simpl. f_equal.
Qed.

Lemma position_nth (m : list Z) (t : Z) :
  forall p, position m t = Some p -> nth_error m p = Some t.
Proof.
  induction m as [|y m IH]; intros p; [discriminate|].
  simpl. destruct (Z.eqb_spec y t) as [->|_].
  - intros [= <-]. reflexivity.
  - destruct (position m t) as [p'|]; [|discriminate].
    intros [= <-]. simpl. now apply IH.
Qed.

Lemma position_none (m : list Z) (t : Z) :
  position m t = None <-> ~ In t m.
Proof.
  induction m as [|y m IH]; simpl; [tauto|].
  destruct (Z.eqb_spec y t) as [->|Hne].
  - split; [discriminate|]. intros H. exfalso. apply H. now left.
  - destruct (position m t) as [p|]; simpl.
    + split; [discriminate|]. intros H. exfalso.
      assert (Hin : In t m).
      { destruct (In_dec Z.eq_dec t m) as [Hin|Hout]; [exact Hin|].
        apply IH in Hout. discriminate. }
      apply H. now right.
    + split; [|reflexivity]. intros _ [H|H]; [congruence|].
      now apply (proj1 IH).
Qed.

Lemma sorted_nth_inj (m : list Z) :
  StronglySorted Z.lt m ->
  forall p p' t, nth_error m p = Some t -> nth_error m p' = Some t -> p = p'.
Proof.
  induction 1 as [|y m Hs IH Hall]; intros p p' t Hp Hp'.
  - destruct p; discriminate.
  - rewrite Forall_forall in Hall.
    destruct p as [|p], p' as [|p']; simpl in Hp, Hp'.
    + reflexivity.
    + injection Hp as ->. apply nth_error_In, Hall in Hp'. lia.
    + injection Hp' as ->. apply nth_error_In, Hall in Hp. lia.
    + f_equal. eapply IH; eauto.
Qed.

(** In the turn map of a sequence a real turn has at most one position. *)
Lemma engine_turn_spec (seq : jsstring) (t : Z) :
  (forall p, engine_turn (makeRealTurnNumbersMap seq) t = [Z.of_nat p]
             <-> nth_error (makeRealTurnNumbersMap seq) p = Some t)
  /\ (engine_turn (makeRealTurnNumbersMap seq) t = []
      <-> ~ In t (makeRealTurnNumbersMap seq)).
Proof.
  assert (Hs : StronglySorted Z.lt (makeRealTurnNumbersMap seq)).
  { rewrite makeRealTurnNumbersMap_eq.
    constructor; [apply real_indices_sorted|apply real_indices_above]. }
  unfold engine_turn. split.
  - intros p. destruct (position _ t) as [p'|] eqn:E.
    + apply position_nth in E. split.
      * intros [= H]. apply Nat2Z.inj in H. now subst.
      * intros Hp. now rewrite (sorted_nth_inj _ Hs _ _ _ E Hp).
    + split; [discriminate|]. intros Hp. apply position_none in E.
      exfalso. apply E. eapply nth_error_In. exact Hp.
  - destruct (position _ t) as [p'|] eqn:E.
    + split; [discriminate|]. intros Hno. exfalso. apply Hno.
      eapply nth_error_In. apply position_nth. exact E.
    + split; [|reflexivity]. intros _. now apply position_none.
Qed.

Lemma initialStonesFromRoot_returns (root : props) :
  exists stones, initialStonesFromRoot root = Normal stones.
Proof.
  unfold initialStonesFromRoot.
  destruct (mapM_returns
              (fun pos => bind (iaToJ1 pos)
                            (fun c => Normal (Some (ch "B"), c)))
              (match prop root (js "AB") with Some vs => vs | None => [] end))
    as (b & Hb & _).
  { intros x _. rewrite iaToJ1_compact. simpl. eauto. }
  destruct (mapM_returns
              (fun pos => bind (iaToJ1 pos)
                            (fun c => Normal (Some (ch "W"), c)))
              (match prop root (js "AW") with Some vs => vs | None => [] end))
    as (w & Hw & _).
  { intros x _. rewrite iaToJ1_compact. simpl. eauto. }
  rewrite Hb. cbn [bind]. rewrite Hw. cbn [bind]. eauto.
Qed.

Lemma seqToKataGoMoves_eq (seq : jsstring) (sz : jsint) :
  seqToKataGoMoves seq sz
  = Normal (map move_of
              (filter (fun move => isNotPassingMove move sz)
                 (split (ch ";") seq))).
Proof.
  unfold seqToKataGoMoves. apply mapM_map.
  intros move _. rewrite iaToJ1_compact. reflexivity.
Qed.

(** The query on a record the tokenizer accepts. *)
Lemma query_eq (parse : jsstring -> completion (list node))
  (rest : Type) (parseFloat : jsstring -> number) (now : Z)
  (sgf : jsstring) (opts : options rest)
  (data : props) (children others : list node) :
  parse sgf = Normal (Node data children :: others) ->
  exists q,
    sgfToKataGoAnalysisQuery parse parseFloat now sgf opts = Normal q
    /\ moves q
       = map move_of
           (filter
              (fun move =>
                 isNotPassingMove move (board_size (delete data (js "C"))))
              (split (ch ";")
                 (seqFromObject (Node (delete data (js "C")) children))))
    /\ analyzeTurns q
       = match o_analyzeTurns opts with
         | None => keys (length (moves q) + 1)
         | Some turns =>
             if hasPassingMoves
                  (seqFromObject (Node (delete data (js "C")) children))
                  default_sz
             then
               flat_map
                 (engine_turn
                    (makeRealTurnNumbersMap
                       (seqFromObject (Node (delete data (js "C")) children))))
                 turns
             else turns
         end.
Proof.
  intros Hparse.
  destruct (initialStonesFromRoot_returns (delete data (js "C")))
    as (stones & Hstones).
  unfold sgfToKataGoAnalysisQuery, rootAndSeqFromSGF.
  rewrite Hparse. cbn [bind fst snd]. rewrite Hstones. cbn [bind].
  fold (board_size (delete data (js "C"))).
  rewrite seqToKataGoMoves_eq. cbn [bind].
  eexists. split; [reflexivity|]. cbn [moves analyzeTurns].
  split; [reflexivity|].
  destruct (o_analyzeTurns opts) as [turns|]; [|reflexivity].
  destruct (hasPassingMoves _ default_sz); [|reflexivity].
  apply reexpress_engine_turns.
Qed.

Lemma in_keys (n : nat) (z : Z) : In z (keys n) <-> 0 <= z < Z.of_nat n.
Proof.
  unfold keys. rewrite in_map_iff. split.
  - intros (i & <- & Hi). apply in_seq in Hi. lia.
  - intros Hz. exists (Z.to_nat z). split; [lia|]. apply in_seq. lia.
Qed.

(** C7. On a record the tokenizer accepts the query builder returns a
    query. Without [analyzeTurns] from the caller the query asks for every
    turn from 0 to the number of moves. With [analyzeTurns] from the caller
    and a pass in the record, each given real turn becomes its position in
    the turn map, and a turn with no position in the map is dropped, no
    error being raised. *)
Theorem C7_analyze_turns (parse : jsstring -> completion (list node))
  (rest : Type) (parseFloat : jsstring -> number) (now : Z)
  (sgf : jsstring) (opts : options rest)
  (data : props) (children others : list node) :
  parse sgf = Normal (Node data children :: others) ->
  exists q seq,
    sgfToKataGoAnalysisQuery parse parseFloat now sgf opts = Normal q
    /\ rootAndSeqFromSGF parse sgf = Normal (delete data (js "C"), seq)
    /\ (o_analyzeTurns opts = None ->
        analyzeTurns q = keys (length (moves q) + 1)
        /\ forall z, In z (analyzeTurns q)
                     <-> 0 <= z <= Z.of_nat (length (moves q)))
    /\ (forall turns,
          o_analyzeTurns opts = Some turns ->
          hasPassingMoves seq default_sz = true ->
          analyzeTurns q
          = flat_map (engine_turn (makeRealTurnNumbersMap seq)) turns)
    /\ (forall t,
          (forall p, engine_turn (makeRealTurnNumbersMap seq) t = [Z.of_nat p]
                     <-> nth_error (makeRealTurnNumbersMap seq) p = Some t)
          /\ (engine_turn (makeRealTurnNumbersMap seq) t = []
              <-> ~ In t (makeRealTurnNumbersMap seq))).
Proof.
  intros Hparse.
  destruct (query_eq parse rest parseFloat now sgf opts
              data children others Hparse) as (q & Hq & Hmoves & Hturns).
  exists q, (seqFromObject (Node (delete data (js "C")) children)).
  split; [exact Hq|].
  split; [unfold rootAndSeqFromSGF; now rewrite Hparse|].
  split; [|split].
  - intros Hnone. rewrite Hnone in Hturns. split; [exact Hturns|].
    intros z. rewrite Hturns, in_keys. lia.
  - intros turns Hsome Hpass. now rewrite Hsome, Hpass in Hturns.
  - intros t. apply engine_turn_spec.
Qed.

End AnalysisQuery.

(** ** Sequences of move nodes *)

Section MoveSequences.

Lemma node_of_no_separator (mv : move) :
  valid_move mv -> ~ In (ch ";") (node_of mv).
Proof.
  intros (Hc & _ & _ & Hsep). unfold node_of, move_node. simpl.
  intros [H|[H|H]].
  - destruct Hc as [Hc|Hc]; rewrite Hc in H; discriminate.
  - discriminate.
  - apply in_app_or in H as [H|[H|[]]]; [tauto|discriminate].
Qed.

Lemma split_app_moves_text (ms : list move) :
  Forall valid_move ms ->
  forall a, ~ In (ch ";") a ->
    split (ch ";") (a ++ moves_text ms) = a :: map node_of ms.
Proof.
  induction 1 as [|mv ms Hmv _ IH]; intros a Ha.
  - unfold moves_text. simpl. rewrite app_nil_r. now apply split_no_sep.
  - change (moves_text (mv :: ms))
      with (ch ";" :: node_of mv ++ moves_text ms).
    rewrite split_app_sep by exact Ha. f_equal.
    apply IH. now apply node_of_no_separator.
Qed.

Lemma split_moves_text (ms : list move) :
  Forall valid_move ms ->
  split (ch ";") (moves_text ms) = [] :: map node_of ms.
Proof.
  intros H. apply (split_app_moves_text ms H []). intros [].
Qed.

Lemma nodes_of_moves_text (ms : list move) :
  Forall valid_move ms -> nodes_of (moves_text ms) = map node_of ms.
Proof.
  intros H. unfold nodes_of. rewrite split_moves_text by exact H.
  simpl. induction ms as [|mv ms IH]; [reflexivity|].
  simpl. f_equal. apply IH. now inversion H.
Qed.

(** The pass rule on a move node, for each board size. *)
Lemma isNotPassingMove_node (mv : move) (sz : Z) :
  valid_move mv ->
  isNotPassingMove (node_of mv) (Some sz)
  = if sz <? 20 then truthy (snd mv) && negb (str_eqb (snd mv) (js "tt"))
    else truthy (snd mv).
Proof.
  intros (Hc & Hp). unfold isNotPassingMove, node_of.
  rewrite !search_move_node by auto.
  rewrite match_move_node, match_tt_node by auto.
  simpl int_ltb.
  destruct (sz <? 20), (truthy (snd mv)),
    (str_eqb (snd mv) (js "tt")); reflexivity.
Qed.

Lemma filter_length_lt {A} (f g : A -> bool) (l : list A) (x : A) :
  (forall y, In y l -> f y = true -> g y = true) ->
  In x l -> f x = false -> g x = true ->
  (length (filter f l) < length (filter g l))%nat.
Proof.
  intros Hfg Hin Hf Hg.
  assert (Hle : forall l', (forall y, In y l' -> f y = true -> g y = true) ->
                           (length (filter f l') <= length (filter g l'))%nat).
  { induction l' as [|y l' IH]; intros H; [simpl; lia|].
    simpl. pose proof (H y (or_introl eq_refl)) as Hy.
    assert (IH' := IH (fun z Hz => H z (or_intror Hz))).
    destruct (f y); [rewrite Hy by reflexivity; simpl; lia|].
    destruct (g y); simpl; lia. }
  induction l as [|y l IH]; [destruct Hin|].
  simpl. destruct Hin as [->|Hin].
  - rewrite Hf, Hg. simpl.
    pose proof (Hle l (fun z Hz => Hfg z (or_intror Hz))). lia.
  - pose proof (Hfg y (or_introl eq_refl)) as Hy.
    pose proof (IH (fun z Hz => Hfg z (or_intror Hz)) Hin) as IH'.
    destruct (f y); [rewrite Hy by reflexivity; simpl; lia|].
    destruct (g y); simpl; lia.
Qed.

Lemma seqFromObject_main_line :
  forall n : node, seqFromObject n = concat (map mkNode (main_line n)).
Proof.
  fix IH 1. intros [data [|c cs]]; simpl.
  - now rewrite app_nil_r.
  - now rewrite (IH c).
Qed.

End MoveSequences.

(** ** Boards of size 20 and more *)

Section LargeBoards.

Lemma move_of_tt (c : N) :
  is_colour c -> move_of (node_of (c, js "tt")) = (Some c, js "U20").
Proof.
  intros Hc.
  assert (Hp : plain (js "tt")).
  { repeat split; intros [H|[H|[]]]; discriminate. }
  unfold move_of, node_of. cbn [fst snd].
  rewrite search_move_node by auto.
  rewrite match_move_node by auto. reflexivity.
Qed.

Lemma not_pass_node (mv : move) :
  valid_move mv ->
  not_pass (node_of mv)
  = truthy (snd mv) && negb (str_eqb (snd mv) (js "tt")).
Proof. intros H. unfold not_pass, default_sz. now rewrite isNotPassingMove_node. Qed.

Lemma played_node (mv : move) (sz : Z) :
  valid_move mv -> 20 <= sz ->
  isNotPassingMove (node_of mv) (Some sz) = truthy (snd mv).
Proof.
  intros H Hsz. rewrite isNotPassingMove_node by exact H.
  destruct (Z.ltb_spec sz 20); [lia|reflexivity].
Qed.

Lemma empty_piece_is_pass (sz : jsint) : isNotPassingMove [] sz = false.
Proof. unfold isNotPassingMove. destruct (int_ltb sz 20); reflexivity. Qed.

(** C10. On a record of board size 20 or more with a move at [tt], the
    query lists that move among its moves, while the test for passes and the
    turn map, which use the rule of size 19, take it for a pass: the map
    has no entry for its real index and fewer entries than the engine has
    turns, and a caller's request for that turn is dropped. *)
Theorem C10_large_board_numbering
  (parse : jsstring -> completion (list node))
  (rest : Type) (parseFloat : jsstring -> number) (now : Z)
  (sgf : jsstring) (opts : options rest)
  (data : props) (children others : list node)
  (ms : list move) (k : nat) (c : N) (sz : Z) :
  parse sgf = Normal (Node data children :: others) ->
  seqFromObject (Node (delete data (js "C")) children) = moves_text ms ->
  Forall valid_move ms ->
  board_size (delete data (js "C")) = Some sz ->
  20 <= sz ->
  nth_error ms k = Some (c, js "tt") ->
  exists q,
    sgfToKataGoAnalysisQuery parse parseFloat now sgf opts = Normal q
    /\ In (Some c, js "U20") (moves q)
    /\ hasPassingMoves (moves_text ms) default_sz = true
    /\ ~ In (Z.of_nat k + 1) (makeRealTurnNumbersMap (moves_text ms))
    /\ (length (makeRealTurnNumbersMap (moves_text ms))
        < 1 + length (moves q))%nat
    /\ (o_analyzeTurns opts = Some [Z.of_nat k + 1] -> analyzeTurns q = []).
Proof.
  intros Hparse Hseq Hvalid Hsz Hlarge Hk.
  destruct (query_eq parse rest parseFloat now sgf opts
              data children others Hparse) as (q & Hq & Hmoves & Hturns).
  rewrite Hseq in Hmoves, Hturns. rewrite Hsz in Hmoves.
  rewrite split_moves_text in Hmoves by exact Hvalid.
  cbn [filter] in Hmoves. rewrite empty_piece_is_pass in Hmoves.
  assert (Hin : In (c, js "tt") ms) by (eapply nth_error_In; eauto).
  assert (Hv : valid_move (c, js "tt")).
  { rewrite Forall_forall in Hvalid. now apply Hvalid. }
  assert (Hnode : In (node_of (c, js "tt")) (map node_of ms)).
  { now apply in_map. }
  assert (Hpass : not_pass (node_of (c, js "tt")) = false).
  { now rewrite not_pass_node. }
  assert (Hplayed : isNotPassingMove (node_of (c, js "tt")) (Some sz) = true).
  { now rewrite played_node. }
  assert (Hhas : hasPassingMoves (moves_text ms) default_sz = true).
  { unfold hasPassingMoves. fold (nodes_of (moves_text ms)).
    rewrite nodes_of_moves_text by exact Hvalid.
    apply existsb_exists. exists (node_of (c, js "tt")).
    split; [exact Hnode|]. fold (not_pass (node_of (c, js "tt"))).
    now rewrite Hpass. }
  assert (Hout : ~ In (Z.of_nat k + 1)
                     (makeRealTurnNumbersMap (moves_text ms))).
  { rewrite makeRealTurnNumbersMap_eq. intros [H|H]; [lia|].
    apply In_nth_error in H as (p & Hp).
    apply real_indices_nth in Hp as (j & m & Hj & Hm & Hnp & _).
    assert (j = k) by lia. subst j.
    rewrite nodes_of_moves_text in Hm by exact Hvalid.
    rewrite (map_nth_error node_of k ms Hk) in Hm.
    injection Hm as <-. congruence. }
  exists q. split; [exact Hq|].
  split.
  { rewrite Hmoves. apply in_map_iff. exists (node_of (c, js "tt")).
    split; [apply move_of_tt, Hv|]. apply filter_In. now split. }
  split; [exact Hhas|].
  split; [exact Hout|].
  split.
  { rewrite makeRealTurnNumbersMap_eq, Hmoves. simpl length.
    rewrite real_indices_length, length_map.
    rewrite nodes_of_moves_text by exact Hvalid.
    apply -> Nat.succ_lt_mono.
    apply (filter_length_lt _ _ _ (node_of (c, js "tt"))); auto.
    intros y Hy Hnp. apply in_map_iff in Hy as (mv & <- & Hmv).
    rewrite Forall_forall in Hvalid. specialize (Hvalid mv Hmv).
    rewrite not_pass_node in Hnp by exact Hvalid.
    rewrite played_node by auto.
    now apply andb_true_iff in Hnp as [Hnp _]. }
  intros Hopts. rewrite Hopts, Hhas in Hturns. rewrite Hturns.
  simpl. rewrite app_nil_r.
  now apply (proj2 (engine_turn_spec (moves_text ms) (Z.of_nat k + 1))).
Qed.

End LargeBoards.

(** ** Sample records *)

Section Samples.

Lemma no_unit_check (c : N) (s : jsstring) :
  existsb (N.eqb c) s = false -> ~ In c s.
Proof.
  intros H Hin. assert (existsb (N.eqb c) s = true); [|congruence].
  apply existsb_exists. exists c. split; [exact Hin|apply N.eqb_refl].
Qed.

Lemma plain_check (s : jsstring) :
  existsb (N.eqb (ch "[")) s = false ->
  existsb (N.eqb (ch "]")) s = false ->
  existsb (N.eqb (ch ";")) s = false ->
  plain s.
Proof. intros A B C. repeat split; now apply no_unit_check. Qed.

Lemma C7_analyze_turns_witness :
  exists q,
    sgfToKataGoAnalysisQuery (fun _ => Normal record19) (fun _ => NaN) 0
      (js "(;SZ[19]C[a game];W[aa];B[];W[bb])") (turns_given [0; 1; 2; 3])
    = Normal q
    /\ analyzeTurns q = [0; 1; 2].
Proof.
  destruct (C7_analyze_turns (fun _ => Normal record19) unit
              (fun _ => NaN) 0 (js "(;SZ[19]C[a game];W[aa];B[];W[bb])")
              (turns_given [0; 1; 2; 3])
              [(js "SZ", [js "19"]); (js "C", [js "a game"])]
              (chain [("W", "aa"); ("B", ""); ("W", "bb")]) [] eq_refl)
    as (q & seq & Hq & Hseq & _ & Hturns & _).
  exists q. split; [exact Hq|].
  injection Hseq as <-.
  exact (Hturns [0; 1; 2; 3] eq_refl eq_refl).
Defined.

Lemma C10_large_board_numbering_witness :
  exists q,
    sgfToKataGoAnalysisQuery (fun _ => Normal record25) (fun _ => NaN) 0
      (js "(;SZ[25];B[aa];W[tt];B[bb])") (turns_given [2])
    = Normal q
    /\ In (Some (ch "W"), js "U20") (moves q)
    /\ length (moves q) = 3%nat
    /\ analyzeTurns q = [].
Proof.
  destruct (C10_large_board_numbering (fun _ => Normal record25) unit
              (fun _ => NaN) 0 (js "(;SZ[25];B[aa];W[tt];B[bb])")
              (turns_given [2]) [(js "SZ", [js "25"])]
              (chain [("B", "aa"); ("W", "tt"); ("B", "bb")]) []
              [(ch "B", js "aa"); (ch "W", js "tt"); (ch "B", js "bb")]
              1 (ch "W") 25 eq_refl eq_refl)
    as (q & Hq & Hin & _ & _ & _ & Hturns).
  - repeat constructor; try (now left); try (now right);
      apply plain_check; reflexivity.
  - reflexivity.
  - lia.
  - reflexivity.
  - exists q. split; [exact Hq|]. split; [exact Hin|].
    split; [|exact (Hturns eq_refl)].
    vm_compute in Hq. injection Hq as <-. reflexivity.
Defined.

End Samples.

(** ** The response stream *)

Section Responses.

Lemma no_newline_check (recs : list jsstring) :
  forallb (fun l => negb (existsb (N.eqb (ch "010")) l)) recs = true ->
  Forall (fun l => ~ In (ch "010") l) recs.
Proof.
  intros H. apply Forall_forall. intros l Hl.
  rewrite forallb_forall in H. specialize (H l Hl).
  apply no_unit_check. now apply negb_true_iff.
Qed.

Lemma dot_check (l : jsstring) :
  forallb dot l = true -> Forall (fun c => dot c = true) l.
Proof.
  intros H. apply Forall_forall. now apply forallb_forall.
Qed.

Lemma well_formed_response_record (winrate : String.string) (t : Z) :
  forallb dot (js winrate) = true -> 0 <= t < 2 ^ 53 ->
  well_formed_response (response_record winrate t).
Proof.
  intros Hw Ht. unfold well_formed_response, response_record.
  cbn [r_before r_turn r_after].
  split; [|split; [exact Ht|split; [reflexivity|split]]].
  - rewrite !Forall_app.
    repeat split; apply dot_check; solve [exact Hw | reflexivity].
  - apply no_unit_check. reflexivity.
  - apply no_unit_check. reflexivity.
Qed.

Lemma C5_merge_witness :
  mergeKataGoResponses four_turns
    (terminated (ch "010")
       [response_line "0.56" "1"; response_line "0.41" "2"])
    [1; 2]
  = terminated (ch "010")
      [response_line "0.50" "0"; response_line "0.60" "3";
       response_line "0.56" "1"; response_line "0.41" "2"].
Proof.
  apply (proj1
           (C5_merge
              [response_record "0.50" 0; response_record "0.55" 1;
               response_record "0.40" 2; response_record "0.60" 3]
              (terminated (ch "010")
                 [response_line "0.56" "1"; response_line "0.41" "2"])
              [1; 2]
              ltac:(repeat constructor;
                    apply well_formed_response_record;
                    solve [reflexivity | lia])
              ltac:(repeat constructor; simpl; lia))).
Defined.

(** C4, as the claim states it, fails: the rise from 0.40 to 0.60 between
    turns 2 and 3 is a change of 0.20 and flags turn 2 as well. *)
Lemma C4_counterexample :
  winrateDropTurnsFromKataGoResponses four_turns one_tenth
  = Normal [num_of_Z 1; num_of_Z 2]
  /\ winrateDropTurnsFromKataGoResponses four_turns one_tenth
     <> Normal [num_of_Z 1].
Proof.
  assert (E : winrateDropTurnsFromKataGoResponses four_turns one_tenth
              = Normal [num_of_Z 1; num_of_Z 2]) by (vm_compute; reflexivity).
  split; [exact E|]. rewrite E. discriminate.
Qed.

(** C4, amended. On the records of turns 0 to 3 with root win rates 0.50,
    0.55, 0.40 and 0.60, in this order or reversed, and the threshold 0.10
    the turns to revisit are 1 and 2. *)
Theorem C4_drop_turns :
  winrateDropTurnsFromKataGoResponses four_turns one_tenth
  = Normal [num_of_Z 1; num_of_Z 2]
  /\ winrateDropTurnsFromKataGoResponses
       (terminated (ch "010")
          [response_line "0.60" "3"; response_line "0.40" "2";
           response_line "0.55" "1"; response_line "0.50" "0"])
       one_tenth
     = Normal [num_of_Z 1; num_of_Z 2].
Proof. split; vm_compute; reflexivity. Qed.

End Responses.

(** ** Classification *)

Section Classification.

Ltac order_cases :=
  repeat match goal with
         | H : context [(?a ?= ?b)%Z] |- _ => destruct (Z.compare_spec a b)
         | |- context [(?a ?= ?b)%Z] => destruct (Z.compare_spec a b)
         | H : context [Pos.compare_cont Eq ?a ?b] |- _ =>
             change (Pos.compare_cont Eq a b) with (Pos.compare a b) in *;
             destruct (Pos.compare_spec a b)
         | |- context [Pos.compare_cont Eq ?a ?b] =>
             change (Pos.compare_cont Eq a b) with (Pos.compare a b) in *;
             destruct (Pos.compare_spec a b)
         end.

(** The order of the numbers is transitive, strictly so where one of the
    steps is strict. *)
Lemma SFcompare_trans (x y z : spec_float) (c1 c2 : comparison) :
  SFcompare x y = Some c1 -> SFcompare y z = Some c2 ->
  c1 <> Gt -> c2 <> Gt ->
  exists c,
    SFcompare x z = Some c /\ c <> Gt /\ (c1 = Lt \/ c2 = Lt -> c = Lt).
Proof.
  destruct x as [sx|sx| |sx mx ex], y as [sy|sy| |sy my ey],
    z as [sz|sz| |sz mz ez]; simpl; try discriminate;
    try destruct sx; try destruct sy; try destruct sz; simpl;
    intros H1 H2 N1 N2; try discriminate;
    injection H1 as <-; injection H2 as <-;
    try (exfalso; congruence);
    try (eexists; split; [reflexivity|split; [try discriminate; eauto|try tauto]]).
  all: try (intros [?|?]; try reflexivity; discriminate).
  all: order_cases; simpl in *; try congruence; try lia;
       try (intros [?|?]; try reflexivity; try discriminate; try lia).
Qed.

Lemma num_lt_compare (x y : number) :
  num_lt x y = true <-> SFcompare x y = Some Lt.
Proof.
  unfold num_lt, SFltb. destruct (SFcompare x y) as [[]|]; split;
    congruence.
Qed.

Lemma num_ge_compare (x y : number) :
  num_ge x y = true <-> exists c, SFcompare y x = Some c /\ c <> Gt.
Proof.
  unfold num_ge, SFleb. destruct (SFcompare y x) as [[]|]; split;
    try congruence; try (intros _; eexists; split; [reflexivity|discriminate]);
    intros (c & H & Hc); congruence.
Qed.

Lemma num_lt_trans (x y z : number) :
  num_lt x y = true -> num_lt y z = true -> num_lt x z = true.
Proof.
  rewrite !num_lt_compare. intros H1 H2.
  destruct (SFcompare_trans x y z Lt Lt H1 H2) as (c & Hc & _ & Hlt);
    try discriminate.
  rewrite Hc, Hlt; auto.
Qed.

Lemma num_ge_trans (x y z : number) :
  num_ge x y = true -> num_ge y z = true -> num_ge x z = true.
Proof.
  rewrite !num_ge_compare. intros (c1 & H1 & N1) (c2 & H2 & N2).
  destruct (SFcompare_trans z y x c2 c1 H2 H1 N2 N1) as (c & Hc & Hn & _).
  eauto.
Qed.

Lemma in_bucket (p : jsstring) (test : drop -> bool) (drops : list drop)
  (n : drop) :
  In n (filter (fun n => str_eqb (pl n) p && test n) drops)
  <-> In n drops /\ pl n = p /\ test n = true.
Proof.
  rewrite filter_In, andb_true_iff, str_eqb_eq. tauto.
Qed.

(** C8. With [goodCeiling < badFloor <= hotSpotFloor], a move of the
    player is good iff its drop is below the good ceiling, acceptable iff
    below the bad floor, bad iff at the bad floor or above, a hot spot iff
    at the hot-spot floor or above; the good moves are among the acceptable
    ones and the hot spots among the bad ones. *)
Theorem C8_classification (p : jsstring) (drops : list drop) (st : stat) :
  num_lt (goodmovewinrate st) (badmovewinrate st) = true ->
  num_ge (badhotspotwinrate st) (badmovewinrate st) = true ->
  (forall n, In n (good (makeGoodBads p drops st))
             <-> In n drops /\ pl n = p
                 /\ num_lt (winrateDrop n) (goodmovewinrate st) = true)
  /\ (forall n, In n (acceptable (makeGoodBads p drops st))
                <-> In n drops /\ pl n = p
                    /\ num_lt (winrateDrop n) (badmovewinrate st) = true)
  /\ (forall n, In n (bad (makeGoodBads p drops st))
                <-> In n drops /\ pl n = p
                    /\ num_ge (winrateDrop n) (badmovewinrate st) = true)
  /\ (forall n, In n (hotSpot (makeGoodBads p drops st))
                <-> In n drops /\ pl n = p
                    /\ num_ge (winrateDrop n) (badhotspotwinrate st) = true)
  /\ incl (good (makeGoodBads p drops st))
       (acceptable (makeGoodBads p drops st))
  /\ incl (hotSpot (makeGoodBads p drops st)) (bad (makeGoodBads p drops st)).
Proof.
  intros Hgb Hbh. unfold good, acceptable, bad, hotSpot, makeGoodBads.
  cbn [nth].
  split; [intros n; apply (in_bucket p (fun n => num_lt (winrateDrop n) _))|].
  split; [intros n; apply (in_bucket p (fun n => num_lt (winrateDrop n) _))|].
  split; [intros n; apply (in_bucket p (fun n => num_ge (winrateDrop n) _))|].
  split; [intros n; apply (in_bucket p (fun n => num_ge (winrateDrop n) _))|].
  split; intros n Hn.
  - apply (in_bucket p (fun n => num_lt (winrateDrop n) _)) in Hn
      as (Hin & Hp & Hd).
    apply (in_bucket p (fun n => num_lt (winrateDrop n) _)).
    repeat split; auto. eapply num_lt_trans; eauto.
  - apply (in_bucket p (fun n => num_ge (winrateDrop n) _)) in Hn
      as (Hin & Hp & Hd).
    apply (in_bucket p (fun n => num_ge (winrateDrop n) _)).
    repeat split; auto. eapply num_ge_trans; eauto.
Qed.

Lemma C8_classification_witness :
  let gb := makeGoodBads (js "B") [small_drop; large_drop] thresholds in
  In small_drop (good gb) /\ In small_drop (acceptable gb)
  /\ ~ In small_drop (bad gb)
  /\ In large_drop (bad gb) /\ In large_drop (hotSpot gb).
Proof.
  destruct (C8_classification (js "B") [small_drop; large_drop] thresholds
              eq_refl eq_refl) as (Hgood & Hacc & Hbad & Hhot & _ & _).
  cbv zeta.
  split; [apply Hgood; repeat split; simpl; auto|].
  split; [apply Hacc; repeat split; simpl; auto|].
  split; [intros H; apply Hbad in H as (_ & _ & H); discriminate|].
  split; [apply Hbad; repeat split; simpl; auto|].
  apply Hhot; repeat split; simpl; auto.
Defined.

End Classification.

(** * Further properties of the code *)

(** ** Coordinates *)

Section MoreCoordinates.

(** X1. Two points of a board of size at most 25 with the same COMPACT name
    are the same point. *)
Theorem iaToJ1_injective (sz : Z) (x y : jsstring) :
  sz <= 25 -> on_board sz x -> on_board sz y ->
  iaToJ1 x = iaToJ1 y -> x = y.
Proof.
  intros Hsz (cx & rx & -> & Hcx & Hrx) (cy & ry & -> & Hcy & Hry) E.
  assert (Hx := roundtrip_letters cx rx ltac:(lia) ltac:(lia)).
  assert (Hy := roundtrip_letters cy ry ltac:(lia) ltac:(lia)).
  rewrite E in Hx. rewrite Hx in Hy. injection Hy as -> ->. reflexivity.
Qed.

Lemma iaToJ1_injective_witness :
  on_board 19 (js "ia") /\ on_board 19 (js "ja")
  /\ (iaToJ1 (js "ia") = iaToJ1 (js "ja") -> js "ia" = js "ja").
Proof.
  assert (A : on_board 19 (js "ia")).
  { exists 105%N, 97%N. repeat split; simpl; lia. }
  assert (B : on_board 19 (js "ja")).
  { exists 106%N, 97%N. repeat split; simpl; lia. }
  split; [exact A|]. split; [exact B|].
  apply (iaToJ1_injective 19); [lia|exact A|exact B].
Defined.

Lemma display_table :
  forallb (fun col => forallb (display_ok col) (units 97 19)) (units 97 19)
  = true.
Proof. vm_compute. reflexivity. Qed.

(** X2. On a 19 by 19 board the DISPLAY name of a point is the COMPACT name of
    its mirror point (row 20 - r for row r), so [iaFromJ1] takes a DISPLAY
    name back to the mirror point, and mirroring twice gives the point. *)
Theorem iaToJ19_mirror (x : jsstring) :
  on_board 19 x ->
  iaToJ19 x = iaToJ1 (mirror19 x)
  /\ bind (iaToJ19 x) iaFromJ1 = Normal (mirror19 x)
  /\ on_board 19 (mirror19 x)
  /\ mirror19 (mirror19 x) = x.
Proof.
  intros (col & row & -> & Hc & Hr).
  assert (E : iaToJ19 [col; row] = iaToJ1 (mirror19 [col; row])).
  { pose proof display_table as T.
    rewrite forallb_forall in T.
    specialize (T col (in_units 97 19 col ltac:(lia))).
    rewrite forallb_forall in T.
    specialize (T row (in_units 97 19 row ltac:(lia))).
    unfold display_ok in T. cbn [mirror19].
    destruct (iaToJ19 [col; row]) as [a|]; [|discriminate].
    destruct (iaToJ1 [col; (212 - row)%N]) as [b|]; [|discriminate].
    apply str_eqb_eq in T. now subst. }
  split; [exact E|]. split; [|split].
  - rewrite E. cbn [mirror19]. apply roundtrip_letters; lia.
  - exists col, (212 - row)%N. repeat split; lia.
  - cbn [mirror19]. do 2 f_equal. lia.
Qed.

Lemma iaToJ19_mirror_witness :
  on_board 19 (js "bd")
  /\ iaToJ19 (js "bd") = iaToJ1 (js "bp")
  /\ bind (iaToJ19 (js "bd")) iaFromJ1 = Normal (js "bp").
Proof.
  assert (A : on_board 19 (js "bd")).
  { exists 98%N, 100%N. repeat split; simpl; lia. }
  destruct (iaToJ19_mirror (js "bd") A) as (E & R & _ & _).
  split; [exact A|]. split; [exact E|exact R].
Defined.

(** X3. The COMPACT and DISPLAY names never have the letter I as their column:
    the first unit of what [iaToJ1] and [iaToJ19] return is not I. *)
Theorem compact_column_skips_I (v s : jsstring) :
  utf16 v ->
  iaToJ1 v = Normal s \/ iaToJ19 v = Normal s ->
  nth_error s 0 <> Some (ch "I").
Proof.
  intros Hv H.
  assert (Hcol : forall c row,
            In c (toUpperCase v) ->
            nth_error
              (if unit_ge (Some c) 73 then nextChar c ++ row
               else unit_concat (Some c) row) 0 <> Some (ch "I")).
  { intros c row Hin.
    assert (Hc : (c < 65536)%N).
    { unfold toUpperCase in Hin. apply in_map_iff in Hin as (c' & <- & Hin).
      unfold utf16 in Hv. rewrite Forall_forall in Hv.
      specialize (Hv c' Hin). unfold upper1.
      destruct ((97 <=? c') && (c' <=? 122))%N; lia. }
    unfold unit_ge. destruct (N.leb_spec 73 c) as [Hge|Hlt].
    - unfold nextChar, fromCharCode, int_add. simpl.
      intros [= E]. change (ch "I") with 73%N in E.
      destruct (Z.eq_dec (Z.of_N c + 1) 65536) as [Hw|Hw].
      + rewrite Hw in E. discriminate.
      + rewrite Z.mod_small in E by lia. lia.
    - simpl. intros [= E]. change (ch "I") with 73%N in E. lia. }
  unfold iaToJ1, iaToJ19 in H.
  destruct (nth_error (toUpperCase v) 0) as [c|] eqn:E0.
  - apply nth_error_In in E0.
    destruct H as [H|H];
      [specialize (Hcol c (number_toString
                             (int_add (charCodeAt (toUpperCase v) 1) (-64))) E0)
      |specialize (Hcol c (number_toString
                             (int_rsub 84 (charCodeAt (toUpperCase v) 1))) E0)];
      destruct (unit_ge (Some c) 73); injection H as <-; exact Hcol.
  - destruct H as [H|H]; injection H as <-; discriminate.
Qed.

Lemma compact_column_skips_I_witness :
  utf16 (js "ia") /\ nth_error (js "J1") 0 <> Some (ch "I").
Proof.
  assert (A : utf16 (js "ia")) by (repeat constructor).
  split; [exact A|].
  apply (compact_column_skips_I (js "ia") (js "J1") A). now left.
Defined.

End MoreCoordinates.

(** ** Property injection *)

Section MoreInjection.

(** What [search] returns: -1 where no position matches, else the first
    position that does. *)
Lemma search_from_cases (re : regex) :
  forall (s : jsstring) (prev : option N) (i : Z),
    (search_from re prev s i = -1
     /\ forall j, (j <= length s)%nat ->
          match_here re (prev_at prev s j) (skipn j s) = None)
    \/ (exists n,
          (n <= length s)%nat
          /\ search_from re prev s i = i + Z.of_nat n
          /\ match_here re (prev_at prev s n) (skipn n s) <> None
          /\ forall j, (j < n)%nat ->
               match_here re (prev_at prev s j) (skipn j s) = None).
Proof.
  induction s as [|c s IH]; intros prev i.
  - simpl. destruct (match_here re prev []) eqn:E.
    + right. exists 0%nat. simpl. rewrite E.
      repeat split; [lia|lia|discriminate|intros j Hj; lia].
    + left. split; [reflexivity|]. intros j Hj.
      assert (j = 0)%nat by (simpl in Hj; lia). subst j. exact E.
  - rewrite search_from_cons.
    destruct (match_here re prev (c :: s)) eqn:E.
    + right. exists 0%nat. simpl. rewrite E.
      repeat split; [lia|lia|discriminate|intros j Hj; lia].
    + destruct (IH (Some c) (i + 1)) as [(Hs & Hno)|(n & Hn & Hs & Hat & Hno)].
      * left. split; [exact Hs|]. intros [|j] Hj; [exact E|].
        rewrite prev_at_cons. apply Hno. simpl in Hj. lia.
      * right. exists (S n). split; [simpl; lia|]. split; [lia|].
        split; [rewrite prev_at_cons; exact Hat|].
        intros [|j] Hj; [exact E|]. rewrite prev_at_cons. apply Hno. lia.
Qed.

(** The two results of [addProperty]. *)
Lemma addProperty_cases (seq mark : jsstring) (index : Z) :
  (addProperty seq mark index = []
   /\ forall q, (scan_start index < q)%nat -> ~ closes_unescaped seq q)
  \/ (exists q,
        (scan_start index < q)%nat
        /\ closes_unescaped seq q
        /\ (forall q', (scan_start index < q' < q)%nat ->
              ~ closes_unescaped seq q')
        /\ addProperty seq mark index = inserted_after q mark seq).
Proof.
  destruct (search_from_cases re_close (skipn (scan_start index) seq) None 0)
    as [(_ & Hno)|(n & Hn & _ & Hat & Hno)].
  - left.
    assert (Hq : forall q, (scan_start index < q)%nat ->
                           ~ closes_unescaped seq q).
    { intros q Hq (p & c & -> & Hp & Hc & Hclose).
      assert (Hlen : (S p < length seq)%nat)
        by (apply nth_error_Some; congruence).
      specialize (Hno (p - scan_start index)%nat
                    ltac:(rewrite length_skipn; lia)).
      assert (M : match_here re_close
                    (prev_at None (skipn (scan_start index) seq)
                       (p - scan_start index))
                    (skipn (p - scan_start index)
                       (skipn (scan_start index) seq)) <> None).
      { apply match_close. exists c. rewrite !nth_error_skipn.
        repeat split; auto.
        - rewrite <- Hp. f_equal. lia.
        - rewrite <- Hclose. f_equal. lia. }
      congruence. }
    split; [now apply addProperty_no_bracket|exact Hq].
  - right. exists (S (scan_start index + n)).
    apply (proj1 (match_close _ _)) in Hat as (a & Ha & Hna & Hb).
    rewrite !nth_error_skipn in Ha, Hb.
    assert (Hc : closes_unescaped seq (S (scan_start index + n))).
    { exists (scan_start index + n)%nat, a. repeat split; auto.
      - rewrite <- Ha. f_equal. lia.
      - rewrite <- Hb. f_equal. lia. }
    assert (Hmin : forall q',
              (scan_start index < q' < S (scan_start index + n))%nat ->
              ~ closes_unescaped seq q').
    { intros q' Hq' (p & c & -> & Hp & Hpc & Hclose).
      specialize (Hno (p - scan_start index)%nat ltac:(lia)).
      assert (M : match_here re_close
                    (prev_at None (skipn (scan_start index) seq)
                       (p - scan_start index))
                    (skipn (p - scan_start index)
                       (skipn (scan_start index) seq)) <> None).
      { apply match_close. exists c. rewrite !nth_error_skipn.
        repeat split; auto.
        - rewrite <- Hp. f_equal. lia.
        - rewrite <- Hclose. f_equal. lia. }
      congruence. }
    split; [lia|]. split; [exact Hc|]. split; [exact Hmin|].
    apply addProperty_inserted; [lia|exact Hc|exact Hmin].
Qed.

(** X4. [addProperty] loses and changes no unit of the text: its result is
    empty, or the text with the mark put right after one of its closing
    brackets, past the start of the scan. *)
Theorem addProperty_keeps_text (seq mark : jsstring) (index : Z) :
  addProperty seq mark index = []
  \/ exists q,
       (scan_start index < q < length seq)%nat
       /\ nth_error seq q = Some (ch "]")
       /\ addProperty seq mark index
          = firstn (S q) seq ++ mark ++ skipn (S q) seq
       /\ length (addProperty seq mark index)
          = (length seq + length mark)%nat.
Proof.
  destruct (addProperty_cases seq mark index)
    as [(H & _)|(q & Hq & Hc & _ & H)]; [now left|right].
  exists q. destruct Hc as (p & c & -> & Hp & Hpc & Hclose).
  assert (Hlen : (S p < length seq)%nat)
    by (apply nth_error_Some; congruence).
  split; [lia|]. split; [exact Hclose|]. split; [exact H|].
  rewrite H. unfold inserted_after.
  rewrite !length_app, length_firstn, length_skipn. lia.
Qed.

(** X5. [addProperty] returns the empty string exactly when the text has no
    closing bracket past the start of the scan whose preceding unit is not
    a backslash. *)
Theorem addProperty_empty_iff (seq mark : jsstring) (index : Z) :
  addProperty seq mark index = []
  <-> forall q, (scan_start index < q)%nat -> ~ closes_unescaped seq q.
Proof.
  split.
  - intros He.
    destruct (addProperty_cases seq mark index)
      as [(_ & H)|(q & Hq & Hc & _ & H)]; [exact H|].
    exfalso. rewrite He in H. unfold inserted_after in H.
    destruct Hc as (p & c & -> & Hp & _).
    destruct seq; [destruct p; discriminate|discriminate].
  - apply addProperty_no_bracket.
Qed.

Lemma nth_error_inserted (q : nat) (mark s : jsstring) (p : nat) :
  (p <= q)%nat -> (q < length s)%nat ->
  nth_error (inserted_after q mark s) p = nth_error s p.
Proof.
  intros Hp Hq. unfold inserted_after.
  rewrite nth_error_app1 by (rewrite length_firstn; lia).
  rewrite nth_error_firstn.
  destruct (Nat.ltb_spec p (S q)); [reflexivity|lia].
Qed.

(** X6. Two properties put at the same index end up side by side, the later one
    first: putting [m1] and then [m2] is putting [m2 ++ m1]. So the hot-spot
    mark is the bad-move mark put before [HO[1]]. *)
Theorem addProperty_twice (seq m1 m2 : jsstring) (index : Z) :
  addProperty (addProperty seq m1 index) m2 index
  = addProperty seq (m2 ++ m1) index
  /\ toBadHotSpot seq index
     = toBadNode (addProperty seq (js "HO[1]") index) index.
Proof.
  assert (G : forall a b,
            addProperty (addProperty seq a index) b index
            = addProperty seq (b ++ a) index).
  { intros a b.
    destruct (addProperty_cases seq a index)
      as [(H & Hno)|(q & Hq & Hc & Hmin & H)].
    - rewrite H. rewrite (addProperty_no_bracket seq (b ++ a) index Hno).
      apply addProperty_no_bracket.
      intros q _ (p & c & _ & Hp & _). destruct p; discriminate.
    - rewrite H, (addProperty_inserted seq (b ++ a) index q Hq Hc Hmin).
      assert (Hlen : (q < length seq)%nat).
      { destruct Hc as (p & c & -> & _ & _ & Hclose).
        apply nth_error_Some. congruence. }
      assert (Hsame : forall q', (q' <= q)%nat ->
                closes_unescaped (inserted_after q a seq) q'
                <-> closes_unescaped seq q').
      { intros q' Hq'. unfold closes_unescaped.
        split; intros (p & c & -> & Hp & Hpc & Hclose); exists p, c;
          rewrite ?nth_error_inserted in * by lia;
          repeat split; auto;
          rewrite ?nth_error_inserted by lia; auto. }
      rewrite (addProperty_inserted (inserted_after q a seq) b index q Hq).
      + unfold inserted_after.
        rewrite firstn_app, firstn_firstn, length_firstn.
        replace (S q - Nat.min (S q) (length seq))%nat with 0%nat by lia.
        rewrite Nat.min_id. simpl firstn at 2. rewrite app_nil_r.
        rewrite skipn_app, length_firstn.
        replace (S q - Nat.min (S q) (length seq))%nat with 0%nat by lia.
        rewrite (skipn_all2 (firstn (S q) seq))
          by (rewrite length_firstn; lia).
        simpl skipn. rewrite <- !app_assoc. reflexivity.
      + apply Hsame; [lia|exact Hc].
      + intros q' Hq' Hc'. apply (Hmin q' Hq'). apply Hsame; [lia|exact Hc']. }
  split; [apply G|].
  unfold toBadHotSpot, toBadNode. rewrite G. reflexivity.
Qed.

Lemma escape_head (s : jsstring) :
  nth_error (escape_brackets s) 0 <> Some (ch "]").
Proof.
  destruct s as [|c s]; [discriminate|].
  change (escape_brackets (c :: s))
    with ((if (c =? ch "]")%N then js "\]" else [c]) ++ escape_brackets s).
  destruct (N.eqb_spec c (ch "]")) as [->|Hne]; simpl;
    [discriminate|intros [= E]; apply Hne; exact E].
Qed.

Lemma escape_preceded (s : jsstring) :
  forall p, nth_error (escape_brackets s) (S p) = Some (ch "]") ->
            nth_error (escape_brackets s) p = Some (ch "\").
Proof.
  induction s as [|c s IH]; intros p Hp; [destruct p; discriminate|].
  change (escape_brackets (c :: s))
    with ((if (c =? ch "]")%N then js "\]" else [c]) ++ escape_brackets s)
    in *.
  destruct (c =? ch "]")%N.
  - destruct p as [|[|p]]; simpl in *.
    + reflexivity.
    + exfalso. now apply (escape_head s).
    + now apply IH.
  - destruct p as [|p]; simpl in *.
    + exfalso. now apply (escape_head s).
    + now apply IH.
Qed.

(** X7. In the text that [addComment] writes for a comment every closing
    bracket comes right after a backslash, so none of them ends a property
    for the scan of [addProperty]. *)
Theorem comment_brackets_escaped (comment : jsstring) (q : nat) :
  (nth_error (replace_all comment re_bracket (js "\]")) (S q)
   = Some (ch "]") ->
   nth_error (replace_all comment re_bracket (js "\]")) q = Some (ch "\"))
  /\ nth_error (replace_all comment re_bracket (js "\]")) 0 <> Some (ch "]")
  /\ ~ closes_unescaped (replace_all comment re_bracket (js "\]")) q.
Proof.
  assert (E : replace_all comment re_bracket (js "\]")
              = escape_brackets comment).
  { unfold replace_all, escape_brackets.
    now rewrite replace_all_from_bracket by lia. }
  rewrite E. split; [apply escape_preceded|]. split; [apply escape_head|].
  intros (p & c & -> & Hp & Hc & Hclose).
  apply escape_preceded in Hclose. congruence.
Qed.

End MoreInjection.

(** ** Sequences and turn numbers *)

Section MoreSequences.

Lemma real_indices_all (nodes : list jsstring) :
  forall i, forallb not_pass nodes = true ->
    real_indices i nodes
    = map (fun j => i + Z.of_nat j + 1) (seq 0 (length nodes)).
Proof.
  induction nodes as [|m r IH]; intros i H; [reflexivity|].
  simpl in H. apply andb_true_iff in H as [Hm Hr].
  simpl. rewrite Hm. f_equal; [lia|].
  rewrite (IH (i + 1) Hr), <- seq_shift, map_map.
  apply map_ext. intros j. lia.
Qed.

Lemma filter_all_length {A} (f : A -> bool) (l : list A) :
  length (filter f l) = length l -> forallb f l = true.
Proof.
  induction l as [|x l IH]; [reflexivity|]. simpl.
  pose proof (filter_length_le f l) as Hle.
  destruct (f x); simpl; intros H; [apply IH; lia|lia].
Qed.

(** X8. A sequence has no pass, by the rule of size 19, exactly when its turn
    map is 0, 1, ..., n for its n nodes: the engine's turn numbers are then
    the real ones. *)
Theorem no_pass_identity_map (seq : jsstring) :
  hasPassingMoves seq default_sz = false
  <-> makeRealTurnNumbersMap seq = keys (1 + length (nodes_of seq)).
Proof.
  rewrite makeRealTurnNumbersMap_eq.
  unfold hasPassingMoves. fold (nodes_of seq). fold not_pass.
  assert (E : existsb (fun node => negb (not_pass node)) (nodes_of seq)
              = negb (forallb not_pass (nodes_of seq))).
  { induction (nodes_of seq) as [|m r IH]; [reflexivity|].
    simpl. rewrite IH. now destruct (not_pass m). }
  change (existsb (fun node => negb (isNotPassingMove node default_sz))
            (nodes_of seq))
    with (existsb (fun node => negb (not_pass node)) (nodes_of seq)).
  rewrite E, negb_false_iff. unfold keys.
  change (1 + length (nodes_of seq))%nat with (S (length (nodes_of seq))).
  cbn [List.seq map].
  split.
  - intros H. f_equal. rewrite (real_indices_all _ 0 H).
    rewrite <- seq_shift, map_map. apply map_ext. intros j. lia.
  - intros H. apply filter_all_length.
    injection H as H. apply (f_equal (@length Z)) in H.
    rewrite real_indices_length, length_map, length_seq in H. exact H.
Qed.

Lemma small_board_rule (m : jsstring) (sz : Z) :
  sz < 20 -> isNotPassingMove m (Some sz) = not_pass m.
Proof.
  intros H. unfold not_pass, default_sz, isNotPassingMove. simpl.
  destruct (Z.ltb_spec sz 20); [reflexivity|lia].
Qed.

Lemma filter_nodes (f : jsstring -> bool) (l : list jsstring) :
  f [] = false -> filter f l = filter f (filter truthy l).
Proof.
  intros H. induction l as [|x l IH]; [reflexivity|].
  simpl. destruct x as [|c x]; simpl.
  - now rewrite H.
  - now rewrite IH.
Qed.

(** X9. On a board of size below 20, or with no size in the root, the turn map
    has exactly one entry per engine turn: every turn from 0 to the number
    of moves of the query has a real turn number. *)
Theorem small_board_numbering
  (parse : jsstring -> completion (list node))
  (rest : Type) (parseFloat : jsstring -> number) (now : Z)
  (sgf : jsstring) (opts : options rest)
  (data : props) (children others : list node) (sz : Z) :
  parse sgf = Normal (Node data children :: others) ->
  board_size (delete data (js "C")) = Some sz ->
  sz < 20 ->
  exists q seq,
    sgfToKataGoAnalysisQuery parse parseFloat now sgf opts = Normal q
    /\ rootAndSeqFromSGF parse sgf = Normal (delete data (js "C"), seq)
    /\ length (makeRealTurnNumbersMap seq) = (1 + length (moves q))%nat
    /\ forall p, (p <= length (moves q))%nat ->
         exists t, nth_error (makeRealTurnNumbersMap seq) p = Some t.
Proof.
  intros Hparse Hsz Hsmall.
  destruct (query_eq parse rest parseFloat now sgf opts
              data children others Hparse) as (q & Hq & Hmoves & _).
  exists q, (seqFromObject (Node (delete data (js "C")) children)).
  split; [exact Hq|].
  split; [unfold rootAndSeqFromSGF; now rewrite Hparse|].
  remember (seqFromObject (Node (delete data (js "C")) children)) as sq.
  assert (Hlen : length (makeRealTurnNumbersMap sq)
                 = (1 + length (moves q))%nat).
  { rewrite Hmoves, Hsz, length_map, makeRealTurnNumbersMap_eq.
    cbn [length Nat.add]. rewrite real_indices_length. f_equal.
    rewrite (filter_nodes (fun move => isNotPassingMove move (Some sz)))
      by apply empty_piece_is_pass.
    fold (nodes_of sq). f_equal. apply filter_ext. intros m. symmetry.
    now apply small_board_rule. }
  split; [exact Hlen|].
  intros p Hp.
  destruct (nth_error (makeRealTurnNumbersMap sq) p) as [t|] eqn:E;
    [eauto|].
  apply nth_error_None in E. lia.
Qed.

Lemma small_board_numbering_witness :
  exists q,
    sgfToKataGoAnalysisQuery (fun _ => Normal record19) (fun _ => NaN) 0
      (js "(;SZ[19]C[a game];W[aa];B[];W[bb])") (turns_given [0; 1; 2; 3])
    = Normal q
    /\ length (makeRealTurnNumbersMap (js ";W[aa];B[];W[bb]"))
       = (1 + length (moves q))%nat.
Proof.
  destruct (small_board_numbering (fun _ => Normal record19) unit
              (fun _ => NaN) 0 (js "(;SZ[19]C[a game];W[aa];B[];W[bb])")
              (turns_given [0; 1; 2; 3])
              [(js "SZ", [js "19"]); (js "C", [js "a game"])]
              (chain [("W", "aa"); ("B", ""); ("W", "bb")]) [] 19
              eq_refl eq_refl ltac:(lia))
    as (q & seq & Hq & Hseq & Hlen & _).
  exists q. split; [exact Hq|].
  injection Hseq as <-. exact Hlen.
Defined.

Lemma mkNode_data_move (data : props) :
  mkNode data
  = match data_move data with
    | Some mv => ch ";" :: node_of mv
    | None => []
    end.
Proof.
  unfold mkNode, data_move.
  destruct (prop data (js "B")) as [vs|]; [reflexivity|].
  destruct (prop data (js "W")) as [vs|]; reflexivity.
Qed.

Lemma seqFromObject_moves_text (n : node) :
  seqFromObject n = moves_text (main_moves n).
Proof.
  rewrite seqFromObject_main_line. unfold main_moves, moves_text.
  induction (main_line n) as [|data l IH]; [reflexivity|].
  simpl. rewrite IH, mkNode_data_move.
  destruct (data_move data); reflexivity.
Qed.

Lemma played_node_of (sz : Z) (mv : move) :
  valid_move mv -> isNotPassingMove (node_of mv) (Some sz) = played sz mv.
Proof.
  intros H. rewrite isNotPassingMove_node by exact H. unfold played.
  destruct (sz <? 20), (truthy (snd mv)),
    (str_eqb (snd mv) (js "tt")); reflexivity.
Qed.

Lemma move_of_node_of (mv : move) :
  well_formed_move mv -> truthy (snd mv) = true ->
  move_of (node_of mv) = engine_move mv.
Proof.
  intros ((Hc & Hp) & Hlen) Ht. unfold move_of, node_of.
  rewrite search_move_node by auto.
  rewrite match_move_node, Ht by auto.
  unfold engine_move. f_equal. f_equal.
  destruct mv as [c coord]. simpl in *.
  destruct Hlen as [->|Hlen]; [discriminate|].
  destruct coord as [|x [|y [|z coord]]]; try discriminate. reflexivity.
Qed.

(** X10. The moves the engine gets for a record are the moves of the main line
    of its tree that are not passes, in order, each with its colour and
    its COMPACT coordinate: writing the tree as a sequence text and cutting
    the text again loses nothing. *)
Theorem tree_moves_roundtrip (n : node) (sz : Z) :
  Forall well_formed_move (main_moves n) ->
  nodes_of (seqFromObject n) = map node_of (main_moves n)
  /\ seqToKataGoMoves (seqFromObject n) (Some sz)
     = Normal (map engine_move (filter (played sz) (main_moves n))).
Proof.
  intros Hwf.
  assert (Hvalid : Forall valid_move (main_moves n)).
  { eapply Forall_impl; [|exact Hwf]. now intros mv [H _]. }
  rewrite seqFromObject_moves_text.
  split; [now apply nodes_of_moves_text|].
  rewrite seqToKataGoMoves_eq, split_moves_text by exact Hvalid.
  cbn [filter]. rewrite empty_piece_is_pass. f_equal.
  induction Hwf as [|mv ms Hmv Hms IH]; [reflexivity|].
  inversion Hvalid as [|? ? Hv Hvs]; subst.
  cbn [map filter]. rewrite played_node_of by exact Hv.
  destruct (played sz mv) eqn:Hpl; [|now apply IH].
  cbn [map]. rewrite IH by exact Hvs. f_equal.
  apply move_of_node_of; [exact Hmv|].
  unfold played in Hpl. now apply andb_true_iff in Hpl as [Hpl _].
Qed.

Lemma tree_moves_roundtrip_witness :
  seqToKataGoMoves
    (seqFromObject
       (Node [(js "SZ", [js "19"])]
          (chain [("W", "po"); ("B", ""); ("W", "tt"); ("B", "hm")])))
    (Some 19)
  = Normal [(Some (ch "W"), js "Q15"); (Some (ch "B"), js "H13")].
Proof.
  apply (tree_moves_roundtrip
           (Node [(js "SZ", [js "19"])]
              (chain [("W", "po"); ("B", ""); ("W", "tt"); ("B", "hm")]))
           19).
  change (Forall well_formed_move
            [(ch "W", js "po"); (ch "B", []); (ch "W", js "tt");
             (ch "B", js "hm")]).
  repeat (apply Forall_cons;
          [split;
           [split; [first [now left|now right]|apply plain_check; reflexivity]
           |first [now left|now right]]|]).
  apply Forall_nil.
Defined.

End MoreSequences.

(** ** Variations and responses *)

Section MoreResponses.

Lemma iaFromJ1_compact (x : jsstring) :
  on_board 25 x -> iaFromJ1 (compact x) = Normal x.
Proof.
  intros (col & row & -> & Hc & Hr).
  pose proof (roundtrip_letters col row ltac:(lia) ltac:(lia)) as H.
  rewrite iaToJ1_compact in H. exact H.
Qed.

Lemma other_colour_unit (c : N) :
  (if str_eqb [c] (js "W") then js "B" else js "W") = [other_colour c].
Proof.
  unfold other_colour. change (js "W") with [ch "W"].
  change (js "B") with [ch "B"]. cbn [str_eqb].
  rewrite andb_true_r. now destruct (c =? ch "W")%N.
Qed.

Lemma seqFromKataGoMoveInfo_reduce (pl : jsstring) (pv : list jsstring) :
  seqFromKataGoMoveInfo pl pv
  = bind (reduce moveInfo_step ([], pl) pv)
      (fun seq => Normal (js "(" ++ fst seq ++ js ")")).
Proof. reflexivity. Qed.

Lemma reduce_moveInfo (xs : list jsstring) :
  Forall (on_board 25) xs ->
  forall (acc : jsstring) (c : N),
    exists c',
      reduce moveInfo_step (acc, [c]) (map compact xs)
      = Normal (acc ++ moves_text (alternating c xs), [c']).
Proof.
  induction 1 as [|x xs Hx _ IH]; intros acc c.
  - exists c. simpl. now rewrite app_nil_r.
  - cbn [map reduce]. unfold moveInfo_step at 1.
    rewrite (iaFromJ1_compact x Hx). cbn [bind fst snd].
    rewrite other_colour_unit.
    destruct (IH (acc ++ js ";" ++ [c] ++ js "[" ++ x ++ js "]")
                (other_colour c)) as (c' & E).
    exists c'. eapply eq_trans; [exact E|]. f_equal. f_equal.
    cbn [alternating]. unfold moves_text. cbn [map concat].
    unfold node_of, move_node. cbn [fst snd].
    change (js ";") with [ch ";"]. change (js "[") with [ch "["].
    change (js "]") with [ch "]"].
    rewrite <- !app_assoc. cbn [app]. rewrite <- !app_assoc. reflexivity.
Qed.

(** X11. A principal variation whose moves are the COMPACT names of points of a
    board of size at most 25 becomes the sequence text of those points, the
    colours taking turns from the given one, between parentheses. *)
Theorem seqFromKataGoMoveInfo_text (c : N) (xs : list jsstring) :
  Forall (on_board 25) xs ->
  seqFromKataGoMoveInfo [c] (map compact xs)
  = Normal (js "(" ++ moves_text (alternating c xs) ++ js ")").
Proof.
  intros H. rewrite seqFromKataGoMoveInfo_reduce.
  destruct (reduce_moveInfo xs H [] c) as (c' & E).
  eapply eq_trans;
    [exact (f_equal (fun m => bind m (fun seq => Normal (js "(" ++ fst seq ++ js ")"))) E)|].
  reflexivity.
Qed.

Lemma seqFromKataGoMoveInfo_text_witness :
  seqFromKataGoMoveInfo (js "W") [js "A1"; js "B2"; js "C3"]
  = Normal (js "(;W[aa];B[bb];W[cc])").
Proof.
  apply (seqFromKataGoMoveInfo_text (ch "W") [js "aa"; js "bb"; js "cc"]).
  repeat constructor;
    [exists 97%N, 97%N|exists 98%N, 98%N|exists 99%N, 99%N];
    repeat split; simpl; lia.
Defined.

Lemma iaFromJ1_throws (v : jsstring) :
  (v = [] /\ iaFromJ1 v = Throw TypeError)
  \/ (v <> [] /\ exists s, iaFromJ1 v = Normal s).
Proof.
  destruct v as [|c v]; [left; split; reflexivity|right].
  split; [discriminate|]. rewrite iaFromJ1_units. eauto.
Qed.

Lemma reduce_moveInfo_cases (pv : list jsstring) :
  forall acc,
    (In [] pv /\ reduce moveInfo_step acc pv = Throw TypeError)
    \/ (~ In [] pv /\ exists r, reduce moveInfo_step acc pv = Normal r).
Proof.
  induction pv as [|m pv IH]; intros acc.
  - right. split; [intros []|]. simpl. eauto.
  - cbn [reduce]. unfold moveInfo_step at 1 3.
    destruct (iaFromJ1_throws m) as [(-> & E)|(Hm & s & E)]; rewrite E.
    + left. split; [now left|reflexivity].
    + cbn [bind].
      destruct (IH (fst acc ++ js ";" ++ snd acc ++ js "[" ++ s ++ js "]",
                    if str_eqb (snd acc) (js "W") then js "B" else js "W"))
        as [(Hin & Ht)|(Hno & r & Hr)].
      * left. split; [now right|exact Ht].
      * right. split; [|eauto].
        intros [H|H]; [now apply Hm|now apply Hno].
Qed.

(** X12. A principal variation is turned into a sequence text unless one of its
    moves is the empty string; then, and only then, a TypeError is
    raised. *)
Theorem seqFromKataGoMoveInfo_error (pl : jsstring) (pv : list jsstring) :
  (seqFromKataGoMoveInfo pl pv = Throw TypeError <-> In [] pv)
  /\ ((exists s, seqFromKataGoMoveInfo pl pv = Normal s) <-> ~ In [] pv).
Proof.
  pose proof (seqFromKataGoMoveInfo_reduce pl pv) as R.
  destruct (reduce_moveInfo_cases pv ([], pl)) as [(Hin & E)|(Hno & r & E)];
    pose proof
      (eq_trans R
         (f_equal
            (fun m => bind m (fun seq => Normal (js "(" ++ fst seq ++ js ")")))
            E)) as R';
    cbn [bind] in R'; rewrite R'.
  - split; split; try tauto. intros (s & H). discriminate.
  - split; split; try tauto; try discriminate. eauto.
Qed.

Lemma replace_from_to_colon_none (post : jsstring) :
  forall prev, ~ In (ch ":") post ->
    replace_from re_to_colon [] prev post = post.
Proof.
  induction post as [|c post IH]; intros prev Hno; cbn [replace_from];
    rewrite (match_to_colon_none _ prev Hno); [reflexivity|].
  f_equal. apply IH. intros H. apply Hno. now right.
Qed.

(** X13. The turn number of a response line is the integer at the start of what
    follows its last colon; of a line with no colon, the integer at the
    start of the line. *)
Theorem getTurnNumber_after_last_colon (pre post : jsstring) :
  Forall (fun c => dot c = true) pre -> ~ In (ch ":") post ->
  getTurnNumber (pre ++ ch ":" :: post) = parseInt post
  /\ getTurnNumber post = parseInt post.
Proof.
  intros Hpre Hpost. split; [now apply getTurnNumber_last_colon|].
  unfold getTurnNumber, replace. now rewrite replace_from_to_colon_none.
Qed.

Lemma getTurnNumber_after_last_colon_witness :
  getTurnNumber (js "{id:9,rootInfo:{winrate:0.5},turnNumber:12}") = Some 12
  /\ getTurnNumber (js "12}") = Some 12.
Proof.
  apply (getTurnNumber_after_last_colon
           (js "{id:9,rootInfo:{winrate:0.5},turnNumber") (js "12}")).
  - repeat constructor.
  - apply no_unit_check. reflexivity.
Defined.

Lemma join_split (sep : N) (s : jsstring) : join [sep] (split sep s) = s.
Proof.
  induction s as [|c s IH]; [reflexivity|].
  simpl. destruct (N.eqb_spec c sep) as [->|Hne].
  - destruct (split sep s) as [|piece pieces] eqn:E.
    + destruct s; simpl in E; [discriminate|].
      destruct (n =? sep)%N; [discriminate|].
      destruct (split sep s); discriminate.
    + simpl. f_equal. exact IH.
  - destruct (split sep s) as [|piece pieces] eqn:E.
    + simpl in IH. now subst.
    + destruct pieces; simpl in *; now rewrite <- IH.
Qed.

(** X14. With no turn to replace, the merge is the original followed by the
    revisit stream, whatever the original: no line is lost or changed. *)
Theorem merge_no_turns (original revisited : jsstring) :
  mergeKataGoResponses original revisited [] = original ++ revisited.
Proof.
  unfold mergeKataGoResponses. f_equal.
  rewrite (filter_ext _ (fun _ => true)).
  - rewrite forallb_filter_id by (now apply forallb_forall).
    apply join_split.
  - intros l. unfold indexOf. now destruct (getTurnNumber l).
Qed.

Lemma subseq_refl {A} (l : list A) : subseq l l.
Proof.
  induction l; [apply subseq_nil|now apply subseq_keep].
Qed.

Lemma subseq_app_keep {A} (x : A) (l2 l1 : list A) :
  subseq l2 l1 -> subseq (l2 ++ [x]) (l1 ++ [x]).
Proof.
  induction 1; simpl.
  - apply subseq_refl.
  - now apply subseq_skip.
  - now apply subseq_keep.
Qed.

Lemma subseq_app_skip {A} (x : A) (l2 l1 : list A) :
  subseq l2 l1 -> subseq l2 (l1 ++ [x]).
Proof.
  induction 1; simpl.
  - apply subseq_skip, subseq_nil.
  - now apply subseq_skip.
  - now apply subseq_keep.
Qed.

Lemma num_gt_weaken (d w1 w2 : number) :
  num_ge w2 w1 = true -> num_gt d w2 = true -> num_gt d w1 = true.
Proof.
  unfold num_gt. fold (num_lt w2 d). fold (num_lt w1 d).
  rewrite num_ge_compare, !num_lt_compare.
  intros (c & Hc & Hn) Hd.
  destruct (SFcompare_trans w1 w2 d c Lt Hc Hd Hn ltac:(discriminate))
    as (c' & Hc' & _ & Hlt).
  rewrite Hc'. f_equal. apply Hlt. now right.
Qed.

Lemma winrateDropTurns_scan (responses : jsstring) (w : number) :
  winrateDropTurnsFromKataGoResponses responses w
  = bind (sorted_records responses) (fun sorted =>
    bind (reduce (drop_step w)
            {| acc_analyzeTurns := []; acc_winrate := None;
               acc_turnNumber := None |} sorted)
      (fun acc => Normal (acc_analyzeTurns acc))).
Proof.
  unfold winrateDropTurnsFromKataGoResponses, sorted_records.
  destruct (mapM JSON_parse _); reflexivity.
Qed.

Lemma scan_fewer (w1 w2 : number) :
  num_ge w2 w1 = true ->
  forall (l : list json) (a1 a2 : drops_acc),
    acc_turnNumber a1 = acc_turnNumber a2 ->
    acc_winrate a1 = acc_winrate a2 ->
    subseq (acc_analyzeTurns a2) (acc_analyzeTurns a1) ->
    fewer_turns
      (bind (reduce (drop_step w1) a1 l)
         (fun acc => Normal (acc_analyzeTurns acc)))
      (bind (reduce (drop_step w2) a2 l)
         (fun acc => Normal (acc_analyzeTurns acc))).
Proof.
  intros Hw. induction l as [|cur l IH]; intros a1 a2 Ht Hwr Hsub.
  - exact Hsub.
  - cbn [reduce]. unfold drop_step at 1 3.
    destruct (get (Some cur) (js "turnNumber")) as [t|e]; [|reflexivity].
    cbn [bind]. rewrite <- Ht, <- Hwr.
    destruct (get (Some cur) (js "rootInfo")) as [ri|e].
    2:{ destruct (strict_eq_num (acc_turnNumber a1) _); reflexivity. }
    cbn [bind].
    destruct (get ri (js "winrate")) as [wr|e].
    2:{ destruct (strict_eq_num (acc_turnNumber a1) _); reflexivity. }
    cbn [bind].
    destruct (strict_eq_num (acc_turnNumber a1) _); cbn [bind].
    + destruct (num_gt _ w2) eqn:E2.
      * rewrite (num_gt_weaken _ w1 w2 Hw E2).
        apply IH; cbn; auto. now apply subseq_app_keep.
      * destruct (num_gt _ w1); apply IH; cbn; auto.
        now apply subseq_app_skip.
    + apply IH; cbn; auto.
Qed.

Lemma scan_not_a_number :
  forall (l : list json) (a r : drops_acc),
    reduce (drop_step NaN) a l = Normal r ->
    acc_analyzeTurns r = acc_analyzeTurns a.
Proof.
  induction l as [|cur l IH]; intros a r H.
  - injection H as <-. reflexivity.
  - cbn [reduce] in H. unfold drop_step at 1 in H.
    destruct (get (Some cur) (js "turnNumber")) as [t|e]; [|discriminate].
    cbn [bind] in H.
    destruct (get (Some cur) (js "rootInfo")) as [ri|e].
    2:{ destruct (strict_eq_num (acc_turnNumber a) _); discriminate. }
    cbn [bind] in H.
    destruct (get ri (js "winrate")) as [wr|e].
    2:{ destruct (strict_eq_num (acc_turnNumber a) _); discriminate. }
    cbn [bind] in H.
    assert (Hn : forall d, num_gt d NaN = false) by reflexivity.
    destruct (strict_eq_num (acc_turnNumber a) _); cbn [bind] in H;
      rewrite ?Hn in H; now apply IH in H.
Qed.

(** X15. Raising the threshold never adds a turn to revisit: on the same
    responses a threshold at least as high gives the same error or a list
    with some turns left out. A threshold that is not a number gives no
    turn at all. *)
Theorem winrateDropTurns_monotone (responses : jsstring) (w1 w2 : number) :
  num_ge w2 w1 = true ->
  fewer_turns (winrateDropTurnsFromKataGoResponses responses w1)
    (winrateDropTurnsFromKataGoResponses responses w2)
  /\ forall l, winrateDropTurnsFromKataGoResponses responses NaN = Normal l
               -> l = [].
Proof.
  intros Hw. rewrite !winrateDropTurns_scan.
  destruct (sorted_records responses) as [sorted|e].
  2:{ split; [reflexivity|discriminate]. }
  cbn [bind]. split.
  - apply scan_fewer; auto. constructor.
  - intros l H.
    destruct (reduce (drop_step NaN) _ sorted) as [r|e] eqn:E;
      [|discriminate].
    injection H as <-. now apply scan_not_a_number in E.
Qed.

Lemma winrateDropTurns_monotone_witness :
  fewer_turns (winrateDropTurnsFromKataGoResponses four_turns one_tenth)
    (winrateDropTurnsFromKataGoResponses four_turns
       (num_of_decimal false 18 (-2))).
Proof.
  apply (winrateDropTurns_monotone four_turns one_tenth
           (num_of_decimal false 18 (-2))).
  reflexivity.
Defined.

End MoreResponses.

(** ** Variations for autoplay *)

Section MoreVariations.

Lemma display_plain_table :
  forallb (fun col => forallb (display_plain col) (units 97 19)) (units 97 19)
  = true.
Proof. vm_compute. reflexivity. Qed.

Lemma display_no_blank (x : jsstring) :
  on_board 19 x -> ~ In (ch " ") (display x).
Proof.
  intros (col & row & -> & Hc & Hr).
  pose proof display_plain_table as T.
  rewrite forallb_forall in T.
  specialize (T col (in_units 97 19 col ltac:(lia))).
  rewrite forallb_forall in T.
  specialize (T row (in_units 97 19 row ltac:(lia))).
  unfold display_plain in T. apply negb_true_iff in T.
  now apply no_unit_check.
Qed.

Lemma on_board_plain (x : jsstring) : on_board 19 x -> plain x.
Proof.
  intros (col & row & -> & Hc & Hr).
  repeat split; intros [H|[H|[]]]; revert H; unfold ch; simpl; lia.
Qed.

Lemma board_move_valid (mv : move) : board_move 19 mv -> valid_move mv.
Proof.
  intros (Hc & [E|Hb]); split; auto.
  - rewrite E. repeat split; intros [].
  - now apply on_board_plain.
Qed.

Lemma split_pieces (ms : list move) :
  Forall valid_move ms ->
  forall a b, ~ In (ch ";") a -> ~ In (ch ";") b ->
    split (ch ";") (a ++ moves_text ms ++ b) = pieces a ms b.
Proof.
  induction 1 as [|mv ms Hmv _ IH]; intros a b Ha Hb.
  - cbn [moves_text map concat pieces app]. apply split_no_sep.
    intros H. apply in_app_or in H. tauto.
  - change (moves_text (mv :: ms))
      with (ch ";" :: node_of mv ++ moves_text ms).
    cbn [pieces].
    change (a ++ (ch ";" :: node_of mv ++ moves_text ms) ++ b)
      with (a ++ ch ";" :: (node_of mv ++ moves_text ms) ++ b).
    rewrite split_app_sep by exact Ha. f_equal.
    rewrite <- app_assoc. apply IH; [|exact Hb].
    now apply node_of_no_separator.
Qed.

Lemma search_head (re : regex) (s : jsstring) :
  (search s re =? 0) = match match_here re None s with
                       | Some _ => true
                       | None => false
                       end.
Proof.
  unfold search. destruct s as [|c s].
  - simpl. now destruct (match_here re None []).
  - rewrite search_from_cons.
    destruct (match_here re None (c :: s)); [reflexivity|].
    destruct (search_from_cases re s (Some c) (0 + 1))
      as [(E & _)|(n & _ & E & _)]; rewrite E.
    + reflexivity.
    + apply Z.eqb_neq. lia.
Qed.

Lemma head_of_node (mv : move) (t : jsstring) :
  board_move 19 mv ->
  (search (node_of mv ++ t) re_move_head =? 0) = truthy (snd mv).
Proof.
  intros (Hc & Hb). rewrite search_head.
  destruct mv as [c coord]. cbn [fst snd] in *.
  unfold node_of, move_node. cbn [fst snd].
  destruct Hb as [->|(col & row & -> & Hcol & Hrow)].
  - destruct Hc as [-> | ->]; reflexivity.
  - assert (Hne : (col =? ch "]")%N = false).
    { apply N.eqb_neq. unfold ch. simpl. lia. }
    unfold re_move_head. cbn [match_here app]. unfold except.
    rewrite Hne. destruct Hc as [-> | ->]; reflexivity.
Qed.

Lemma coordinate_of_node (mv : move) (t : jsstring) :
  on_board 19 (snd mv) -> substring (node_of mv ++ t) 2 4 = snd mv.
Proof.
  destruct mv as [c coord]. cbn [snd].
  intros (col & row & -> & _). reflexivity.
Qed.

Lemma coords_played_cons (mv : move) (r : list move) :
  coords_played (mv :: r)
  = if truthy (snd mv) then snd mv :: coords_played r else coords_played r.
Proof.
  unfold coords_played. cbn [filter]. now destruct (truthy (snd mv)).
Qed.

Lemma played_on_board (mv : move) :
  board_move 19 mv -> truthy (snd mv) = true -> on_board 19 (snd mv).
Proof.
  intros (_ & [E|Hb]) T; [|exact Hb]. rewrite E in T. discriminate.
Qed.

Lemma coordinates_of_pieces (r : list move) :
  Forall (board_move 19) r ->
  forall (mv : move) (b : jsstring),
    board_move 19 mv ->
    map (fun move => substring move 2 4)
      (filter (fun move => search move re_move_head =? 0)
         (pieces (node_of mv) r b))
    = coords_played (mv :: r).
Proof.
  induction 1 as [|mv' r Hmv' _ IH]; intros mv b Hmv;
    rewrite coords_played_cons.
  - cbn [pieces filter]. rewrite (head_of_node mv b Hmv).
    destruct (truthy (snd mv)) eqn:T; [|reflexivity].
    cbn [map]. rewrite coordinate_of_node; [reflexivity|].
    now apply played_on_board.
  - cbn [pieces filter].
    rewrite <- (app_nil_r (node_of mv)) at 1.
    rewrite (head_of_node mv [] Hmv).
    rewrite <- (IH mv' b Hmv').
    destruct (truthy (snd mv)) eqn:T; [|reflexivity].
    cbn [map]. f_equal.
    rewrite <- (app_nil_r (node_of mv)). apply coordinate_of_node.
    now apply played_on_board.
Qed.

Lemma iaToJ19_display (v : jsstring) : iaToJ19 v = Normal (display v).
Proof.
  unfold display. destruct (iaToJ19_returns v) as (s & ->). reflexivity.
Qed.

Lemma str_indexOf_from_none (c : N) (s : jsstring) :
  forall i, ~ In c s -> str_indexOf_from s c i = -1.
Proof.
  induction s as [|x s IH]; intros i Hno; [reflexivity|].
  cbn [str_indexOf_from]. destruct (N.eqb_spec x c) as [->|Hne].
  - exfalso. apply Hno. now left.
  - apply IH. intros H. apply Hno. now right.
Qed.

Lemma str_indexOf_from_found (c : N) (s : jsstring) :
  forall i, In c s -> i <= str_indexOf_from s c i.
Proof.
  induction s as [|x s IH]; intros i Hin; [destruct Hin|].
  cbn [str_indexOf_from]. destruct (N.eqb_spec x c) as [->|Hne]; [lia|].
  destruct Hin as [E|Hin]; [now elim Hne|].
  specialize (IH (i + 1) Hin). lia.
Qed.

Lemma join_no_blank (l : list jsstring) :
  Forall (fun x => ~ In (ch " ") x) l ->
  (str_indexOf (join (js " ") l) (ch " ") >=? 0) = (2 <=? length l)%nat.
Proof.
  intros H. unfold str_indexOf. rewrite Z.geb_leb.
  destruct H as [|x l Hx Hl]; [reflexivity|].
  destruct l as [|y l].
  - cbn [join]. now rewrite str_indexOf_from_none.
  - change (join (js " ") (x :: y :: l))
      with (x ++ js " " ++ join (js " ") (y :: l)).
    change (2 <=? length (x :: y :: l))%nat with true.
    apply Z.leb_le. apply str_indexOf_from_found.
    apply in_or_app. right. now left.
Qed.

(** X16. The variation of a sequence text between parentheses, over moves of a
    19 by 19 board: the DISPLAY names of the moves that are not empty,
    separated by blanks; where it lists two moves or more, the colour of the
    first node of the text stands before them, be that node a pass or
    not. *)
Theorem seqToPV_moves (ms : list move) :
  Forall (board_move 19) ms ->
  seqToPV (js "(" ++ moves_text ms ++ js ")")
  = Normal
      (let pv := join (js " ") (map display (coords_played ms)) in
       if (2 <=? length (coords_played ms))%nat
       then unit_concat (option_map fst (nth_error ms 0)) pv
       else pv).
Proof.
  intros H. unfold seqToPV.
  assert (Hv : Forall valid_move ms).
  { eapply Forall_impl; [|exact H]. exact board_move_valid. }
  rewrite (split_pieces ms Hv (js "(") (js ")"))
    by (intros [E|[]]; discriminate).
  assert (P : map (fun move => substring move 2 4)
                (filter (fun move => search move re_move_head =? 0)
                   (pieces (js "(") ms (js ")")))
              = coords_played ms).
  { destruct H as [|mv r Hmv Hr]; [reflexivity|].
    cbn [pieces filter].
    change (search (js "(") re_move_head =? 0) with false.
    cbv iota. now apply coordinates_of_pieces. }
  rewrite (mapM_map _ (fun move => display (substring move 2 4)))
    by (intros x _; apply iaToJ19_display).
  cbn [bind]. rewrite <- (map_map (fun move => substring move 2 4) display).
  rewrite P. cbv zeta.
  rewrite join_no_blank.
  2:{ apply Forall_forall. intros d Hd.
      apply in_map_iff in Hd as (x & <- & Hx).
      unfold coords_played in Hx.
      apply in_map_iff in Hx as (mv & <- & Hmv).
      apply filter_In in Hmv as (Hin & Ht).
      rewrite Forall_forall in H.
      destruct (H mv Hin) as (_ & [E|Hb]).
      - rewrite E in Ht. discriminate.
      - now apply display_no_blank. }
  rewrite length_map.
  destruct (2 <=? length (coords_played ms))%nat eqn:L; [|reflexivity].
  destruct ms as [|[c coord] r]; [discriminate|].
  reflexivity.
Qed.

Lemma seqToPV_moves_witness :
  seqToPV (js "(;W[po];B[hm];W[ae])") = Normal (js "WQ5 H7 A15").
Proof.
  apply (seqToPV_moves
           [(ch "W", js "po"); (ch "B", js "hm"); (ch "W", js "ae")]).
  apply Forall_cons;
    [split; [now right|right; exists 112%N, 111%N; repeat split; simpl; lia]|].
  apply Forall_cons;
    [split; [now left|right; exists 104%N, 109%N; repeat split; simpl; lia]|].
  apply Forall_cons;
    [split; [now right|right; exists 97%N, 101%N; repeat split; simpl; lia]|].
  apply Forall_nil.
Defined.

End MoreVariations.

(** ** Root properties *)

Section MoreRoot.

Variable sgfparser_parse : jsstring -> completion (list node).

Lemma prop_delete (data : props) (gone key : jsstring) :
  str_eqb gone key = false -> prop (delete data gone) key = prop data key.
Proof.
  intros Hne. unfold delete.
  induction data as [|[k vs] data IH]; [reflexivity|].
  cbn [filter fst prop].
  destruct (str_eqb k gone) eqn:E; cbn [negb].
  - apply str_eqb_eq in E. subst k. now rewrite Hne.
  - cbn [prop]. now rewrite IH.
Qed.

Lemma mkNode_delete_comment (data : props) :
  mkNode (delete data (js "C")) = mkNode data.
Proof.
  unfold mkNode. now rewrite !prop_delete by reflexivity.
Qed.

Lemma seqFromObject_delete_comment (data : props) (children : list node) :
  seqFromObject (Node (delete data (js "C")) children)
  = seqFromObject (Node data children).
Proof.
  cbn [seqFromObject]. now rewrite mkNode_delete_comment.
Qed.

Lemma props_fold_delete (comment : bool) (obj : props) :
  forall acc,
    fold_left
      (fun acc kv =>
         if negb false && str_eqb (fst kv) (js "C") then acc
         else acc ++ fst kv ++ fold_left addPropValue (snd kv) [])
      obj acc
    = fold_left
        (fun acc kv =>
           if negb comment && str_eqb (fst kv) (js "C") then acc
           else acc ++ fst kv ++ fold_left addPropValue (snd kv) [])
        (delete obj (js "C")) acc.
Proof.
  unfold delete. induction obj as [|kv obj IH]; intros acc; [reflexivity|].
  cbn [fold_left filter].
  destruct (str_eqb (fst kv) (js "C")) eqn:E; cbn [negb andb].
  - apply IH.
  - cbn [fold_left]. rewrite E, andb_false_r. apply IH.
Qed.

(** X17. Writing the properties without the comments is writing those of the
    object with its comment deleted, with or without comments. *)
Theorem propsFromObject_delete (obj : props) (comment : bool) :
  propsFromObject obj false
  = propsFromObject (delete obj (js "C")) comment.
Proof. apply props_fold_delete. Qed.

(** X18. Without comments, [removeTails] writes the root and the sequence that
    [rootAndSeqFromSGF] returns on the text handed to the tokenizer: the
    root properties, then the main line, between parentheses. *)
Theorem removeTails_root (sgf : jsstring) (comment : bool) :
  removeTails sgfparser_parse sgf false
  = bind (rootAndSeqFromSGF sgfparser_parse (tokenizer_input sgf))
      (fun rs =>
         Normal (js "(" ++ propsFromObject (fst rs) comment
                   ++ snd rs ++ js ")")).
Proof.
  unfold removeTails, rootAndSeqFromSGF, tokenizer_input.
  destruct (sgfparser_parse _) as [[|[data children] nodes]|e];
    try reflexivity.
  cbn [bind fst snd].
  rewrite seqFromObject_delete_comment. unfold propsFromObject.
  now rewrite (props_fold_delete comment data).
Qed.

End MoreRoot.

(** ** Line feeds *)

Section MoreLineFeeds.

Variable sgfparser_parse : jsstring -> completion (list node).

Lemma replace_all_from_lf :
  forall (s : jsstring) (fuel : nat) (prev : option N),
    (length s < fuel)%nat ->
    replace_all_from fuel re_lf [] prev s
    = filter (fun c => negb (c =? 10)%N) s.
Proof.
  induction s as [|c s IH]; intros fuel prev Hf.
  - destruct fuel; [simpl in Hf; lia|reflexivity].
  - destruct fuel as [|fuel]; [simpl in Hf; lia|].
    simpl in Hf. simpl. unfold exactly.
    destruct (c =? 10)%N; simpl; rewrite IH by lia; reflexivity.
Qed.

Lemma replace_all_from_crlf :
  forall (fuel : nat) (s : jsstring) (prev : option N),
    ~ In 10%N s -> replace_all_from fuel re_crlf [] prev s = s.
Proof.
  induction fuel as [|fuel IH]; intros s prev Hno; [reflexivity|].
  destruct s as [|c s]; [reflexivity|].
  assert (Hs : ~ In 10%N s) by (intros H; apply Hno; now right).
  assert (M : match_here re_crlf prev (c :: s) = None).
  { unfold re_crlf. cbn [match_here]. unfold exactly.
    destruct (c =? 13)%N; [|reflexivity].
    destruct s as [|d s]; [reflexivity|].
    destruct (N.eqb_spec d 10) as [->|Hd]; [|reflexivity].
    exfalso. apply Hs. now left. }
  cbn [replace_all_from]. rewrite M. f_equal. now apply IH.
Qed.

Lemma filter_no_lf (s : jsstring) :
  ~ In 10%N s -> filter (fun c => negb (c =? 10)%N) s = s.
Proof.
  intros Hno. apply forallb_filter_id. apply forallb_forall.
  intros c Hc. apply negb_true_iff, N.eqb_neq. intros ->. now apply Hno.
Qed.

Lemma tokenizer_input_no_lf (sgf : jsstring) : ~ In 10%N (tokenizer_input sgf).
Proof.
  unfold tokenizer_input, replace_all at 1.
  rewrite replace_all_from_lf by lia.
  intros H. apply filter_In in H as (_ & H).
  rewrite N.eqb_refl in H. discriminate.
Qed.

Lemma tokenizer_input_fixed (s : jsstring) :
  ~ In 10%N s -> tokenizer_input s = s.
Proof.
  intros Hno. unfold tokenizer_input, replace_all.
  rewrite (replace_all_from_crlf _ s None Hno).
  rewrite replace_all_from_lf by lia. now apply filter_no_lf.
Qed.

(** X19. The tokenizer of [removeTails] never gets a line feed, and stripping
    the line feeds beforehand changes nothing of the result. *)
Theorem removeTails_line_feeds (sgf : jsstring) (comment : bool) :
  ~ In 10%N (tokenizer_input sgf)
  /\ removeTails sgfparser_parse (tokenizer_input sgf) comment
     = removeTails sgfparser_parse sgf comment.
Proof.
  split; [apply tokenizer_input_no_lf|].
  unfold removeTails. fold (tokenizer_input sgf).
  fold (tokenizer_input (tokenizer_input sgf)).
  now rewrite (tokenizer_input_fixed _ (tokenizer_input_no_lf sgf)).
Qed.

End MoreLineFeeds.

(** ** The buckets of the report *)

Section MoreReport.

Lemma insert_by_In (cmp : drop -> drop -> number) (x d : drop)
  (l : list drop) :
  In d (insert_by cmp x l) <-> d = x \/ In d l.
Proof.
  induction l as [|y l IH]; cbn [insert_by].
  - simpl. intuition congruence.
  - destruct (num_gt (cmp x y) (num_of_Z 0)); cbn [In]; [rewrite IH|];
      intuition congruence.
Qed.

Lemma insert_by_length (cmp : drop -> drop -> number) (x : drop)
  (l : list drop) :
  length (insert_by cmp x l) = S (length l).
Proof.
  induction l as [|y l IH]; [reflexivity|].
  cbn [insert_by]. destruct (num_gt (cmp x y) (num_of_Z 0)); cbn [length];
    [now rewrite IH|reflexivity].
Qed.

Lemma sort_by_In (cmp : drop -> drop -> number) (d : drop) (l : list drop) :
  In d (sort_by cmp l) <-> In d l.
Proof.
  unfold sort_by. induction l as [|x l IH]; [reflexivity|].
  cbn [fold_right]. rewrite insert_by_In, IH. simpl. intuition congruence.
Qed.

Lemma sort_by_length (cmp : drop -> drop -> number) (l : list drop) :
  length (sort_by cmp l) = length l.
Proof.
  unfold sort_by. induction l as [|x l IH]; [reflexivity|].
  cbn [fold_right]. rewrite insert_by_length. simpl. now rewrite IH.
Qed.

Lemma slice0_In (n : nat) (d : drop) (l : list drop) :
  In d (slice0 n l) -> In d l.
Proof.
  unfold slice0. intros H. rewrite <- (firstn_skipn n l).
  apply in_or_app. now left.
Qed.

Lemma in_total (p : jsstring) (drops : list drop) (st : stat) (d : drop) :
  In d (total (makeGoodBads p drops st)) <-> In d drops /\ pl d = p.
Proof.
  unfold total, makeGoodBads. cbn [nth].
  rewrite filter_In, str_eqb_eq. reflexivity.
Qed.

Lemma top_members (p : jsstring) (key : drop -> number)
  (cmp : drop -> drop -> number) (drops : list drop) (d : drop) :
  In d (slice0 10
          (sort_by cmp
             (filter (fun n => str_eqb (pl n) p && num_truthy (key n))
                drops))) ->
  In d drops /\ pl d = p /\ num_truthy (key d) = true.
Proof.
  intros H. apply slice0_In, sort_by_In in H.
  now apply (in_bucket p (fun n => num_truthy (key n))) in H.
Qed.

Lemma bucket_members (p : jsstring) (drops : list drop) (st : stat)
  (b : list drop) (d : drop) :
  In b (makeGoodBads p drops st) -> In d b -> In d drops /\ pl d = p.
Proof.
  unfold makeGoodBads.
  intros [<-|[<-|[<-|[<-|[<-|[<-|[<-|[]]]]]]]] H.
  - apply (in_bucket p (fun n => num_lt (winrateDrop n) _)) in H. tauto.
  - apply (in_bucket p (fun n => num_lt (winrateDrop n) _)) in H. tauto.
  - apply (in_bucket p (fun n => num_ge (winrateDrop n) _)) in H. tauto.
  - apply (in_bucket p (fun n => num_ge (winrateDrop n) _)) in H. tauto.
  - apply top_members in H. tauto.
  - apply top_members in H. tauto.
  - apply filter_In in H as (H & Hp). apply str_eqb_eq in Hp. tauto.
Qed.

(** X20. Each of the two top-ten lists holds at most ten moves, all of them
    moves of the player whose drop is a number other than zero; where the
    player has ten moves or fewer, every move with such a drop is
    listed. *)
Theorem top_ten (p : jsstring) (drops : list drop) (st : stat) :
  (length (topWinrate (makeGoodBads p drops st)) <= 10)%nat
  /\ (length (topScore (makeGoodBads p drops st)) <= 10)%nat
  /\ (forall d, In d (topWinrate (makeGoodBads p drops st)) ->
        In d (total (makeGoodBads p drops st))
        /\ num_truthy (winrateDrop d) = true)
  /\ (forall d, In d (topScore (makeGoodBads p drops st)) ->
        In d (total (makeGoodBads p drops st))
        /\ num_truthy (scoreDrop d) = true)
  /\ ((length (total (makeGoodBads p drops st)) <= 10)%nat ->
      forall d, In d (total (makeGoodBads p drops st)) ->
        (num_truthy (winrateDrop d) = true ->
         In d (topWinrate (makeGoodBads p drops st)))
        /\ (num_truthy (scoreDrop d) = true ->
            In d (topScore (makeGoodBads p drops st)))).
Proof.
  split; [apply firstn_le_length|]. split; [apply firstn_le_length|].
  split; [|split].
  - intros d H. apply top_members in H as (Hin & Hp & Ht).
    split; [now apply in_total|exact Ht].
  - intros d H. apply top_members in H as (Hin & Hp & Ht).
    split; [now apply in_total|exact Ht].
  - intros Hlen d Hd. apply in_total in Hd as (Hin & Hp).
    unfold total, topWinrate, topScore, makeGoodBads in *.
    cbn [nth] in *. unfold slice0.
    assert (L : forall key : drop -> number,
               (length (filter (fun n => str_eqb (pl n) p
                                         && num_truthy (key n)) drops)
                <= 10)%nat).
    { intros key. eapply Nat.le_trans; [|exact Hlen].
      clear. induction drops as [|x l IH]; [apply Nat.le_refl|].
      simpl. destruct (str_eqb (pl x) p); simpl; [|exact IH].
      destruct (num_truthy (key x)); simpl; lia. }
    split; intros Ht; rewrite firstn_all2
      by (rewrite sort_by_length; apply L);
      apply sort_by_In;
      [apply (in_bucket p (fun n => num_truthy (winrateDrop n)))
      |apply (in_bucket p (fun n => num_truthy (scoreDrop n)))]; auto.
Qed.

Lemma SFcompare_antisym (x y : number) :
  SFcompare y x = option_map CompOpp (SFcompare x y).
Proof.
  destruct x as [sx|sx| |sx mx ex], y as [sy|sy| |sy my ey]; simpl;
    try reflexivity;
    try (destruct sx; reflexivity); try (destruct sy; reflexivity);
    try (destruct sx, sy; reflexivity).
  destruct sx, sy; try reflexivity;
    rewrite (Z.compare_antisym ex ey);
    destruct (ex ?= ey); simpl; try reflexivity;
    change (Pos.compare_cont Eq my mx) with (Pos.compare my mx);
    change (Pos.compare_cont Eq mx my) with (Pos.compare mx my);
    rewrite (Pos.compare_antisym mx my);
    destruct (mx ?= my)%positive; reflexivity.
Qed.

Lemma SFcompare_none (x y : number) :
  is_nan x = false -> is_nan y = false -> SFcompare x y <> None.
Proof.
  destruct x, y; simpl; intros; discriminate.
Qed.

Lemma num_lt_not_ge (x y : number) :
  is_nan x = false -> is_nan y = false ->
  num_lt x y = negb (num_ge x y).
Proof.
  intros Hx Hy. unfold num_lt, num_ge, SFltb, SFleb.
  rewrite (SFcompare_antisym x y).
  pose proof (SFcompare_none x y Hx Hy) as Hn.
  destruct (SFcompare x y) as [[]|]; try reflexivity. now elim Hn.
Qed.

Lemma nan_lt (y : number) : num_lt NaN y = false.
Proof. now destruct y. Qed.

Lemma nan_ge (y : number) : num_ge NaN y = false.
Proof. now destruct y. Qed.

(** X21. A move of the player whose win rate drop is a number is acceptable or
    bad, never both, the bad floor being a number; a move with no drop (not
    a number) is in the total and in none of the four classes. *)
Theorem acceptable_or_bad (p : jsstring) (drops : list drop) (st : stat)
  (d : drop) :
  In d (total (makeGoodBads p drops st)) ->
  (is_nan (winrateDrop d) = false -> is_nan (badmovewinrate st) = false ->
   (In d (acceptable (makeGoodBads p drops st))
    <-> ~ In d (bad (makeGoodBads p drops st))))
  /\ (is_nan (winrateDrop d) = true ->
      ~ In d (good (makeGoodBads p drops st))
      /\ ~ In d (acceptable (makeGoodBads p drops st))
      /\ ~ In d (bad (makeGoodBads p drops st))
      /\ ~ In d (hotSpot (makeGoodBads p drops st))).
Proof.
  intros Hd. apply in_total in Hd as (Hin & Hp).
  unfold good, acceptable, bad, hotSpot, makeGoodBads. cbn [nth].
  pose proof (in_bucket p (fun n => num_lt (winrateDrop n) (goodmovewinrate st))
                drops d) as G.
  pose proof (in_bucket p (fun n => num_lt (winrateDrop n) (badmovewinrate st))
                drops d) as A.
  pose proof (in_bucket p (fun n => num_ge (winrateDrop n) (badmovewinrate st))
                drops d) as B.
  pose proof (in_bucket p
                (fun n => num_ge (winrateDrop n) (badhotspotwinrate st))
                drops d) as S.
  cbv beta in G, A, B, S.
  split.
  - intros Nx Ny. pose proof (num_lt_not_ge _ _ Nx Ny) as K.
    split.
    + intros H H'. apply A in H as (_ & _ & H). apply B in H' as (_ & _ & H').
      rewrite K, H' in H. discriminate.
    + intros H. apply A. split; [exact Hin|]. split; [exact Hp|].
      rewrite K. destruct (num_ge _ _) eqn:E; [|reflexivity].
      exfalso. apply H. apply B. auto.
  - intros Nx.
    assert (W : winrateDrop d = NaN)
      by (destruct (winrateDrop d); try discriminate; reflexivity).
    split; [|split; [|split]]; intros H.
    + apply G in H as (_ & _ & H). rewrite W, nan_lt in H. discriminate.
    + apply A in H as (_ & _ & H). rewrite W, nan_lt in H. discriminate.
    + apply B in H as (_ & _ & H). rewrite W, nan_ge in H. discriminate.
    + apply S in H as (_ & _ & H). rewrite W, nan_ge in H. discriminate.
Qed.

Lemma acceptable_or_bad_witness :
  In unrated_drop
    (total (makeGoodBads (js "B") [small_drop; unrated_drop; large_drop]
              thresholds))
  /\ ~ In unrated_drop
         (acceptable
            (makeGoodBads (js "B") [small_drop; unrated_drop; large_drop]
               thresholds))
  /\ ~ In unrated_drop
         (bad (makeGoodBads (js "B") [small_drop; unrated_drop; large_drop]
                 thresholds)).
Proof.
  assert (T : In unrated_drop
                (total (makeGoodBads (js "B")
                          [small_drop; unrated_drop; large_drop]
                          thresholds))).
  { right. now left. }
  destruct (acceptable_or_bad (js "B") [small_drop; unrated_drop; large_drop]
              thresholds unrated_drop T) as (_ & N).
  destruct (N eq_refl) as (_ & A & B & _).
  split; [exact T|]. split; [exact A|exact B].
Defined.

Lemma mapi_from_In {A B} (f : A -> Z -> B) (l : list A) :
  forall (i : Z) (y : B),
    In y (mapi_from f i l) ->
    exists (k : nat) (x : A),
      nth_error l k = Some x /\ y = f x (i + Z.of_nat k).
Proof.
  induction l as [|x l IH]; intros i y H; [destruct H|].
  destruct H as [<-|H].
  - exists 0%nat, x. split; [reflexivity|]. f_equal. lia.
  - destruct (IH (i + 1) y H) as (k & x' & Hk & ->).
    exists (S k), x'. split; [exact Hk|]. f_equal. lia.
Qed.

(** X22. In every bucket the report is built from, a move carries the position
    of its node among the nodes of the game tree as its index, with the
    player and the drops of that node; the player is the one the bucket is
    made for. *)
Theorem report_indices (p : jsstring) (nodes : list tree_node) (st : stat) :
  Forall
    (Forall
       (fun d =>
          0 <= index d
          /\ exists node,
               nth_error nodes (Z.to_nat (index d)) = Some node
               /\ node_pl node = p
               /\ pl d = node_pl node
               /\ winrateDrop d = node_winrateDrop node
               /\ scoreDrop d = node_scoreDrop node))
    (makeGoodBads p (drops_of_nodes nodes) st).
Proof.
  apply Forall_forall. intros b Hb. apply Forall_forall. intros d Hd.
  destruct (bucket_members p _ st b d Hb Hd) as (Hin & Hp).
  unfold drops_of_nodes, mapi in Hin.
  apply mapi_from_In in Hin as (k & node & Hk & ->).
  cbn [index pl winrateDrop scoreDrop] in *.
  split; [lia|]. exists node.
  replace (Z.to_nat (0 + Z.of_nat k)) with k by lia.
  auto.
Qed.

End MoreReport.
